(** * EEPROM storage layer of the T12 soldering-iron controller

    Shallow embedding of [Src/eeprom.c]: the depth-1 chunk cache
    ([readChunk], [writeChunk]), the two checksums ([CFG_checkSum],
    [TIP_checkSum]), the wear-levelled configuration log ([EEPROM_init],
    [loadRecord], [saveRecord]), the tip slot table ([loadTipData],
    [saveTipData]) and the bulk erase ([clearConfigArea]).

    The file-scope variables of the C module become the fields of [state];
    the AT24C32 behind the I2C bus is a flat byte memory together with an
    oracle fixing the outcome of every bus transaction.  C integers are [Z]
    with the wrap-around of their width written out; memory is [list byte]
    and multi-byte fields are little-endian (Cortex-M). *)

From Stdlib Require Import ZArith List Lia Bool.
From coqutil Require Import Byte Word.LittleEndianList.
Import ListNotations.

Local Open Scope Z_scope.

(** ** Integer widths *)

Definition u8  (z : Z) : Z := z mod 2 ^ 8.
Definition u16 (z : Z) : Z := z mod 2 ^ 16.
Definition u32 (z : Z) : Z := z mod 2 ^ 32.

(** ** Constants of [eeprom.c] *)

Definition eeprom_chunk_size : Z := 32.
Definition eeprom_chunks     : Z := 128.
Definition eeprom_address    : Z := 0x50.
Definition cfg_chunks        : Z := 64.
Definition tip_chunks        : Z := 64.

(** ** Raw memory: field access through a pointer *)

Definition get_u8 (off : nat) (mem : list byte) : Z :=
  byte.unsigned (nth off mem Byte.x00).

Definition get_i8 (off : nat) (mem : list byte) : Z :=
  let v := get_u8 off mem in if v <? 128 then v else v - 256.

Definition get_le (w off : nat) (mem : list byte) : Z :=
  le_combine (firstn w (skipn off mem)).

Definition set_le (w off : nat) (v : Z) (mem : list byte) : list byte :=
  firstn off mem ++ le_split w v ++ skipn (off + w) mem.

Definition get_u16 := get_le 2.
Definition get_u32 := get_le 4.
Definition set_u32 := set_le 4.
Definition set_u8  := set_le 1.

(** [memcpy(dst + off, src, n)] *)
Definition memcpy_at (off : nat) (dst src : list byte) (n : nat) : list byte :=
  firstn off dst ++ firstn n src ++ skipn (off + n) dst.

Definition memcpy (dst src : list byte) (n : nat) : list byte :=
  memcpy_at 0 dst src n.

(** ** The device behind the bus *)

(** Modelled from the spec: the transport ([HAL_I2C_Mem_Read],
    [HAL_I2C_Mem_Write], [HAL_Delay] of the vendor HAL, not part of the
    sources) is a blocking, byte-addressed block read or write that either
    completes or fails; a failed transaction transfers nothing. *)

Definition mem_read (addr len : nat) (m : list byte) : list byte :=
  firstn len (skipn addr m).

Definition mem_write (addr : nat) (bs m : list byte) : list byte :=
  firstn addr m ++ bs ++ skipn (addr + length bs) m.

Inductive io_event : Type :=
| I2C_Mem_Read  (dev addr : Z) (ok : bool)
| I2C_Mem_Write (dev addr : Z) (ok : bool)
| Delay (ms : Z).

Definition is_transfer (e : io_event) : bool :=
  match e with Delay _ => false | _ => true end.


(** Number of bus transactions (reads, writes) and of block reads in a trace. *)
Definition transfers (t : list io_event) : nat := length (filter is_transfer t).

(** ** Module state *)

Record state : Type := mkState {
  can_write     : bool;
  r_chunk       : Z;
  w_chunk       : Z;
  data          : list byte;
  chunk_in_data : Z;
  (* environment *)
  eeprom        : list byte;          (* content of the AT24C32 *)
  bus           : nat -> bool;        (* outcome of the n-th bus transaction *)
  trace         : list io_event       (* most recent event first *)
}.

Definition set_can_write (v : bool) (s : state) : state :=
  mkState v (r_chunk s) (w_chunk s) (data s) (chunk_in_data s) (eeprom s) (bus s) (trace s).
Definition set_r_chunk (v : Z) (s : state) : state :=
  mkState (can_write s) v (w_chunk s) (data s) (chunk_in_data s) (eeprom s) (bus s) (trace s).
Definition set_w_chunk (v : Z) (s : state) : state :=
  mkState (can_write s) (r_chunk s) v (data s) (chunk_in_data s) (eeprom s) (bus s) (trace s).
Definition set_data (v : list byte) (s : state) : state :=
  mkState (can_write s) (r_chunk s) (w_chunk s) v (chunk_in_data s) (eeprom s) (bus s) (trace s).
Definition set_chunk_in_data (v : Z) (s : state) : state :=
  mkState (can_write s) (r_chunk s) (w_chunk s) (data s) v (eeprom s) (bus s) (trace s).
Definition set_eeprom (v : list byte) (s : state) : state :=
  mkState (can_write s) (r_chunk s) (w_chunk s) (data s) (chunk_in_data s) v (bus s) (trace s).
Definition log_event (e : io_event) (s : state) : state :=
  mkState (can_write s) (r_chunk s) (w_chunk s) (data s) (chunk_in_data s) (eeprom s) (bus s)
          (e :: trace s).

(** The state at reset: the static initialisers of the module. *)
Definition boot (dev : list byte) (b : nat -> bool) : state :=
  mkState false 0 0 (repeat Byte.x00 (Z.to_nat eeprom_chunk_size)) 65535 dev b [].

(** ** A state monad for the module's functions *)

Definition M (A : Type) : Type := state -> A * state.

Definition ret {A} (a : A) : M A := fun s => (a, s).
Definition bind {A B} (m : M A) (k : A -> M B) : M B :=
  fun s => let (a, s') := m s in k a s'.
Definition gets {A} (f : state -> A) : M A := fun s => (f s, s).
Definition modify (f : state -> state) : M unit := fun s => (tt, f s).

Declare Scope eeprom_scope.
Delimit Scope eeprom_scope with eeprom.
Notation "x <- m ;; k" := (bind m (fun x => k))
  (at level 61, m at next level, right associativity) : eeprom_scope.
Notation "m ;;; k" := (bind m (fun _ => k))
  (at level 61, right associativity) : eeprom_scope.
Local Open Scope eeprom_scope.

(** ** HAL primitives *)

(** Modelled from the spec: the settle delay, recorded in the trace. *)
Definition HAL_Delay (ms : Z) : M unit := modify (log_event (Delay ms)).

(** Modelled from the spec: block read of [eeprom_chunk_size] bytes at
    [addr] into [data]; the bus decides whether it completes. *)
Definition HAL_I2C_Mem_Read (addr : Z) : M bool := fun s =>
  let ok := bus s (transfers (trace s)) in
  let s1 := log_event (I2C_Mem_Read (Z.shiftl eeprom_address 1) addr ok) s in
  if ok
  then (true, set_data (mem_read (Z.to_nat addr) (Z.to_nat eeprom_chunk_size) (eeprom s)) s1)
  else (false, s1).

(** Modelled from the spec: block write of [data] at [addr]; the bus
    decides whether it completes. *)
Definition HAL_I2C_Mem_Write (addr : Z) : M bool := fun s =>
  let ok := bus s (transfers (trace s)) in
  let s1 := log_event (I2C_Mem_Write (Z.shiftl eeprom_address 1) addr ok) s in
  if ok
  then (true, set_eeprom (mem_write (Z.to_nat addr)
                                     (firstn (Z.to_nat eeprom_chunk_size) (data s))
                                     (eeprom s)) s1)
  else (false, s1).

(** ** The chunk cache *)

Definition readChunk (chunk_index : Z) : M bool :=
  cid <- gets chunk_in_data ;;
  if chunk_index =? cid then ret true
  else if chunk_index >=? eeprom_chunks then ret false
  else
    let addr := u16 (chunk_index * eeprom_chunk_size) in
    ok <- HAL_I2C_Mem_Read addr ;;
    if ok then modify (set_chunk_in_data chunk_index) ;;; ret true
    else ret false.

Definition writeChunk (chunk_index : Z) : M bool :=
  if chunk_index >=? eeprom_chunks then ret false
  else
    let addr := u16 (chunk_index * eeprom_chunk_size) in
    modify (set_chunk_in_data eeprom_chunks) ;;;
    ok <- HAL_I2C_Mem_Write addr ;;
    if ok then
      modify (set_chunk_in_data chunk_index) ;;;
      HAL_Delay 20 ;;;
      ret true
    else
      HAL_Delay 20 ;;;
      ret false.

(** ** Record layouts *)

(** Modelled from the spec: the declarations of [RECORD] and [TIP]
    (eeprom.h, iron_tips.h and the configuration header are not part of
    the sources).  [RECORD] is a fixed-size block that fits one chunk and
    embeds a 32-bit identifier [ID] and a full-width (32-bit) checksum
    [crc]; [TIP] holds four 16-bit calibration points, a mask byte, a
    signed ambient byte, a fixed-length name and an 8-bit [crc].  The
    sizes and field offsets are parameters. *)

Record RECORD_layout : Type := mkRECORD {
  sizeof_RECORD : nat;
  offsetof_ID   : nat;
  offsetof_crc  : nat
}.

Definition wf_RECORD (L : RECORD_layout) : Prop :=
  (offsetof_ID L + 4 <= sizeof_RECORD L)%nat /\
  (offsetof_crc L + 4 <= sizeof_RECORD L)%nat /\
  (offsetof_ID L + 4 <= offsetof_crc L \/ offsetof_crc L + 4 <= offsetof_ID L)%nat /\
  (sizeof_RECORD L <= Z.to_nat eeprom_chunk_size)%nat.

Record TIP_layout : Type := mkTIP {
  sizeof_TIP       : nat;
  tip_name_sz      : nat;
  offsetof_t200    : nat;
  offsetof_t260    : nat;
  offsetof_t330    : nat;
  offsetof_t400    : nat;
  offsetof_mask    : nat;
  offsetof_name    : nat;
  offsetof_ambient : nat;
  offsetof_tip_crc : nat
}.

Inductive TIP_IO_STATUS : Type := EPR_OK | EPR_IO | EPR_CHECKSUM | EPR_INDEX.

(** The 16-byte tip record and a 32-byte configuration record with the
    identifier and the checksum in front. *)
Definition TIP16 : TIP_layout := mkTIP 16 5 0 2 4 6 8 9 14 15.
Definition RECORD32 : RECORD_layout := mkRECORD 32 0 4.

(** ** Checksums *)

(** The loop of [CFG_checkSum]: [summ <<= 1; summ += d[i]] over the bytes [d]. *)
Fixpoint cfg_sum (d : list byte) (summ : Z) : Z :=
  match d with
  | [] => summ
  | b :: d' => cfg_sum d' (u32 (u32 (Z.shiftl summ 1) + byte.unsigned b))
  end.

(** The name loop of [TIP_checkSum]. *)
Fixpoint tip_name_sum (name : list byte) (summ : Z) : Z :=
  match name with
  | [] => summ
  | b :: name' => tip_name_sum name' (u32 (u32 (Z.shiftl summ 1) + byte.unsigned b))
  end.

Section Store.

Variable L : RECORD_layout.
Variable T : TIP_layout.

Definition get_ID (cfg : list byte) : Z := get_u32 (offsetof_ID L) cfg.
Definition get_crc (cfg : list byte) : Z := get_u32 (offsetof_crc L) cfg.

(** [CFG_checkSum(cfg, write)] on the memory [cfg] points to; returns the
    result and that memory as the call leaves it. *)
Definition CFG_checkSum (cfg : list byte) (write : bool) : bool * list byte :=
  let rec_summ := get_crc cfg in
  let cfg := set_u32 (offsetof_crc L) 0 cfg in
  let summ := cfg_sum (firstn (sizeof_RECORD L) cfg) 117 in
  let res := rec_summ =? summ in
  let cfg := if write then set_u32 (offsetof_crc L) summ cfg else cfg in
  (res, cfg).

(** [CFG_checkSum((RECORD* )data, write)] *)
Definition CFG_checkSum_data (write : bool) : M bool := fun s =>
  let (res, d) := CFG_checkSum (data s) write in (res, set_data d s).

(** [TIP_checkSum(tip, write)] for a [tip] that points [base] bytes into [mem]. *)
Definition TIP_checkSum (mem : list byte) (base : nat) (write : bool) : bool * list byte :=
  let summ := get_u16 (base + offsetof_t200 T) mem in
  let summ := u32 (u32 (Z.shiftl summ 1) + get_u16 (base + offsetof_t260 T) mem) in
  let summ := u32 (u32 (Z.shiftl summ 1) + get_u16 (base + offsetof_t330 T) mem) in
  let summ := u32 (u32 (Z.shiftl summ 1) + get_u16 (base + offsetof_t400 T) mem) in
  let summ := u32 (u32 (Z.shiftl summ 1) + get_u8 (base + offsetof_mask T) mem) in
  let summ := u32 (u32 (Z.shiftl summ 1) + get_i8 (base + offsetof_ambient T) mem) in
  let summ := tip_name_sum (firstn (tip_name_sz T) (skipn (base + offsetof_name T) mem)) summ in
  let summ := u32 (summ + 117) in
  let res := get_u8 (base + offsetof_tip_crc T) mem =? Z.land summ 0xFF in
  let mem := if write then set_u8 (base + offsetof_tip_crc T) (Z.land summ 0xFF) mem else mem in
  (res, mem).

(** ** The configuration log *)

Record scan : Type := mkScan {
  min_rec_ID : Z;
  min_rec_ch : Z;
  max_rec_ID : Z;
  max_rec_ch : Z;
  records    : Z
}.

Definition scan0 : scan := mkScan 0xffffffff 0 0 0 0.

(** Body of the scan loop for a chunk whose record passed the checksum. *)
Definition scan_record (chunk id : Z) (a : scan) : scan :=
  let a := mkScan (min_rec_ID a) (min_rec_ch a) (max_rec_ID a) (max_rec_ch a)
                  (u16 (records a + 1)) in
  let a := if min_rec_ID a >? id
           then mkScan id chunk (max_rec_ID a) (max_rec_ch a) (records a) else a in
  if max_rec_ID a <? id
  then mkScan (min_rec_ID a) (min_rec_ch a) id chunk (records a) else a.

(** [for (chunk = 0; chunk < cfg_chunks; ++chunk)] with its two [break]s. *)
Fixpoint init_loop (chunks : list Z) (a : scan) : M scan :=
  match chunks with
  | [] => ret a
  | chunk :: rest =>
      ok <- readChunk chunk ;;
      if ok then
        valid <- CFG_checkSum_data false ;;
        if valid then
          id <- gets (fun s => get_ID (data s)) ;;
          init_loop rest (scan_record chunk id a)
        else ret a
      else ret a
  end.

Definition chunk_range (n : Z) : list Z := map Z.of_nat (seq 0 (Z.to_nat n)).

Definition EEPROM_init : M unit :=
  a <- init_loop (chunk_range cfg_chunks) scan0 ;;
  if records a =? 0 then
    modify (set_r_chunk 0) ;;;
    modify (set_w_chunk 0) ;;;
    modify (set_can_write true)
  else
    modify (set_r_chunk (max_rec_ch a)) ;;;
    (if records a <? cfg_chunks then
       r <- gets r_chunk ;;
       modify (set_w_chunk (u16 (r + 1))) ;;;
       w <- gets w_chunk ;;
       if w >=? cfg_chunks then modify (set_w_chunk 0) else ret tt
     else
       modify (set_w_chunk (min_rec_ch a))) ;;;
    modify (set_can_write true).

(** [loadRecord(config_record)]: the result and the caller's record afterwards. *)
Definition loadRecord (config_record : list byte) : M (bool * list byte) :=
  r <- gets r_chunk ;;
  ok <- readChunk r ;;
  if ok then
    valid <- CFG_checkSum_data false ;;
    if valid then
      d <- gets data ;;
      ret (true, memcpy config_record d (sizeof_RECORD L))
    else ret (false, config_record)
  else ret (false, config_record).

(** [saveRecord(config_record)]: the result and the caller's record afterwards. *)
Definition saveRecord (config_record : list byte) : M (bool * list byte) :=
  cw <- gets can_write ;;
  if negb cw then ret (cw, config_record)
  else
    let config_record := set_u32 (offsetof_ID L) (get_ID config_record + 1) config_record in
    let config_record := snd (CFG_checkSum config_record true) in
    modify (fun s => set_data (memcpy (data s) config_record (sizeof_RECORD L)) s) ;;;
    w <- gets w_chunk ;;
    ok <- writeChunk w ;;
    if ok then
      modify (set_r_chunk w) ;;;
      modify (set_w_chunk (u16 (w + 1))) ;;;
      w' <- gets w_chunk ;;
      (if w' >=? cfg_chunks then modify (set_w_chunk 0) else ret tt) ;;;
      ret (true, config_record)
    else ret (false, config_record).

(** ** The tip table *)

Fixpoint requiredTipSpace_loop (fuel : nat) (i tip_sz : Z) : Z :=
  match fuel with
  | O => eeprom_chunk_size
  | S fuel' =>
      if i <=? eeprom_chunk_size then
        if i >=? tip_sz then i
        else requiredTipSpace_loop fuel' (Z.shiftl i 1) tip_sz
      else eeprom_chunk_size
  end.

(** Seven rounds reach [i = 64], where the loop condition ends the loop. *)
Definition requiredTipSpace : Z :=
  u16 (requiredTipSpace_loop 7 1 (u16 (Z.of_nat (sizeof_TIP T)))).

Definition tips_per_chunk : Z := u16 (Z.quot eeprom_chunk_size requiredTipSpace).

Definition tipDataTotal : Z := u16 (tip_chunks * tips_per_chunk).

Definition tip_chunk_of (tip_chunk_index : Z) : Z :=
  u16 (Z.quot tip_chunk_index tips_per_chunk + eeprom_chunks - tip_chunks).

Definition tip_offset_of (tip_chunk_index : Z) : Z :=
  u8 (Z.rem tip_chunk_index tips_per_chunk * requiredTipSpace).

Definition loadTipData (tip : list byte) (tip_chunk_index : Z) : M (TIP_IO_STATUS * list byte) :=
  if tip_chunk_index >? tip_chunks * tips_per_chunk then ret (EPR_INDEX, tip)
  else
    let tip_chunk := tip_chunk_of tip_chunk_index in
    let index := Z.to_nat (tip_offset_of tip_chunk_index) in
    ok <- readChunk tip_chunk ;;
    if ok then
      d <- gets data ;;
      if fst (TIP_checkSum d index false)
      then ret (EPR_OK, memcpy tip (skipn index d) (sizeof_TIP T))
      else ret (EPR_CHECKSUM, tip)
    else ret (EPR_IO, tip).

Definition saveTipData (tip : list byte) (tip_chunk_index : Z) : M TIP_IO_STATUS :=
  if tip_chunk_index >? tip_chunks * tips_per_chunk then ret EPR_INDEX
  else
    let tip_chunk := tip_chunk_of tip_chunk_index in
    let index := Z.to_nat (tip_offset_of tip_chunk_index) in
    ok <- readChunk tip_chunk ;;
    if ok then
      modify (fun s => set_data (memcpy_at index (data s) tip (sizeof_TIP T)) s) ;;;
      modify (fun s => set_data (snd (TIP_checkSum (data s) index true)) s) ;;;
      ok <- writeChunk tip_chunk ;;
      if ok then ret EPR_OK else ret EPR_IO
    else ret EPR_IO.

(** ** Bulk erase of the configuration area *)

Fixpoint clear_loop (idxs : list Z) : M unit :=
  match idxs with
  | [] => ret tt
  | i :: rest =>
      ok <- HAL_I2C_Mem_Write (u32 (i * eeprom_chunk_size)) ;;
      if ok then HAL_Delay 10 ;;; clear_loop rest
      else ret tt
  end.

Definition clearConfigArea : M unit :=
  modify (set_data (repeat Byte.xff (Z.to_nat eeprom_chunk_size))) ;;;
  clear_loop (chunk_range cfg_chunks) ;;;
  EEPROM_init.

(** ** Reachable states

    The states the module can be in: the reset state followed by any
    sequence of calls of the public functions, with any device content
    and any bus behaviour. *)

Definition eeprom_size : nat := Z.to_nat (eeprom_chunks * eeprom_chunk_size).

Inductive reachable : state -> Prop :=
| reach_boot dev b :
    length dev = eeprom_size -> reachable (boot dev b)
| reach_EEPROM_init s :
    reachable s -> reachable (snd (EEPROM_init s))
| reach_loadRecord s rec :
    reachable s -> length rec = sizeof_RECORD L ->
    reachable (snd (loadRecord rec s))
| reach_saveRecord s rec :
    reachable s -> length rec = sizeof_RECORD L ->
    reachable (snd (saveRecord rec s))
| reach_loadTipData s tip idx :
    reachable s -> length tip = sizeof_TIP T -> 0 <= idx < 2 ^ 8 ->
    reachable (snd (loadTipData tip idx s))
| reach_saveTipData s tip idx :
    reachable s -> length tip = sizeof_TIP T -> 0 <= idx < 2 ^ 8 ->
    reachable (snd (saveTipData tip idx s))
| reach_clearConfigArea s :
    reachable s -> reachable (snd (clearConfigArea s)).

(** The buffer is [uint8_t data[eeprom_chunk_size]] and the device holds
    [eeprom_chunks] chunks. *)
Definition wf_state (s : state) : Prop :=
  length (data s) = Z.to_nat eeprom_chunk_size /\
  length (eeprom s) = eeprom_size.

(** Content of chunk [c] on the device. *)
Definition device_chunk (c : Z) (s : state) : list byte :=
  mem_read (Z.to_nat (c * eeprom_chunk_size)) (Z.to_nat eeprom_chunk_size) (eeprom s).

(** The cache invariant in the words of the specification: whenever the
    cache is marked valid for a chunk of the device, the buffer equals the
    device's content of that chunk. *)
Definition cache_coherent (s : state) : Prop :=
  0 <= chunk_in_data s < eeprom_chunks ->
  data s = device_chunk (chunk_in_data s) s.

End Store.

(** ** Concrete devices and buses *)

Definition erased_device : list byte := repeat Byte.xff eeprom_size.
Definition good_bus : nat -> bool := fun _ => true.

(** ** Statements of the specification that the code does not satisfy *)


(** ** Invariants of the log pointers *)

(** What a function of the cache layer leaves alone. *)
Definition same_log (s s' : state) : Prop :=
  can_write s' = can_write s /\ r_chunk s' = r_chunk s /\
  w_chunk s' = w_chunk s /\ bus s' = bus s.

Definition ptrs_ok (s : state) : Prop :=
  0 <= r_chunk s < cfg_chunks /\ 0 <= w_chunk s < cfg_chunks.

Definition scan_ok (a : scan) : Prop :=
  0 <= min_rec_ch a < cfg_chunks /\ 0 <= max_rec_ch a < cfg_chunks.

(** The record as [saveRecord] stamps it: identifier incremented, checksum set. *)
Definition stamped (L : RECORD_layout) (rec : list byte) : list byte :=
  snd (CFG_checkSum L (set_u32 (offsetof_ID L) (get_ID L rec + 1) rec) true).

Definition wf_TIP (T : TIP_layout) : Prop :=
  (0 < sizeof_TIP T <= Z.to_nat eeprom_chunk_size)%nat /\
  (offsetof_t200 T + 2 <= sizeof_TIP T)%nat /\
  (offsetof_t260 T + 2 <= sizeof_TIP T)%nat /\
  (offsetof_t330 T + 2 <= sizeof_TIP T)%nat /\
  (offsetof_t400 T + 2 <= sizeof_TIP T)%nat /\
  (offsetof_mask T + 1 <= sizeof_TIP T)%nat /\
  (offsetof_ambient T + 1 <= sizeof_TIP T)%nat /\
  (offsetof_name T + tip_name_sz T <= sizeof_TIP T)%nat /\
  (offsetof_tip_crc T + 1 <= sizeof_TIP T)%nat.

(** Two records agree outside the identifier and checksum fields. *)
Definition same_payload (L : RECORD_layout) (a b : list byte) : Prop :=
  forall i : nat,
    (i < sizeof_RECORD L)%nat ->
    (i < offsetof_ID L \/ offsetof_ID L + 4 <= i)%nat ->
    (i < offsetof_crc L \/ offsetof_crc L + 4 <= i)%nat ->
    nth i a Byte.x00 = nth i b Byte.x00.

(** "[saveConfig(p)] followed immediately by [loadConfig()] returns a
    record equal to [p] with identifier incremented by exactly 1 relative
    to the previous stored identifier": the stored identifier is the one of
    the valid record at the read pointer before the save. *)
Definition round_trip_as_stated (L : RECORD_layout) (T : TIP_layout) : Prop :=
  forall (s : state) (p rec0 : list byte),
    reachable L T s ->
    length p = sizeof_RECORD L -> length rec0 = sizeof_RECORD L ->
    fst (CFG_checkSum L (device_chunk (r_chunk s) s) false) = true ->
    fst (fst (saveRecord L p s)) = true ->
    let r := loadRecord L rec0 (snd (saveRecord L p s)) in
    fst (fst r) = true /\
    same_payload L (snd (fst r)) p /\
    get_ID L (snd (fst r)) = get_ID L (device_chunk (r_chunk s) s) + 1.

(** The device with the byte at offset [i] of chunk [c] replaced by [b]. *)
Definition poke (c : Z) (i : nat) (b : byte) (s : state) : state :=
  set_eeprom (mem_write (Z.to_nat (c * eeprom_chunk_size) + i) [b] (eeprom s)) s.

(** "Flipping any single byte of a stored record's payload (not its
    checksum field) makes the next load report a failure": the load reads
    the device (the cache holds another chunk and the bus works). *)
Definition checksum_rejection_as_stated (L : RECORD_layout) (T : TIP_layout) : Prop :=
  forall (s : state) (rec0 : list byte) (i : nat) (b' : byte),
    reachable L T s ->
    chunk_in_data s <> r_chunk s ->
    bus s (transfers (trace s)) = true ->
    fst (CFG_checkSum L (device_chunk (r_chunk s) s) false) = true ->
    (i < sizeof_RECORD L)%nat ->
    (i < offsetof_crc L \/ offsetof_crc L + 4 <= i)%nat ->
    b' <> nth i (device_chunk (r_chunk s) s) Byte.x00 ->
    fst (fst (loadRecord L rec0 (poke (r_chunk s) i b' s))) = false.

(** A 32-byte record with identifier [id] and an all-zero payload. *)
Definition record_with_ID (id : Z) : list byte :=
  set_u32 (offsetof_ID RECORD32) id (repeat Byte.x00 (sizeof_RECORD RECORD32)).

(** An erased device after initialisation and one save of identifier 5. *)
Definition one_record_state : state :=
  snd (saveRecord RECORD32 (record_with_ID 4)
         (snd (EEPROM_init RECORD32 (boot erased_device good_bus)))).

(** The same device after a reset and the initialisation scan. *)
Definition one_record_rebooted : state :=
  snd (EEPROM_init RECORD32 (boot (eeprom one_record_state) good_bus)).

(** ** The initialisation scan, in the words of the specification *)

(** One visit: read the chunk through the cache and validate it; the
    identifier of the record when both succeed. *)
Definition visit (L : RECORD_layout) (c : Z) : M (option Z) :=
  ok <- readChunk c ;;
  if ok then
    valid <- CFG_checkSum_data L false ;;
    if valid then id <- gets (fun s => get_ID L (data s)) ;; ret (Some id)
    else ret None
  else ret None.

(** Visit the chunks in order and stop at the first one that fails to
    read or to validate: the identifiers of the valid prefix. *)
Fixpoint valid_prefix (L : RECORD_layout) (chunks : list Z) : M (list Z) :=
  match chunks with
  | [] => ret []
  | c :: rest =>
      v <- visit L c ;;
      match v with
      | Some id => ids <- valid_prefix L rest ;; ret (id :: ids)
      | None => ret []
      end
  end.

(** The loop body applied to the identifiers of chunks [k], [k+1], ... *)
Fixpoint scan_ids (k : nat) (ids : list Z) (a : scan) : scan :=
  match ids with
  | [] => a
  | id :: rest => scan_ids (S k) rest (scan_record (Z.of_nat k) id a)
  end.

(** What the loop has established after the identifiers [done]. *)
Definition scan_inv (done : list Z) (a : scan) : Prop :=
  records a = Z.of_nat (length done) /\
  (forall j, (j < length done)%nat -> nth j done 0 <= max_rec_ID a) /\
  (forall j, (j < length done)%nat -> min_rec_ID a <= nth j done 0) /\
  (max_rec_ID a = 0 /\ max_rec_ch a = 0 \/
   0 <= max_rec_ch a < Z.of_nat (length done) /\
   nth (Z.to_nat (max_rec_ch a)) done 0 = max_rec_ID a) /\
  (min_rec_ID a = 0xffffffff /\ min_rec_ch a = 0 \/
   0 <= min_rec_ch a < Z.of_nat (length done) /\
   nth (Z.to_nat (min_rec_ch a)) done 0 = min_rec_ID a).

(** ** A caller that saves repeatedly

    The caller keeps one [RECORD] variable, which [saveRecord] updates in
    place.  Before each save the caller may rewrite its content ([e]) but
    leaves the identifier field as the previous save left it. *)
Fixpoint save_all (L : RECORD_layout) (edits : list (list byte)) (cur : list byte)
  : M (bool * list byte) :=
  match edits with
  | [] => ret (true, cur)
  | e :: rest =>
      r <- saveRecord L (set_u32 (offsetof_ID L) (get_ID L cur) e) ;;
      if fst r then save_all L rest (snd r) else ret (false, snd r)
  end.

(** Sixty-four all-zero payloads. *)
Definition blank_edits : list (list byte) :=
  repeat (repeat Byte.x00 (sizeof_RECORD RECORD32)) (Z.to_nat cfg_chunks).

(** ** The wrap-around, in the words of the specification *)




(** ** Further notions used to describe the module *)

(** First byte of the tip area on the device. *)
Definition tip_area_base : Z := (eeprom_chunks - tip_chunks) * eeprom_chunk_size.

(** The checksum byte of a [TIP] lies outside the fields the checksum covers. *)
Definition tip_crc_apart (T : TIP_layout) : Prop :=
  let c := offsetof_tip_crc T in
  (c < offsetof_t200 T \/ offsetof_t200 T + 2 <= c)%nat /\
  (c < offsetof_t260 T \/ offsetof_t260 T + 2 <= c)%nat /\
  (c < offsetof_t330 T \/ offsetof_t330 T + 2 <= c)%nat /\
  (c < offsetof_t400 T \/ offsetof_t400 T + 2 <= c)%nat /\
  (c < offsetof_mask T \/ offsetof_mask T + 1 <= c)%nat /\
  (c < offsetof_ambient T \/ offsetof_ambient T + 1 <= c)%nat /\
  (c < offsetof_name T \/ offsetof_name T + tip_name_sz T <= c)%nat.

(** The accumulator of [TIP_checkSum] before it is cut to eight bits. *)
Definition tip_sum (T : TIP_layout) (mem : list byte) (base : nat) : Z :=
  let summ := get_u16 (base + offsetof_t200 T) mem in
  let summ := u32 (u32 (Z.shiftl summ 1) + get_u16 (base + offsetof_t260 T) mem) in
  let summ := u32 (u32 (Z.shiftl summ 1) + get_u16 (base + offsetof_t330 T) mem) in
  let summ := u32 (u32 (Z.shiftl summ 1) + get_u16 (base + offsetof_t400 T) mem) in
  let summ := u32 (u32 (Z.shiftl summ 1) + get_u8 (base + offsetof_mask T) mem) in
  let summ := u32 (u32 (Z.shiftl summ 1) + get_i8 (base + offsetof_ambient T) mem) in
  let summ := tip_name_sum (firstn (tip_name_sz T) (skipn (base + offsetof_name T) mem)) summ in
  u32 (summ + 117).

Definition is_write (e : io_event) : bool :=
  match e with I2C_Mem_Write _ _ _ => true | _ => false end.

(** Number of block writes in a trace. *)
Definition writes (t : list io_event) : nat := length (filter is_write t).

(** A step that neither changes the device nor addresses a write to it. *)
Definition device_kept (s s' : state) : Prop :=
  eeprom s' = eeprom s /\ writes (trace s') = writes (trace s) /\ bus s' = bus s.

(** Number of consecutive bus transactions that succeed, starting with the
    [t0]-th, among at most [n]. *)
Fixpoint leading_ok (b : nat -> bool) (t0 n : nat) : nat :=
  match n with
  | O => O
  | S n' => if b t0 then S (leading_ok b (S t0) n') else O
  end.

(** An erased chunk. *)
Definition blank_chunk : list byte := repeat Byte.xff (Z.to_nat eeprom_chunk_size).



(** A bus whose first transfer fails and whose later transfers complete. *)
Definition fails_first : nat -> bool := fun n => negb (Nat.eqb n 0).

(** * Properties *)

(** ** Memory *)

Lemma length_mem_write (addr : nat) (bs m : list byte) :
  (addr + length bs <= length m)%nat ->
  length (mem_write addr bs m) = length m.
Proof.
  intros H. unfold mem_write.
  rewrite !length_app, length_firstn, length_skipn. lia.
Qed.

Lemma nth_mem_write (addr : nat) (bs m : list byte) (i : nat) (d : byte) :
  (addr + length bs <= length m)%nat ->
  nth i (mem_write addr bs m) d =
  if ((addr <=? i) && (i <? addr + length bs))%nat then nth (i - addr) bs d else nth i m d.
Proof.
  intros H. unfold mem_write.
  assert (Hf : length (firstn addr m) = addr) by (rewrite length_firstn; lia).
  destruct (Nat.leb_spec addr i) as [Hle | Hlt]; simpl.
  - rewrite app_nth2 by lia. rewrite Hf.
    destruct (Nat.ltb_spec i (addr + length bs)) as [Hin | Hout].
    + apply app_nth1. lia.
    + rewrite app_nth2 by lia. rewrite nth_skipn. f_equal. lia.
  - rewrite app_nth1 by lia. rewrite nth_firstn.
    destruct (Nat.ltb_spec i addr); [reflexivity | lia].
Qed.

Lemma length_mem_read (addr len : nat) (m : list byte) :
  (addr + len <= length m)%nat -> length (mem_read addr len m) = len.
Proof.
  intros H. unfold mem_read. rewrite length_firstn, length_skipn. lia.
Qed.

Lemma nth_mem_read (addr len : nat) (m : list byte) (i : nat) (d : byte) :
  (i < len)%nat -> nth i (mem_read addr len m) d = nth (addr + i) m d.
Proof.
  intros H. unfold mem_read. rewrite nth_firstn, nth_skipn.
  destruct (Nat.ltb_spec i len); [reflexivity | lia].
Qed.

Lemma mem_read_write_same (addr : nat) (bs m : list byte) :
  (addr + length bs <= length m)%nat ->
  mem_read addr (length bs) (mem_write addr bs m) = bs.
Proof.
  intros H. apply nth_ext with (d := Byte.x00) (d' := Byte.x00).
  - apply length_mem_read. rewrite length_mem_write; lia.
  - intros i Hi. rewrite length_mem_read in Hi by (rewrite length_mem_write; lia).
    rewrite nth_mem_read by lia. rewrite nth_mem_write by lia.
    destruct (Nat.leb_spec addr (addr + i)); [| lia].
    destruct (Nat.ltb_spec (addr + i) (addr + length bs)); [| lia].
    simpl. f_equal. lia.
Qed.

Lemma mem_read_write_other (addr : nat) (bs m : list byte) (a len : nat) :
  (addr + length bs <= length m)%nat ->
  (a + len <= length m)%nat ->
  (a + len <= addr \/ addr + length bs <= a)%nat ->
  mem_read a len (mem_write addr bs m) = mem_read a len m.
Proof.
  intros H Ha Hd. apply nth_ext with (d := Byte.x00) (d' := Byte.x00).
  - rewrite !length_mem_read; rewrite ?length_mem_write; lia.
  - intros i Hi. rewrite length_mem_read in Hi by (rewrite length_mem_write; lia).
    rewrite !nth_mem_read by lia. rewrite nth_mem_write by lia.
    destruct (Nat.leb_spec addr (a + i)); simpl; [| reflexivity].
    destruct (Nat.ltb_spec (a + i) (addr + length bs)); [lia | reflexivity].
Qed.

Lemma mem_read_all (m : list byte) (len : nat) :
  length m = len -> mem_read 0 len m = m.
Proof. intros <-. unfold mem_read. simpl. apply firstn_all. Qed.

Lemma set_le_mem_write (w off : nat) (v : Z) (mem : list byte) :
  set_le w off v mem = mem_write off (le_split w v) mem.
Proof. unfold set_le, mem_write. rewrite length_le_split. reflexivity. Qed.

Lemma get_le_mem_read (w off : nat) (mem : list byte) :
  get_le w off mem = le_combine (mem_read off w mem).
Proof. reflexivity. Qed.

Lemma memcpy_at_mem_write (off : nat) (dst src : list byte) (n : nat) :
  (n <= length src)%nat ->
  memcpy_at off dst src n = mem_write off (firstn n src) dst.
Proof.
  intros H. unfold memcpy_at, mem_write. rewrite length_firstn.
  replace (Nat.min n (length src)) with n by lia. reflexivity.
Qed.

Lemma length_set_le (w off : nat) (v : Z) (mem : list byte) :
  (off + w <= length mem)%nat -> length (set_le w off v mem) = length mem.
Proof.
  intros H. rewrite set_le_mem_write. apply length_mem_write.
  rewrite length_le_split. exact H.
Qed.

Lemma get_set_le_same (w off : nat) (v : Z) (mem : list byte) :
  (off + w <= length mem)%nat ->
  get_le w off (set_le w off v mem) = v mod 2 ^ (Z.of_nat w * 8).
Proof.
  intros H. rewrite get_le_mem_read, set_le_mem_write.
  rewrite <- (length_le_split w v) at 1.
  rewrite mem_read_write_same by (rewrite length_le_split; exact H).
  apply le_combine_split.
Qed.

Lemma get_set_le_other (w off : nat) (v : Z) (mem : list byte) (w' off' : nat) :
  (off + w <= length mem)%nat ->
  (off' + w' <= length mem)%nat ->
  (off' + w' <= off \/ off + w <= off')%nat ->
  get_le w' off' (set_le w off v mem) = get_le w' off' mem.
Proof.
  intros H H' Hd. rewrite !get_le_mem_read, set_le_mem_write.
  rewrite mem_read_write_other; rewrite ?length_le_split; auto.
Qed.

Lemma nth_set_le_other (w off : nat) (v : Z) (mem : list byte) (i : nat) (d : byte) :
  (off + w <= length mem)%nat ->
  (i < off \/ off + w <= i)%nat ->
  nth i (set_le w off v mem) d = nth i mem d.
Proof.
  intros H Hi. rewrite set_le_mem_write, nth_mem_write by (rewrite length_le_split; exact H).
  rewrite length_le_split.
  destruct (Nat.leb_spec off i); simpl; [| reflexivity].
  destruct (Nat.ltb_spec i (off + w)); [lia | reflexivity].
Qed.

Lemma length_memcpy (dst src : list byte) (n : nat) :
  (n <= length src)%nat -> (n <= length dst)%nat ->
  length (memcpy dst src n) = length dst.
Proof.
  intros Hs Hd. unfold memcpy. rewrite memcpy_at_mem_write by exact Hs.
  apply length_mem_write. rewrite length_firstn. lia.
Qed.

Lemma firstn_memcpy (dst src : list byte) (n : nat) :
  (n <= length src)%nat -> firstn n (memcpy dst src n) = firstn n src.
Proof.
  intros Hs. unfold memcpy, memcpy_at. simpl.
  rewrite firstn_app, firstn_firstn.
  rewrite length_firstn.
  replace (Nat.min n n) with n by lia.
  replace (n - Nat.min n (length src))%nat with 0%nat by lia.
  simpl. apply app_nil_r.
Qed.

Lemma memcpy_whole (dst src : list byte) :
  length dst = length src -> memcpy dst src (length src) = src.
Proof.
  intros H. unfold memcpy, memcpy_at. simpl.
  rewrite firstn_all, <- H, skipn_all. apply app_nil_r.
Qed.

(** ** The chunk cache *)

Lemma readChunk_hit (c : Z) (s : state) :
  chunk_in_data s = c -> readChunk c s = (true, s).
Proof.
  intros H. unfold readChunk, bind, gets, ret. rewrite H, Z.eqb_refl. reflexivity.
Qed.

Lemma readChunk_out_of_range (c : Z) (s : state) :
  chunk_in_data s <> c -> eeprom_chunks <= c -> readChunk c s = (false, s).
Proof.
  intros Hne Hc. unfold readChunk, bind, gets, ret.
  destruct (Z.eqb_spec c (chunk_in_data s)); [congruence |].
  destruct (Z.geb_spec c eeprom_chunks); [reflexivity | lia].
Qed.

(** A miss on a chunk of the device issues one block read. *)
Lemma readChunk_miss (c : Z) (s : state) :
  chunk_in_data s <> c -> c < eeprom_chunks ->
  readChunk c s =
  let ok := bus s (transfers (trace s)) in
  let s1 := log_event (I2C_Mem_Read 160 (u16 (c * eeprom_chunk_size)) ok) s in
  if ok
  then (true, set_chunk_in_data c
                (set_data (mem_read (Z.to_nat (u16 (c * eeprom_chunk_size)))
                                    (Z.to_nat eeprom_chunk_size) (eeprom s)) s1))
  else (false, s1).
Proof.
  intros Hne Hc. unfold readChunk, bind, gets, ret, modify, HAL_I2C_Mem_Read.
  destruct (Z.eqb_spec c (chunk_in_data s)); [congruence |].
  destruct (Z.geb_spec c eeprom_chunks); [lia |].
  cbv zeta. destruct (bus s (transfers (trace s))); reflexivity.
Qed.

Lemma writeChunk_out_of_range (c : Z) (s : state) :
  eeprom_chunks <= c -> writeChunk c s = (false, s).
Proof.
  intros Hc. unfold writeChunk, ret.
  destruct (Z.geb_spec c eeprom_chunks); [reflexivity | lia].
Qed.

Lemma writeChunk_in_range (c : Z) (s : state) :
  c < eeprom_chunks ->
  writeChunk c s =
  let ok := bus s (transfers (trace s)) in
  let s1 := log_event (I2C_Mem_Write 160 (u16 (c * eeprom_chunk_size)) ok)
                      (set_chunk_in_data eeprom_chunks s) in
  if ok
  then (true, log_event (Delay 20)
                (set_chunk_in_data c
                   (set_eeprom (mem_write (Z.to_nat (u16 (c * eeprom_chunk_size)))
                                          (firstn (Z.to_nat eeprom_chunk_size) (data s))
                                          (eeprom s)) s1)))
  else (false, log_event (Delay 20) s1).
Proof.
  intros Hc. unfold writeChunk, bind, ret, modify, HAL_I2C_Mem_Write, HAL_Delay.
  destruct (Z.geb_spec c eeprom_chunks); [lia |].
  unfold transfers. cbn. destruct (bus s _); reflexivity.
Qed.

(** A successful read leaves the cache marked for the chunk read. *)
Lemma readChunk_true (c : Z) (s : state) :
  fst (readChunk c s) = true -> chunk_in_data (snd (readChunk c s)) = c.
Proof.
  intros H. destruct (Z.eq_dec (chunk_in_data s) c) as [He | Hne].
  - rewrite readChunk_hit by exact He. exact He.
  - destruct (Z_lt_le_dec c eeprom_chunks) as [Hc | Hc].
    + rewrite readChunk_miss in * by assumption. cbv zeta in *.
      destruct (bus s (transfers (trace s))); [reflexivity | discriminate].
    + rewrite readChunk_out_of_range in H by assumption. discriminate.
Qed.


(** A failed write of a chunk of the device leaves the sentinel behind. *)
Lemma writeChunk_false (c : Z) (s : state) :
  c < eeprom_chunks -> fst (writeChunk c s) = false ->
  chunk_in_data (snd (writeChunk c s)) = eeprom_chunks /\
  data (snd (writeChunk c s)) = data s /\
  eeprom (snd (writeChunk c s)) = eeprom s.
Proof.
  intros Hc H. rewrite writeChunk_in_range in * by exact Hc. cbv zeta in *.
  destruct (bus s (transfers (trace s))); [discriminate |].
  repeat split.
Qed.

(** ** Slot arithmetic of the tip table *)

Lemma requiredTipSpace_cases (T : TIP_layout) :
  In (requiredTipSpace T) [1; 2; 4; 8; 16; 32].
Proof.
  unfold requiredTipSpace, requiredTipSpace_loop.
  generalize (u16 (Z.of_nat (sizeof_TIP T))). intros sz.
  change (1 <=? eeprom_chunk_size) with true. cbv iota.
  repeat match goal with
         | |- context [?a >=? sz] => destruct (a >=? sz); [cbn; tauto |]
         end.
  cbn. tauto.
Qed.

Lemma tips_per_chunk_cases (T : TIP_layout) :
  In (tips_per_chunk T) [32; 16; 8; 4; 2; 1].
Proof.
  unfold tips_per_chunk.
  pose proof (requiredTipSpace_cases T) as H. cbn in H.
  repeat (destruct H as [H | H]; [rewrite <- H; cbn; tauto |]).
  contradiction.
Qed.

Lemma tipDataTotal_eq (T : TIP_layout) :
  tipDataTotal T = tip_chunks * tips_per_chunk T.
Proof.
  unfold tipDataTotal.
  pose proof (tips_per_chunk_cases T) as H. cbn in H.
  repeat (destruct H as [H | H]; [rewrite <- H; reflexivity |]).
  contradiction.
Qed.

Lemma tip_chunk_of_total (T : TIP_layout) :
  tip_chunk_of T (tipDataTotal T) = eeprom_chunks.
Proof.
  rewrite tipDataTotal_eq. unfold tip_chunk_of.
  pose proof (tips_per_chunk_cases T) as H. cbn in H.
  repeat (destruct H as [H | H]; [rewrite <- H; reflexivity |]).
  contradiction.
Qed.

(** ** The index check of the tip table *)

Lemma loadTipData_index (T : TIP_layout) (tip : list byte) (idx : Z) (s : state) :
  (fst (fst (loadTipData T tip idx s)) = EPR_INDEX <-> tipDataTotal T < idx) /\
  (tipDataTotal T < idx -> snd (loadTipData T tip idx s) = s).
Proof.
  rewrite tipDataTotal_eq. unfold loadTipData, bind, gets, ret.
  destruct (Z.gtb_spec idx (tip_chunks * tips_per_chunk T)) as [Hgt | Hle].
  - cbn [fst snd]. split; [split; [lia | reflexivity] | reflexivity].
  - split; [| lia].
    destruct (readChunk _ s) as [[] s1]; cbn [fst snd].
    + match goal with
      | |- context [fst (TIP_checkSum ?a ?b ?c ?d)] => destruct (fst (TIP_checkSum a b c d))
      end; cbn [fst snd]; split; (discriminate || lia).
    + split; (discriminate || lia).
Qed.

Lemma saveTipData_index (T : TIP_layout) (tip : list byte) (idx : Z) (s : state) :
  (fst (saveTipData T tip idx s) = EPR_INDEX <-> tipDataTotal T < idx) /\
  (tipDataTotal T < idx -> snd (saveTipData T tip idx s) = s).
Proof.
  rewrite tipDataTotal_eq. unfold saveTipData, bind, gets, ret, modify.
  destruct (Z.gtb_spec idx (tip_chunks * tips_per_chunk T)) as [Hgt | Hle].
  - cbn [fst snd]. split; [split; [lia | reflexivity] | reflexivity].
  - split; [| lia].
    destruct (readChunk _ s) as [[] s1]; cbn [fst snd].
    + destruct (writeChunk _ _) as [[] s2]; cbn [fst snd]; split; (discriminate || lia).
    + split; (discriminate || lia).
Qed.

(** The check is exact except at the slot count itself. *)
Lemma tip_index_check (T : TIP_layout) (tip : list byte) (idx : Z) (s : state) :
  (fst (fst (loadTipData T tip idx s)) = EPR_INDEX <-> tipDataTotal T < idx) /\
  (fst (saveTipData T tip idx s) = EPR_INDEX <-> tipDataTotal T < idx).
Proof.
  split; [apply loadTipData_index | apply saveTipData_index].
Qed.

(** A slot index equal to the slot count addresses chunk [eeprom_chunks],
    which only the cache can serve. *)
Lemma loadTipData_total (T : TIP_layout) (tip : list byte) (s : state) :
  loadTipData T tip (tipDataTotal T) s =
  if chunk_in_data s =? eeprom_chunks then
    if fst (TIP_checkSum T (data s) (Z.to_nat (tip_offset_of T (tipDataTotal T))) false)
    then (EPR_OK, memcpy tip (skipn (Z.to_nat (tip_offset_of T (tipDataTotal T))) (data s))
                         (sizeof_TIP T), s)
    else (EPR_CHECKSUM, tip, s)
  else (EPR_IO, tip, s).
Proof.
  unfold loadTipData. rewrite tip_chunk_of_total.
  rewrite <- tipDataTotal_eq.
  destruct (Z.gtb_spec (tipDataTotal T) (tipDataTotal T)); [lia |].
  unfold bind, gets, ret.
  destruct (Z.eqb_spec (chunk_in_data s) eeprom_chunks) as [He | Hne].
  - rewrite readChunk_hit by exact He.
    destruct (fst (TIP_checkSum T (data s) _ false)); reflexivity.
  - rewrite readChunk_out_of_range by (assumption || lia). reflexivity.
Qed.

Lemma saveTipData_total (T : TIP_layout) (tip : list byte) (s : state) :
  saveTipData T tip (tipDataTotal T) s =
  if chunk_in_data s =? eeprom_chunks then
    let index := Z.to_nat (tip_offset_of T (tipDataTotal T)) in
    (EPR_IO, set_data (snd (TIP_checkSum T (memcpy_at index (data s) tip (sizeof_TIP T))
                                         index true)) s)
  else (EPR_IO, s).
Proof.
  unfold saveTipData. rewrite tip_chunk_of_total.
  rewrite <- tipDataTotal_eq.
  destruct (Z.gtb_spec (tipDataTotal T) (tipDataTotal T)); [lia |].
  unfold bind, gets, ret, modify.
  destruct (Z.eqb_spec (chunk_in_data s) eeprom_chunks) as [He | Hne].
  - rewrite readChunk_hit by exact He.
    rewrite writeChunk_out_of_range by lia. reflexivity.
  - rewrite readChunk_out_of_range by (assumption || lia). reflexivity.
Qed.

(** C1. The slot count of the 16-byte tip record is 128, so slot index 128
    lies outside [0, totalSlots); yet neither [loadTipData] nor
    [saveTipData] reports [EPR_INDEX] for it: the check is
    [tip_chunk_index > tip_chunks * tips_per_chunk].  With the cache not
    marked for chunk 128 both report an I/O error without any bus
    transaction; every larger index is rejected with [EPR_INDEX]. *)
Theorem C1_slot_count_passes_index_check :
  tipDataTotal TIP16 = 128 /\
  forall (s : state) (tip : list byte),
    fst (fst (loadTipData TIP16 tip 128 s)) <> EPR_INDEX /\
    fst (saveTipData TIP16 tip 128 s) <> EPR_INDEX /\
    (chunk_in_data s <> 128 ->
     loadTipData TIP16 tip 128 s = (EPR_IO, tip, s) /\
     saveTipData TIP16 tip 128 s = (EPR_IO, s)) /\
    (forall idx, 128 < idx ->
     loadTipData TIP16 tip idx s = (EPR_INDEX, tip, s) /\
     saveTipData TIP16 tip idx s = (EPR_INDEX, s)).
Proof.
  split; [reflexivity |].
  intros s tip.
  pose proof (loadTipData_total TIP16 tip s) as Hl.
  pose proof (saveTipData_total TIP16 tip s) as Hs.
  change (tipDataTotal TIP16) with 128 in Hl, Hs.
  repeat split.
  - rewrite Hl. destruct (chunk_in_data s =? eeprom_chunks); [| discriminate].
    destruct (fst (TIP_checkSum TIP16 (data s) _ false)); discriminate.
  - rewrite Hs. destruct (chunk_in_data s =? eeprom_chunks); discriminate.
  - rewrite Hl. destruct (Z.eqb_spec (chunk_in_data s) eeprom_chunks) as [He | Hne];
      [unfold eeprom_chunks in He; congruence | reflexivity].
  - rewrite Hs. destruct (Z.eqb_spec (chunk_in_data s) eeprom_chunks) as [He | Hne];
      [unfold eeprom_chunks in He; congruence | reflexivity].
  - unfold loadTipData. change (tip_chunks * tips_per_chunk TIP16) with 128.
    destruct (Z.gtb_spec idx 128); [reflexivity | lia].
  - unfold saveTipData. change (tip_chunks * tips_per_chunk TIP16) with 128.
    destruct (Z.gtb_spec idx 128); [reflexivity | lia].
Qed.

(** ** Cache-hit accounting *)




(** ** The sentinel left by a failed write *)

(** C10. A failed [writeChunk] leaves [chunk_in_data] at the sentinel
    [eeprom_chunks] = 128: a write of a chunk of the device that fails on
    the bus sets it, and a write refused by the bounds check changes
    nothing, which in this module happens only with the sentinel already
    in place ([saveTipData] writes the chunk it has just read).
    [readChunk 128] then succeeds on the equality test, before the bounds
    check, with the buffer as the failed write left it and without any bus
    transaction.  The slot index equal to the slot count passes the index
    check and maps to chunk 128, so [loadTipData] answers from the stale
    buffer and [saveTipData] overwrites part of it, both without touching
    the bus. *)
Theorem C10_sentinel_read_hits_stale_buffer
    (T : TIP_layout) (s : state) (c : Z) (tip : list byte) :
  c < eeprom_chunks \/ chunk_in_data s = eeprom_chunks ->
  fst (writeChunk c s) = false ->
  tipDataTotal T < 2 ^ 8 ->
  let s' := snd (writeChunk c s) in
  eeprom_chunks = 128 /\
  chunk_in_data s' = eeprom_chunks /\
  data s' = data s /\
  readChunk 128 s' = (true, s') /\
  0 <= tipDataTotal T /\
  tip_chunk_of T (tipDataTotal T) = 128 /\
  (let r := loadTipData T tip (tipDataTotal T) s' in
   snd r = s' /\ (fst (fst r) = EPR_OK \/ fst (fst r) = EPR_CHECKSUM)) /\
  (let r := saveTipData T tip (tipDataTotal T) s' in
   fst r = EPR_IO /\ trace (snd r) = trace s' /\ eeprom (snd r) = eeprom s').
Proof.
  intros Hc Hf _ s'.
  assert (Hs' : chunk_in_data s' = eeprom_chunks /\ data s' = data s).
  { subst s'. destruct (Z_lt_le_dec c eeprom_chunks) as [Hlt | Hge].
    - destruct (writeChunk_false c s Hlt Hf) as (H1 & H2 & _). split; assumption.
    - rewrite writeChunk_out_of_range by exact Hge. cbn [snd].
      destruct Hc as [Hc | Hc]; [lia | split; [exact Hc | reflexivity]]. }
  destruct Hs' as [Hcid Hdata].
  split; [reflexivity |].
  split; [exact Hcid |].
  split; [exact Hdata |].
  split; [apply readChunk_hit; exact Hcid |].
  split; [apply Z.mod_pos_bound; reflexivity |].
  split; [apply tip_chunk_of_total |].
  split.
  - cbv zeta. rewrite loadTipData_total, Hcid, Z.eqb_refl.
    destruct (fst (TIP_checkSum T (data s') _ false)); cbn; auto.
  - cbv zeta. rewrite saveTipData_total, Hcid, Z.eqb_refl. cbn. auto.
Qed.

Lemma C10_sentinel_read_hits_stale_buffer_witness :
  let s' := snd (writeChunk 5 (boot erased_device (fun _ => false))) in
  eeprom_chunks = 128 /\
  chunk_in_data s' = eeprom_chunks /\
  data s' = data (boot erased_device (fun _ => false)) /\
  readChunk 128 s' = (true, s') /\
  0 <= tipDataTotal TIP16 /\
  tip_chunk_of TIP16 (tipDataTotal TIP16) = 128 /\
  (let r := loadTipData TIP16 (repeat Byte.x00 16) (tipDataTotal TIP16) s' in
   snd r = s' /\ (fst (fst r) = EPR_OK \/ fst (fst r) = EPR_CHECKSUM)) /\
  (let r := saveTipData TIP16 (repeat Byte.x00 16) (tipDataTotal TIP16) s' in
   fst r = EPR_IO /\ trace (snd r) = trace s' /\ eeprom (snd r) = eeprom s').
Proof.
  apply (C10_sentinel_read_hits_stale_buffer TIP16
           (boot erased_device (fun _ => false)) 5 (repeat Byte.x00 16)).
  - left. reflexivity.
  - reflexivity.
  - reflexivity.
Defined.

(** ** The log pointers *)

Lemma same_log_refl (s : state) : same_log s s.
Proof. repeat split. Qed.

Lemma same_log_trans (s1 s2 s3 : state) :
  same_log s1 s2 -> same_log s2 s3 -> same_log s1 s3.
Proof. unfold same_log. intuition congruence. Qed.

Lemma readChunk_same_log (c : Z) (s : state) : same_log s (snd (readChunk c s)).
Proof.
  destruct (Z.eq_dec (chunk_in_data s) c) as [He | Hne].
  - rewrite readChunk_hit by exact He. apply same_log_refl.
  - destruct (Z_lt_le_dec c eeprom_chunks) as [Hc | Hc].
    + rewrite readChunk_miss by assumption. cbv zeta.
      destruct (bus s (transfers (trace s))); repeat split.
    + rewrite readChunk_out_of_range by assumption. apply same_log_refl.
Qed.

Lemma writeChunk_same_log (c : Z) (s : state) : same_log s (snd (writeChunk c s)).
Proof.
  destruct (Z_lt_le_dec c eeprom_chunks) as [Hc | Hc].
  - rewrite writeChunk_in_range by assumption. cbv zeta.
    destruct (bus s (transfers (trace s))); repeat split.
  - rewrite writeChunk_out_of_range by assumption. apply same_log_refl.
Qed.

Lemma CFG_checkSum_data_same_log (L : RECORD_layout) (w : bool) (s : state) :
  same_log s (snd (CFG_checkSum_data L w s)).
Proof.
  unfold CFG_checkSum_data. destruct (CFG_checkSum L (data s) w). repeat split.
Qed.

Lemma scan_record_ok (L : RECORD_layout) (chunk id : Z) (a : scan) :
  0 <= chunk < cfg_chunks -> scan_ok a -> scan_ok (scan_record chunk id a).
Proof.
  unfold scan_ok, scan_record. intros Hc [Hmin Hmax]. cbn.
  destruct (min_rec_ID a >? id); cbn;
    destruct (_ <? id); cbn; auto.
Qed.

Lemma init_loop_ok (L : RECORD_layout) (chunks : list Z) :
  Forall (fun c => 0 <= c < cfg_chunks) chunks ->
  forall (a : scan) (s : state),
    scan_ok a -> scan_ok (fst (init_loop L chunks a s)).
Proof.
  induction 1 as [| chunk rest Hc _ IH]; intros a s Ha; cbn [init_loop].
  - exact Ha.
  - unfold bind, gets, ret.
    destruct (readChunk chunk s) as [[] s1]; [| exact Ha].
    destruct (CFG_checkSum_data L false s1) as [[] s2]; [| exact Ha].
    apply IH, scan_record_ok; assumption.
Qed.

Lemma chunk_range_bounds (n : Z) :
  Forall (fun c => 0 <= c < n) (chunk_range n).
Proof.
  unfold chunk_range. apply Forall_forall. intros c Hin.
  apply in_map_iff in Hin. destruct Hin as (k & <- & Hk).
  apply in_seq in Hk. lia.
Qed.

Lemma EEPROM_init_ptrs (L : RECORD_layout) (s : state) :
  ptrs_ok (snd (EEPROM_init L s)) /\ can_write (snd (EEPROM_init L s)) = true.
Proof.
  unfold EEPROM_init, bind, gets, ret, modify.
  pose proof (init_loop_ok L _ (chunk_range_bounds cfg_chunks) scan0 s) as Hok.
  destruct (init_loop L (chunk_range cfg_chunks) scan0 s) as [a s1].
  cbn [fst] in Hok.
  assert (Ha : scan_ok a) by (apply Hok; unfold scan_ok, cfg_chunks; cbn; lia).
  destruct Ha as [Hmin Hmax]. unfold cfg_chunks in *.
  destruct (records a =? 0).
  - cbn. unfold ptrs_ok, cfg_chunks. cbn. lia.
  - destruct (records a <? 64); cbn.
    + unfold u16. rewrite Z.mod_small by lia.
      destruct (Z.geb_spec (max_rec_ch a + 1) 64); cbn;
        unfold ptrs_ok, cfg_chunks; cbn; lia.
    + unfold ptrs_ok, cfg_chunks. cbn. lia.
Qed.

Lemma loadRecord_same_log (L : RECORD_layout) (rec : list byte) (s : state) :
  same_log s (snd (loadRecord L rec s)).
Proof.
  unfold loadRecord, bind, gets, ret.
  pose proof (readChunk_same_log (r_chunk s) s) as H1.
  destruct (readChunk (r_chunk s) s) as [[] s1]; cbn [snd] in *; [| exact H1].
  pose proof (CFG_checkSum_data_same_log L false s1) as H2.
  destruct (CFG_checkSum_data L false s1) as [[] s2]; cbn [snd] in *;
    eapply same_log_trans; eassumption.
Qed.

Lemma loadTipData_same_log (T : TIP_layout) (tip : list byte) (idx : Z) (s : state) :
  same_log s (snd (loadTipData T tip idx s)).
Proof.
  unfold loadTipData, bind, gets, ret.
  destruct (idx >? _); [apply same_log_refl |].
  pose proof (readChunk_same_log (tip_chunk_of T idx) s) as H1.
  destruct (readChunk (tip_chunk_of T idx) s) as [[] s1]; cbn [snd] in *; [| exact H1].
  match goal with
  | |- context [fst (TIP_checkSum ?a ?b ?c ?d)] => destruct (fst (TIP_checkSum a b c d))
  end; exact H1.
Qed.

Lemma saveTipData_same_log (T : TIP_layout) (tip : list byte) (idx : Z) (s : state) :
  same_log s (snd (saveTipData T tip idx s)).
Proof.
  unfold saveTipData, bind, gets, ret, modify.
  destruct (idx >? _); [apply same_log_refl |].
  pose proof (readChunk_same_log (tip_chunk_of T idx) s) as H1.
  destruct (readChunk (tip_chunk_of T idx) s) as [[] s1]; cbn [snd] in *; [| exact H1].
  match goal with
  | |- context [writeChunk ?c ?st] =>
      pose proof (writeChunk_same_log c st) as H2; destruct (writeChunk c st) as [[] s2]
  end; cbn [snd] in *; (eapply same_log_trans; [exact H1 |]);
    (eapply same_log_trans; [| exact H2]); repeat split.
Qed.

(** The body of [saveRecord] once the write is allowed. *)
Lemma saveRecord_writable (L : RECORD_layout) (rec : list byte) (s : state) :
  can_write s = true ->
  saveRecord L rec s =
  let rec' := snd (CFG_checkSum L (set_u32 (offsetof_ID L) (get_ID L rec + 1) rec) true) in
  let s0 := set_data (memcpy (data s) rec' (sizeof_RECORD L)) s in
  let (ok, s1) := writeChunk (w_chunk s) s0 in
  if ok
  then (true, rec',
        (if u16 (w_chunk s + 1) >=? cfg_chunks
         then set_w_chunk 0 else fun s => s)
          (set_w_chunk (u16 (w_chunk s + 1)) (set_r_chunk (w_chunk s) s1)))
  else (false, rec', s1).
Proof.
  intros Hcw. unfold saveRecord, bind, gets, ret, modify. rewrite Hcw. cbn [negb].
  cbv zeta. cbn [w_chunk set_data].
  destruct (writeChunk (w_chunk s) _) as [[] s1]; [| reflexivity].
  cbn [w_chunk set_w_chunk set_r_chunk].
  destruct (u16 (w_chunk s + 1) >=? cfg_chunks); reflexivity.
Qed.

Lemma saveRecord_not_writable (L : RECORD_layout) (rec : list byte) (s : state) :
  can_write s = false -> saveRecord L rec s = (false, rec, s).
Proof.
  intros Hcw. unfold saveRecord, bind, gets, ret. rewrite Hcw. reflexivity.
Qed.

Lemma saveRecord_ptrs (L : RECORD_layout) (rec : list byte) (s : state) :
  ptrs_ok s -> ptrs_ok (snd (saveRecord L rec s)).
Proof.
  intros Hp. destruct (can_write s) eqn:Hcw.
  - rewrite saveRecord_writable by exact Hcw. cbv zeta.
    match goal with
    | |- context [writeChunk ?c ?st] =>
        pose proof (writeChunk_same_log c st) as H2; destruct (writeChunk c st) as [[] s1]
    end; destruct H2 as (_ & Hr & Hw & _); cbn in Hr, Hw; cbn [snd].
    + destruct Hp as [_ Hw0]. unfold cfg_chunks in *.
      unfold u16. rewrite Z.mod_small by lia.
      destruct (Z.geb_spec (w_chunk s + 1) 64); unfold ptrs_ok, cfg_chunks; cbn; lia.
    + unfold ptrs_ok in *. rewrite Hr, Hw. exact Hp.
  - rewrite saveRecord_not_writable by exact Hcw. exact Hp.
Qed.

(** In every reachable state both pointers lie in the configuration area. *)
Lemma reachable_ptrs (L : RECORD_layout) (T : TIP_layout) (s : state) :
  reachable L T s -> ptrs_ok s.
Proof.
  induction 1 as [dev b Hd | s _ IH | s rec _ IH Hl | s rec _ IH Hl
                 | s tip idx _ IH Hl Hi | s tip idx _ IH Hl Hi | s _ IH].
  - unfold ptrs_ok, cfg_chunks. cbn. lia.
  - apply EEPROM_init_ptrs.
  - destruct (loadRecord_same_log L rec s) as (_ & Hr & Hw & _).
    unfold ptrs_ok in *. rewrite Hr, Hw. exact IH.
  - apply saveRecord_ptrs, IH.
  - destruct (loadTipData_same_log T tip idx s) as (_ & Hr & Hw & _).
    unfold ptrs_ok in *. rewrite Hr, Hw. exact IH.
  - destruct (saveTipData_same_log T tip idx s) as (_ & Hr & Hw & _).
    unfold ptrs_ok in *. rewrite Hr, Hw. exact IH.
  - unfold clearConfigArea, bind, modify.
    destruct (clear_loop _ _) as [[] s1]. apply EEPROM_init_ptrs.
Qed.

(** C5. For a [saveRecord] call in any reachable state: with the writable
    flag false the call returns false and changes nothing (state, device,
    trace and the caller's record); otherwise its result is the outcome of
    the bus write of chunk [w_chunk]; when that write fails both pointers
    keep their values; when it succeeds the read pointer becomes the old
    write pointer and the write pointer advances by one modulo
    [cfg_chunks]. *)
Theorem C5_saveRecord_pointers
    (L : RECORD_layout) (T : TIP_layout) (s : state) (rec : list byte) :
  reachable L T s ->
  let r := saveRecord L rec s in
  (can_write s = false -> r = (false, rec, s)) /\
  (can_write s = true -> fst (fst r) = bus s (transfers (trace s))) /\
  (can_write s = true -> fst (fst r) = false ->
   r_chunk (snd r) = r_chunk s /\ w_chunk (snd r) = w_chunk s) /\
  (fst (fst r) = true ->
   r_chunk (snd r) = w_chunk s /\ w_chunk (snd r) = (w_chunk s + 1) mod cfg_chunks).
Proof.
  intros Hreach r. subst r.
  destruct (reachable_ptrs L T s Hreach) as [_ Hw].
  destruct (can_write s) eqn:Hcw.
  - split; [discriminate |].
    rewrite saveRecord_writable by exact Hcw. cbv zeta.
    rewrite writeChunk_in_range by (unfold cfg_chunks, eeprom_chunks in *; lia).
    cbv zeta. cbn [bus trace set_data].
    destruct (bus s (transfers (trace s))); cbn [fst snd].
    + split; [reflexivity |]. split; [discriminate |]. intros _.
      unfold cfg_chunks in *. unfold u16. rewrite (Z.mod_small (w_chunk s + 1)) by lia.
      destruct (Z.geb_spec (w_chunk s + 1) 64) as [Hge | Hlt]; cbn.
      * split; [reflexivity |].
        replace (w_chunk s + 1) with 64 by lia. reflexivity.
      * split; [reflexivity |]. symmetry. apply Z.mod_small. lia.
    + split; [reflexivity |]. split; [| discriminate]. intros _ _. split; reflexivity.
  - rewrite saveRecord_not_writable by exact Hcw. cbn [fst snd].
    split; [reflexivity |]. split; [discriminate |]. split; discriminate.
Qed.

Lemma C5_saveRecord_pointers_witness :
  let s := snd (EEPROM_init RECORD32 (boot erased_device good_bus)) in
  let r := saveRecord RECORD32 (repeat Byte.x00 32) s in
  (can_write s = false -> r = (false, repeat Byte.x00 32, s)) /\
  (can_write s = true -> fst (fst r) = bus s (transfers (trace s))) /\
  (can_write s = true -> fst (fst r) = false ->
   r_chunk (snd r) = r_chunk s /\ w_chunk (snd r) = w_chunk s) /\
  (fst (fst r) = true ->
   r_chunk (snd r) = w_chunk s /\ w_chunk (snd r) = (w_chunk s + 1) mod cfg_chunks).
Proof.
  apply (C5_saveRecord_pointers RECORD32 TIP16
           (snd (EEPROM_init RECORD32 (boot erased_device good_bus)))
           (repeat Byte.x00 32)).
  apply reach_EEPROM_init, reach_boot. reflexivity.
Defined.

(** ** Fields of a record inside a larger block *)

Lemma set_le_set_le (w off : nat) (v v' : Z) (mem : list byte) :
  (off + w <= length mem)%nat ->
  set_le w off v (set_le w off v' mem) = set_le w off v mem.
Proof.
  intros H. rewrite !set_le_mem_write.
  assert (Hl : forall x, length (mem_write off (le_split w x) mem) = length mem)
    by (intros x; apply length_mem_write; rewrite length_le_split; exact H).
  apply nth_ext with (d := Byte.x00) (d' := Byte.x00).
  - rewrite length_mem_write by (rewrite length_le_split, Hl; exact H).
    rewrite !Hl. reflexivity.
  - intros i _.
    rewrite !nth_mem_write; rewrite ?length_le_split, ?Hl; try exact H.
    destruct ((off <=? i)%nat && (i <? off + w)%nat); reflexivity.
Qed.

Lemma get_le_app_l (w off : nat) (a t : list byte) :
  (off + w <= length a)%nat -> get_le w off (a ++ t) = get_le w off a.
Proof.
  intros H. unfold get_le. f_equal.
  rewrite skipn_app, firstn_app, length_skipn.
  replace (w - (length a - off))%nat with 0%nat by lia.
  cbn [firstn]. apply app_nil_r.
Qed.

Lemma set_le_app_l (w off : nat) (v : Z) (a t : list byte) :
  (off + w <= length a)%nat -> set_le w off v (a ++ t) = set_le w off v a ++ t.
Proof.
  intros H. unfold set_le.
  rewrite firstn_app, skipn_app.
  replace (off - length a)%nat with 0%nat by lia.
  replace (off + w - length a)%nat with 0%nat by lia.
  cbn [firstn skipn]. rewrite app_nil_r, <- !app_assoc. reflexivity.
Qed.

Lemma firstn_app_exact {A} (a t : list A) (n : nat) :
  length a = n -> firstn n (a ++ t) = a.
Proof.
  intros <-. rewrite firstn_app, Nat.sub_diag, firstn_all. cbn. apply app_nil_r.
Qed.

Lemma skipn_app_exact {A} (a t : list A) (n : nat) :
  length a = n -> skipn n (a ++ t) = t.
Proof.
  intros <-. rewrite skipn_app, Nat.sub_diag, skipn_all. reflexivity.
Qed.

Lemma memcpy_exact (dst src : list byte) (n : nat) :
  length src = n -> memcpy dst src n = src ++ skipn n dst.
Proof.
  intros <-. unfold memcpy, memcpy_at. cbn. rewrite firstn_all. reflexivity.
Qed.

(** ** The configuration checksum *)

Lemma u32_range (z : Z) : 0 <= u32 z < 2 ^ 32.
Proof. apply Z.mod_pos_bound. reflexivity. Qed.

Lemma cfg_sum_app (a b : list byte) (s : Z) :
  cfg_sum (a ++ b) s = cfg_sum b (cfg_sum a s).
Proof. revert s. induction a as [| x a IH]; intros s; cbn; [reflexivity | apply IH]. Qed.

Lemma cfg_sum_range (d : list byte) (s : Z) :
  0 <= s < 2 ^ 32 -> 0 <= cfg_sum d s < 2 ^ 32.
Proof.
  revert s. induction d as [| b d IH]; intros s Hs; cbn [cfg_sum].
  - exact Hs.
  - apply IH, u32_range.
Qed.

(** The sum depends on its start value through [2 ^ length] only. *)
Lemma cfg_sum_diff (d : list byte) (x y : Z) :
  u32 (cfg_sum d x - cfg_sum d y) = u32 ((x - y) * 2 ^ Z.of_nat (length d)).
Proof.
  revert x y. induction d as [| b d IH]; intros x y; cbn [cfg_sum length].
  - rewrite Z.mul_1_r. reflexivity.
  - rewrite IH. rewrite Nat2Z.inj_succ, Z.pow_succ_r by lia.
    rewrite !Z.shiftl_mul_pow2 by lia. unfold u32.
    change (2 ^ 1) with 2.
    rewrite Zmult_mod.
    rewrite Zminus_mod, !Zmod_mod.
    rewrite !(Zplus_mod_idemp_l).
    rewrite <- Zminus_mod.
    rewrite <- Zmult_mod.
    f_equal. ring.
Qed.

(** Replacing one byte shifts the sum by the difference, scaled by the
    number of bytes that follow. *)
Lemma cfg_sum_replace (pre post : list byte) (b b' : byte) (s : Z) :
  u32 (cfg_sum (pre ++ b' :: post) s - cfg_sum (pre ++ b :: post) s) =
  u32 ((byte.unsigned b' - byte.unsigned b) * 2 ^ Z.of_nat (length post)).
Proof.
  rewrite !cfg_sum_app. cbn [cfg_sum]. rewrite cfg_sum_diff.
  unfold u32. rewrite Zmult_mod, Zminus_mod, !Zmod_mod.
  rewrite <- Zminus_mod, <- Zmult_mod. f_equal. ring.
Qed.

(** [CFG_checkSum] only looks at and changes the record itself. *)
Lemma CFG_checkSum_prefix (L : RECORD_layout) (rec t : list byte) (w : bool) :
  wf_RECORD L -> length rec = sizeof_RECORD L ->
  CFG_checkSum L (rec ++ t) w =
  (fst (CFG_checkSum L rec w), snd (CFG_checkSum L rec w) ++ t).
Proof.
  intros (HID & Hcrc & _ & _) Hlen. unfold CFG_checkSum, get_crc, get_u32, set_u32.
  cbn [fst snd].
  rewrite get_le_app_l by lia.
  rewrite (set_le_app_l 4 (offsetof_crc L) 0) by lia.
  set (z := set_le 4 (offsetof_crc L) 0 rec).
  assert (Hz : length z = sizeof_RECORD L) by (subst z; rewrite length_set_le; lia).
  rewrite firstn_app_exact by exact Hz.
  rewrite (firstn_all2 z) by lia.
  destruct w.
  - rewrite set_le_app_l by lia. reflexivity.
  - reflexivity.
Qed.

Lemma length_stamped (L : RECORD_layout) (rec : list byte) :
  wf_RECORD L -> length rec = sizeof_RECORD L -> length (stamped L rec) = length rec.
Proof.
  intros (HID & Hcrc & _ & _) Hlen. unfold stamped, CFG_checkSum, set_u32. cbn [snd].
  set (r1 := set_le 4 (offsetof_ID L) (get_ID L rec + 1) rec).
  assert (Hl1 : length r1 = sizeof_RECORD L) by (subst r1; rewrite length_set_le; lia).
  set (z := set_le 4 (offsetof_crc L) 0 r1).
  assert (Hz : length z = sizeof_RECORD L) by (subst z; rewrite length_set_le; lia).
  rewrite length_set_le; lia.
Qed.


(** A stamped record passes the check, which leaves its checksum field zeroed. *)
Lemma CFG_checkSum_stamped (L : RECORD_layout) (rec : list byte) :
  wf_RECORD L -> length rec = sizeof_RECORD L ->
  CFG_checkSum L (stamped L rec) false =
  (true, set_u32 (offsetof_crc L) 0 (set_u32 (offsetof_ID L) (get_ID L rec + 1) rec)).
Proof.
  intros (HID & Hcrc & Hdis & _) Hlen.
  unfold stamped, CFG_checkSum, get_crc, get_u32, set_u32. cbn [snd].
  set (r1 := set_le 4 (offsetof_ID L) (get_ID L rec + 1) rec).
  assert (Hl1 : length r1 = sizeof_RECORD L) by (subst r1; rewrite length_set_le; lia).
  set (z := set_le 4 (offsetof_crc L) 0 r1).
  assert (Hz : length z = sizeof_RECORD L) by (subst z; rewrite length_set_le; lia).
  rewrite (set_le_set_le 4 (offsetof_crc L) 0 _ z) by lia.
  fold z.
  rewrite get_set_le_same by lia.
  change (2 ^ (Z.of_nat 4 * 8)) with (2 ^ 32).
  rewrite Z.mod_small by (apply cfg_sum_range; lia).
  assert (Hzz : set_le 4 (offsetof_crc L) 0 z = z)
    by (subst z; apply set_le_set_le; lia).
  rewrite Hzz, Z.eqb_refl. reflexivity.
Qed.

(** ** Sizes of the buffer and of the device *)

Lemma chunk_address (c : Z) :
  0 <= c < eeprom_chunks ->
  u16 (c * eeprom_chunk_size) = c * eeprom_chunk_size /\
  (Z.to_nat (c * eeprom_chunk_size) + Z.to_nat eeprom_chunk_size <= eeprom_size)%nat.
Proof.
  unfold u16, eeprom_size, eeprom_chunks, eeprom_chunk_size. intros H.
  change (2 ^ 16) with 65536.
  split; [apply Z.mod_small; lia | lia].
Qed.

Lemma readChunk_wf (c : Z) (s : state) :
  0 <= c -> wf_state s -> wf_state (snd (readChunk c s)).
Proof.
  intros H0 [Hd He].
  destruct (Z.eq_dec (chunk_in_data s) c) as [Heq | Hne].
  - rewrite readChunk_hit by exact Heq. split; assumption.
  - destruct (Z_lt_le_dec c eeprom_chunks) as [Hc | Hc].
    + rewrite readChunk_miss by assumption. cbv zeta.
      destruct (chunk_address c ltac:(lia)) as [Ha Hb]. rewrite Ha.
      destruct (bus s (transfers (trace s))); cbn [snd]; split; cbn; try assumption.
      apply length_mem_read. rewrite He. exact Hb.
    + rewrite readChunk_out_of_range by assumption. split; assumption.
Qed.

Lemma writeChunk_wf (c : Z) (s : state) :
  0 <= c -> wf_state s -> wf_state (snd (writeChunk c s)).
Proof.
  intros H0 [Hd He].
  destruct (Z_lt_le_dec c eeprom_chunks) as [Hc | Hc].
  - rewrite writeChunk_in_range by assumption. cbv zeta.
    destruct (chunk_address c ltac:(lia)) as [Ha Hb]. rewrite Ha.
    destruct (bus s (transfers (trace s))); cbn [snd]; split; cbn; try assumption.
    rewrite length_mem_write; [exact He |].
    rewrite length_firstn, Hd, He, Nat.min_id. exact Hb.
  - rewrite writeChunk_out_of_range by assumption. split; assumption.
Qed.

Lemma CFG_checkSum_data_wf (L : RECORD_layout) (w : bool) (s : state) :
  wf_RECORD L -> wf_state s -> wf_state (snd (CFG_checkSum_data L w s)).
Proof.
  intros (_ & Hcrc & _ & Hsz) [Hd He].
  unfold CFG_checkSum_data, CFG_checkSum, set_u32. cbn [snd].
  split; [| exact He]. cbn [data set_data].
  assert (Hz : length (set_le 4 (offsetof_crc L) 0 (data s)) = length (data s))
    by (apply length_set_le; lia).
  destruct w; [rewrite length_set_le by lia |]; rewrite Hz; exact Hd.
Qed.

Lemma init_loop_wf (L : RECORD_layout) (chunks : list Z) :
  wf_RECORD L ->
  Forall (fun c => 0 <= c < cfg_chunks) chunks ->
  forall (a : scan) (s : state),
    wf_state s -> wf_state (snd (init_loop L chunks a s)).
Proof.
  intros HL. induction 1 as [| chunk rest Hc _ IH]; intros a s Hs; cbn [init_loop].
  - exact Hs.
  - unfold bind, gets, ret.
    pose proof (readChunk_wf chunk s ltac:(lia) Hs) as H1.
    destruct (readChunk chunk s) as [[] s1]; cbn [snd] in H1; [| exact H1].
    pose proof (CFG_checkSum_data_wf L false s1 HL H1) as H2.
    destruct (CFG_checkSum_data L false s1) as [[] s2]; cbn [snd] in H2; [| exact H2].
    apply IH, H2.
Qed.

Lemma EEPROM_init_wf (L : RECORD_layout) (s : state) :
  wf_RECORD L -> wf_state s -> wf_state (snd (EEPROM_init L s)).
Proof.
  intros HL Hs. unfold EEPROM_init, bind, gets, ret, modify.
  pose proof (init_loop_wf L _ HL (chunk_range_bounds cfg_chunks) scan0 s Hs) as H1.
  destruct (init_loop L (chunk_range cfg_chunks) scan0 s) as [a s1]. cbn [snd] in H1.
  destruct (records a =? 0); [exact H1 |].
  destruct (records a <? cfg_chunks); cbn; [| exact H1].
  destruct (_ >=? cfg_chunks); exact H1.
Qed.

Lemma loadRecord_wf (L : RECORD_layout) (rec : list byte) (s : state) :
  wf_RECORD L -> ptrs_ok s -> wf_state s -> wf_state (snd (loadRecord L rec s)).
Proof.
  intros HL [Hr _] Hs. unfold loadRecord, bind, gets, ret.
  pose proof (readChunk_wf (r_chunk s) s ltac:(lia) Hs) as H1.
  destruct (readChunk (r_chunk s) s) as [[] s1]; cbn [snd] in H1; [| exact H1].
  pose proof (CFG_checkSum_data_wf L false s1 HL H1) as H2.
  destruct (CFG_checkSum_data L false s1) as [[] s2]; exact H2.
Qed.

Lemma saveRecord_wf (L : RECORD_layout) (rec : list byte) (s : state) :
  wf_RECORD L -> length rec = sizeof_RECORD L ->
  ptrs_ok s -> wf_state s -> wf_state (snd (saveRecord L rec s)).
Proof.
  intros HL Hlen [_ Hw] Hs. destruct (can_write s) eqn:Hcw.
  - rewrite saveRecord_writable by exact Hcw. cbv zeta. fold (stamped L rec).
    assert (H0 : wf_state (set_data (memcpy (data s) (stamped L rec) (sizeof_RECORD L)) s)).
    { destruct Hs as [Hd He]. split; [| exact He]. cbn [data set_data].
      pose proof HL as (_ & _ & _ & Hsz).
      rewrite length_memcpy.
      - exact Hd.
      - rewrite length_stamped by assumption. lia.
      - rewrite Hd. exact Hsz. }
    pose proof (writeChunk_wf (w_chunk s) _ ltac:(lia) H0) as H1.
    destruct (writeChunk (w_chunk s) _) as [[] s1]; cbn [snd] in *; [| exact H1].
    destruct (_ >=? cfg_chunks); exact H1.
  - rewrite saveRecord_not_writable by exact Hcw. exact Hs.
Qed.

Lemma requiredTipSpace_fits (T : TIP_layout) :
  (sizeof_TIP T <= Z.to_nat eeprom_chunk_size)%nat ->
  Z.of_nat (sizeof_TIP T) <= requiredTipSpace T.
Proof.
  unfold eeprom_chunk_size. intros Hsz.
  unfold requiredTipSpace, requiredTipSpace_loop, u16, eeprom_chunk_size.
  change (2 ^ 16) with 65536.
  rewrite (Z.mod_small (Z.of_nat (sizeof_TIP T))) by lia.
  assert (Hs : Z.of_nat (sizeof_TIP T) <= 32) by lia.
  revert Hs. clear Hsz.
  generalize (Z.of_nat (sizeof_TIP T)) (Nat2Z.is_nonneg (sizeof_TIP T)).
  intros sz H0 Hs.
  cbn -[Z.geb Z.modulo].
  repeat match goal with
         | |- context [?a >=? sz] =>
             destruct (Z.geb_spec a sz); [rewrite Z.mod_small by lia; lia |]
         end.
  lia.
Qed.

Lemma tip_slot_fits (T : TIP_layout) (idx : Z) :
  0 <= idx ->
  0 <= tip_offset_of T idx /\ tip_offset_of T idx + requiredTipSpace T <= eeprom_chunk_size.
Proof.
  intros Hi. unfold tip_offset_of, tips_per_chunk, eeprom_chunk_size, u8.
  change (2 ^ 8) with 256.
  pose proof (requiredTipSpace_cases T) as H. cbn in H.
  destruct H as [H | H]; [| destruct H as [H | H]; [| destruct H as [H | H];
    [| destruct H as [H | H]; [| destruct H as [H | H]; [| destruct H as [H | H];
    [| contradiction]]]]]];
    rewrite <- H;
    match goal with
    | |- context [u16 ?q] =>
        let v := eval cbv in (u16 q) in change (u16 q) with v
    end;
    match goal with
    | |- context [Z.rem idx ?n] =>
        pose proof (Z.rem_bound_pos idx n Hi ltac:(reflexivity))
    end;
    (rewrite Z.mod_small by lia); lia.
Qed.

Lemma u16_nonneg (z : Z) : 0 <= u16 z.
Proof. apply Z.mod_pos_bound. reflexivity. Qed.

Lemma loadTipData_wf (T : TIP_layout) (tip : list byte) (idx : Z) (s : state) :
  wf_state s -> wf_state (snd (loadTipData T tip idx s)).
Proof.
  intros Hs. unfold loadTipData, bind, gets, ret.
  destruct (idx >? _); [exact Hs |].
  pose proof (readChunk_wf (tip_chunk_of T idx) s (u16_nonneg _) Hs) as H1.
  destruct (readChunk (tip_chunk_of T idx) s) as [[] s1]; cbn [snd] in *; [| exact H1].
  match goal with
  | |- context [fst (TIP_checkSum ?a ?b ?c ?d)] => destruct (fst (TIP_checkSum a b c d))
  end; exact H1.
Qed.

Lemma saveTipData_wf (T : TIP_layout) (tip : list byte) (idx : Z) (s : state) :
  wf_TIP T -> length tip = sizeof_TIP T -> 0 <= idx ->
  wf_state s -> wf_state (snd (saveTipData T tip idx s)).
Proof.
  intros HT Hlen Hi Hs. unfold saveTipData, bind, gets, ret, modify.
  destruct (idx >? _); [exact Hs |].
  pose proof (readChunk_wf (tip_chunk_of T idx) s (u16_nonneg _) Hs) as H1.
  destruct (readChunk (tip_chunk_of T idx) s) as [[] s1]; cbn [snd] in *; [| exact H1].
  destruct HT as ([_ Hsz] & _ & _ & _ & _ & _ & _ & _ & Hcrc).
  pose proof (requiredTipSpace_fits T Hsz) as Hfit.
  pose proof (tip_slot_fits T idx Hi) as [Ho0 Ho].
  destruct H1 as [Hd He].
  set (index := Z.to_nat (tip_offset_of T idx)) in *.
  set (d1 := memcpy_at index (data s1) tip (sizeof_TIP T)).
  unfold eeprom_chunk_size in Ho, Hsz.
  assert (Hd1 : length d1 = Z.to_nat eeprom_chunk_size).
  { subst d1. rewrite memcpy_at_mem_write by lia.
    rewrite length_mem_write; [exact Hd |].
    rewrite length_firstn, Hd. subst index. unfold eeprom_chunk_size. lia. }
  set (d2 := snd (TIP_checkSum T d1 index true)).
  assert (Hd2 : length d2 = Z.to_nat eeprom_chunk_size).
  { subst d2. unfold TIP_checkSum, set_u8. cbn [snd].
    rewrite length_set_le; [exact Hd1 |]. rewrite Hd1. subst index.
    unfold eeprom_chunk_size. lia. }
  assert (H2 : wf_state (set_data d2 (set_data d1 s1))) by (split; assumption).
  pose proof (writeChunk_wf (tip_chunk_of T idx) _ (u16_nonneg _) H2) as H3.
  cbn [data set_data].
  fold d1. fold d2.
  destruct (writeChunk (tip_chunk_of T idx) (set_data d2 (set_data d1 s1))) as [[] s2];
    exact H3.
Qed.

Lemma clear_loop_wf (idxs : list Z) :
  Forall (fun c => 0 <= c < cfg_chunks) idxs ->
  forall s, wf_state s -> wf_state (snd (clear_loop idxs s)).
Proof.
  induction 1 as [| i rest Hi _ IH]; intros s Hs; cbn [clear_loop].
  - exact Hs.
  - unfold bind, ret, HAL_I2C_Mem_Write, HAL_Delay, modify.
    destruct (bus s (transfers (trace s))); [| exact Hs].
    apply IH. destruct Hs as [Hd He]. split; [exact Hd |].
    cbn [eeprom set_eeprom log_event].
    rewrite length_mem_write; [exact He |].
    rewrite length_firstn, Hd, He, Nat.min_id.
    unfold u32, cfg_chunks, eeprom_size, eeprom_chunk_size, eeprom_chunks in *.
    change (2 ^ 32) with 4294967296.
    rewrite Z.mod_small by lia. lia.
Qed.

(** In every reachable state the buffer and the device have their sizes. *)
Lemma reachable_wf (L : RECORD_layout) (T : TIP_layout) (s : state) :
  wf_RECORD L -> wf_TIP T -> reachable L T s -> wf_state s.
Proof.
  intros HL HT Hreach.
  induction Hreach as [dev b Hd | s Hr IH | s rec Hr IH Hl | s rec Hr IH Hl
                       | s tip idx Hr IH Hl Hi | s tip idx Hr IH Hl Hi | s Hr IH].
  - split; [reflexivity | exact Hd].
  - apply EEPROM_init_wf; assumption.
  - apply loadRecord_wf; try assumption. eapply reachable_ptrs; eassumption.
  - apply saveRecord_wf; try assumption. eapply reachable_ptrs; eassumption.
  - apply loadTipData_wf; assumption.
  - apply saveTipData_wf; try assumption. lia.
  - unfold clearConfigArea, bind, modify.
    pose proof (clear_loop_wf _ (chunk_range_bounds cfg_chunks)
                  (set_data (repeat Byte.xff (Z.to_nat eeprom_chunk_size)) s)) as H1.
    destruct (clear_loop _ _) as [[] s1]. cbn [snd] in H1.
    apply EEPROM_init_wf; [assumption |]. apply H1.
    destruct IH as [_ He]. split; [reflexivity | exact He].
Qed.

(** ** Saving and loading the configuration record *)

Lemma saveRecord_true (L : RECORD_layout) (rec : list byte) (s : state) :
  fst (fst (saveRecord L rec s)) = true ->
  let s' := snd (saveRecord L rec s) in
  can_write s = true /\
  w_chunk s < eeprom_chunks /\
  snd (fst (saveRecord L rec s)) = stamped L rec /\
  data s' = memcpy (data s) (stamped L rec) (sizeof_RECORD L) /\
  chunk_in_data s' = w_chunk s /\
  r_chunk s' = w_chunk s /\
  w_chunk s' = (if u16 (w_chunk s + 1) >=? cfg_chunks then 0 else u16 (w_chunk s + 1)) /\
  can_write s' = true /\
  bus s' = bus s /\
  eeprom s' = mem_write (Z.to_nat (u16 (w_chunk s * eeprom_chunk_size)))
                        (firstn (Z.to_nat eeprom_chunk_size) (data s')) (eeprom s) /\
  trace s' = Delay 20 :: I2C_Mem_Write 160 (u16 (w_chunk s * eeprom_chunk_size)) true
                      :: trace s.
Proof.
  destruct (can_write s) eqn:Hcw.
  - rewrite saveRecord_writable by exact Hcw. cbv zeta. fold (stamped L rec).
    destruct (Z_lt_le_dec (w_chunk s) eeprom_chunks) as [Hw | Hw].
    + rewrite writeChunk_in_range by exact Hw. cbv zeta. cbn [bus trace set_data data].
      destruct (bus s (transfers (trace s))); cbn [fst snd]; [intros _ | discriminate].
      destruct (u16 (w_chunk s + 1) >=? cfg_chunks); cbn; repeat split; assumption.
    + rewrite writeChunk_out_of_range by exact Hw. cbn [fst]. discriminate.
  - rewrite saveRecord_not_writable by exact Hcw. cbn [fst]. discriminate.
Qed.


(** A load served from a buffer that holds a valid record. *)
Lemma loadRecord_hit (L : RECORD_layout) (rec0 rec t : list byte) (s : state) :
  wf_RECORD L -> length rec = sizeof_RECORD L -> length rec0 = sizeof_RECORD L ->
  chunk_in_data s = r_chunk s ->
  data s = rec ++ t ->
  loadRecord L rec0 s =
  if fst (CFG_checkSum L rec false)
  then (true, snd (CFG_checkSum L rec false), set_data (snd (CFG_checkSum L rec false) ++ t) s)
  else (false, rec0, set_data (snd (CFG_checkSum L rec false) ++ t) s).
Proof.
  intros HL Hlen Hlen0 Hcid Hdata. unfold loadRecord, bind, gets, ret.
  rewrite readChunk_hit by exact Hcid.
  unfold CFG_checkSum_data. rewrite Hdata, CFG_checkSum_prefix by assumption.
  destruct (fst (CFG_checkSum L rec false)) eqn:Hv; [| reflexivity].
  cbn [data set_data]. f_equal. f_equal.
  assert (Hl : length (snd (CFG_checkSum L rec false)) = sizeof_RECORD L).
  { destruct HL as (_ & Hcrc & _ & _). unfold CFG_checkSum, set_u32. cbn [snd].
    rewrite length_set_le; lia. }
  unfold memcpy, memcpy_at. cbn [firstn Nat.add app].
  rewrite firstn_app_exact by exact Hl.
  rewrite skipn_all2 by lia. apply app_nil_r.
Qed.

Lemma same_payload_stamp (L : RECORD_layout) (p : list byte) (v : Z) :
  wf_RECORD L -> length p = sizeof_RECORD L ->
  same_payload L (set_u32 (offsetof_crc L) 0 (set_u32 (offsetof_ID L) v p)) p.
Proof.
  intros (HID & Hcrc & _ & _) Hlen i Hi HiID Hicrc. unfold set_u32.
  rewrite nth_set_le_other by (rewrite ?length_set_le; lia).
  apply nth_set_le_other; lia.
Qed.

(** C2 (as stated) fails: the identifier comes from the record the caller
    passes, not from the store.  With identifier 5 stored, saving a record
    that carries identifier 100 and loading it back yields 101, not 6. *)
Lemma C2_counterexample : ~ round_trip_as_stated RECORD32 TIP16.
Proof.
  intros H.
  assert (Hr : reachable RECORD32 TIP16 one_record_state).
  { apply reach_saveRecord; [| reflexivity].
    apply reach_EEPROM_init, reach_boot. reflexivity. }
  specialize (H one_record_state (record_with_ID 100) (record_with_ID 0) Hr
                eq_refl eq_refl).
  assert (H1 : fst (CFG_checkSum RECORD32
                      (device_chunk (r_chunk one_record_state) one_record_state) false)
               = true) by (vm_compute; reflexivity).
  assert (H2 : fst (fst (saveRecord RECORD32 (record_with_ID 100) one_record_state)) = true)
    by (vm_compute; reflexivity).
  destruct (H H1 H2) as (_ & _ & H3).
  vm_compute in H3. discriminate H3.
Qed.

(** C2 (amended). After a successful [saveRecord p], an immediate
    [loadRecord] succeeds without any bus transaction and returns [p] with
    its identifier field incremented by one (as a 32-bit value) relative to
    the identifier [p] itself carried when it was passed to [saveRecord],
    its checksum field zeroed, and every other byte equal to that of [p]. *)
Theorem C2_round_trip (L : RECORD_layout) (s : state) (p rec0 : list byte) :
  wf_RECORD L ->
  length p = sizeof_RECORD L -> length rec0 = sizeof_RECORD L ->
  fst (fst (saveRecord L p s)) = true ->
  let s1 := snd (saveRecord L p s) in
  let r := loadRecord L rec0 s1 in
  fst (fst r) = true /\
  snd (fst r) = set_u32 (offsetof_crc L) 0 (set_u32 (offsetof_ID L) (get_ID L p + 1) p) /\
  get_ID L (snd (fst r)) = u32 (get_ID L p + 1) /\
  get_crc L (snd (fst r)) = 0 /\
  same_payload L (snd (fst r)) p /\
  trace (snd r) = trace s1.
Proof.
  intros HL Hp Hrec0 Hok s1 r.
  destruct (saveRecord_true L p s Hok) as (_ & _ & _ & Hdata & Hcid & Hrc & _).
  fold s1 in Hdata, Hcid, Hrc.
  assert (Hst : length (stamped L p) = sizeof_RECORD L)
    by (rewrite length_stamped; assumption).
  rewrite memcpy_exact in Hdata by exact Hst.
  assert (Hr : r = loadRecord L rec0 s1) by reflexivity.
  rewrite (loadRecord_hit L rec0 (stamped L p) _ s1 HL Hst Hrec0) in Hr
    by (congruence || exact Hdata).
  rewrite CFG_checkSum_stamped in Hr by assumption. cbn [fst snd] in Hr.
  rewrite Hr. cbn [fst snd trace set_data].
  pose proof HL as (HID & Hcrc & Hdis & _).
  split; [reflexivity |]. split; [reflexivity |].
  split.
  { unfold get_ID, get_u32, set_u32.
    rewrite get_set_le_other by (rewrite ?length_set_le; lia).
    rewrite get_set_le_same by lia. reflexivity. }
  split.
  { unfold get_crc, get_u32, set_u32.
    rewrite get_set_le_same by (rewrite ?length_set_le; lia). reflexivity. }
  split; [apply same_payload_stamp; assumption | reflexivity].
Qed.

Lemma C2_round_trip_witness :
  let s1 := snd (saveRecord RECORD32 (record_with_ID 100) one_record_state) in
  let r := loadRecord RECORD32 (record_with_ID 0) s1 in
  fst (fst r) = true /\
  snd (fst r) = set_u32 (offsetof_crc RECORD32) 0
                  (set_u32 (offsetof_ID RECORD32)
                     (get_ID RECORD32 (record_with_ID 100) + 1) (record_with_ID 100)) /\
  get_ID RECORD32 (snd (fst r)) = u32 (get_ID RECORD32 (record_with_ID 100) + 1) /\
  get_crc RECORD32 (snd (fst r)) = 0 /\
  same_payload RECORD32 (snd (fst r)) (record_with_ID 100) /\
  trace (snd r) = trace s1.
Proof.
  apply (C2_round_trip RECORD32 one_record_state (record_with_ID 100) (record_with_ID 0)).
  - unfold wf_RECORD. cbn. lia.
  - reflexivity.
  - reflexivity.
  - vm_compute. reflexivity.
Defined.

(** ** The device after a save *)

Lemma length_device_chunk (c : Z) (s : state) :
  wf_state s -> 0 <= c < eeprom_chunks ->
  length (device_chunk c s) = Z.to_nat eeprom_chunk_size.
Proof.
  intros [_ He] Hc. unfold device_chunk. apply length_mem_read.
  rewrite He. apply chunk_address, Hc.
Qed.

Lemma device_after_save (L : RECORD_layout) (rec : list byte) (s : state) :
  wf_RECORD L -> length rec = sizeof_RECORD L ->
  wf_state s -> ptrs_ok s ->
  fst (fst (saveRecord L rec s)) = true ->
  let s' := snd (saveRecord L rec s) in
  data s' = stamped L rec ++ skipn (sizeof_RECORD L) (data s) /\
  device_chunk (w_chunk s) s' = data s' /\
  (forall c, 0 <= c < eeprom_chunks -> c <> w_chunk s ->
             device_chunk c s' = device_chunk c s).
Proof.
  intros HL Hlen [Hd He] [_ Hw] Hok s'.
  destruct (saveRecord_true L rec s Hok) as (_ & _ & _ & Hdata & _ & _ & _ & _ & _ & Hee & _).
  fold s' in Hdata, Hee.
  assert (Hst : length (stamped L rec) = sizeof_RECORD L)
    by (rewrite length_stamped; assumption).
  rewrite memcpy_exact in Hdata by exact Hst.
  pose proof HL as (_ & _ & _ & Hsz).
  assert (Hd' : length (data s') = Z.to_nat eeprom_chunk_size).
  { rewrite Hdata, length_app, length_skipn, Hst, Hd. lia. }
  assert (Hwr : 0 <= w_chunk s < eeprom_chunks)
    by (unfold cfg_chunks, eeprom_chunks in *; lia).
  destruct (chunk_address (w_chunk s) Hwr) as [Ha Hb].
  rewrite Ha in Hee. rewrite firstn_all2 in Hee by lia.
  split; [exact Hdata |]. unfold device_chunk. rewrite Hee. split.
  - rewrite <- Hd'. apply mem_read_write_same. rewrite Hd', He. exact Hb.
  - intros c Hc Hne. destruct (chunk_address c Hc) as [_ Hcb].
    apply mem_read_write_other.
    + rewrite Hd', He. exact Hb.
    + rewrite He. exact Hcb.
    + rewrite Hd'. unfold eeprom_chunk_size. lia.
Qed.



(** ** Corruption of a stored record *)

Lemma device_chunk_poke (c : Z) (i : nat) (b : byte) (s : state) :
  wf_state s -> 0 <= c < eeprom_chunks -> (i < Z.to_nat eeprom_chunk_size)%nat ->
  device_chunk c (poke c i b s) = mem_write i [b] (device_chunk c s).
Proof.
  intros Hwf Hc Hi.
  pose proof (length_device_chunk c s Hwf Hc) as Hl.
  destruct Hwf as [_ He]. destruct (chunk_address c Hc) as [_ Hb].
  unfold device_chunk in *. unfold poke. cbn [eeprom set_eeprom].
  set (a := Z.to_nat (c * eeprom_chunk_size)) in *.
  set (n := Z.to_nat eeprom_chunk_size) in *.
  assert (Hw : length (mem_write (a + i) [b] (eeprom s)) = length (eeprom s))
    by (apply length_mem_write; cbn [length]; lia).
  apply nth_ext with (d := Byte.x00) (d' := Byte.x00).
  - rewrite length_mem_read by lia.
    rewrite length_mem_write by (cbn [length]; lia). symmetry. exact Hl.
  - intros j Hj. rewrite length_mem_read in Hj by lia.
    rewrite nth_mem_read by lia.
    rewrite !nth_mem_write by (cbn [length]; lia). cbn [length].
    rewrite nth_mem_read by lia.
    destruct (Nat.leb_spec (a + i) (a + j)), (Nat.leb_spec i j); try lia; cbn [andb];
      [| reflexivity].
    destruct (Nat.ltb_spec (a + j) (a + i + 1)), (Nat.ltb_spec j (i + 1)); try lia;
      [| reflexivity].
    f_equal. lia.
Qed.

(** A load that misses the cache validates what the device holds. *)
Lemma loadRecord_miss (L : RECORD_layout) (rec0 : list byte) (s : state) :
  chunk_in_data s <> r_chunk s -> 0 <= r_chunk s < eeprom_chunks ->
  bus s (transfers (trace s)) = true ->
  fst (fst (loadRecord L rec0 s)) =
  fst (CFG_checkSum L (device_chunk (r_chunk s) s) false).
Proof.
  intros Hne Hr Hbus. unfold loadRecord, bind, gets, ret.
  rewrite readChunk_miss by (assumption || lia). cbv zeta. rewrite Hbus.
  destruct (chunk_address (r_chunk s) Hr) as [Ha _]. rewrite Ha.
  unfold CFG_checkSum_data. cbn [data set_data set_chunk_in_data log_event].
  fold (device_chunk (r_chunk s) s).
  destruct (CFG_checkSum L (device_chunk (r_chunk s) s) false) as [[] d]; reflexivity.
Qed.

Lemma firstn_split_at (z : list byte) (i n : nat) :
  (i < n <= length z)%nat ->
  firstn n z = firstn i z ++ nth i z Byte.x00 :: firstn (n - S i) (skipn (S i) z).
Proof.
  intros H.
  rewrite <- (firstn_skipn i z) at 1.
  rewrite firstn_app, firstn_firstn, length_firstn.
  replace (Nat.min n i) with i by lia.
  replace (n - Nat.min i (length z))%nat with (S (n - S i)) by lia.
  f_equal.
  destruct (skipn i z) as [| x t] eqn:Hs.
  - apply (f_equal (@length byte)) in Hs. rewrite length_skipn in Hs. cbn in Hs. lia.
  - cbn [firstn]. f_equal.
    + rewrite <- (Nat.add_0_r i), <- nth_skipn, Hs. reflexivity.
    + f_equal. change (S i) with (1 + i)%nat. rewrite <- skipn_skipn, Hs. reflexivity.
Qed.

Lemma firstn_mem_write_at (z : list byte) (i n : nat) (b : byte) :
  (i < n <= length z)%nat ->
  firstn n (mem_write i [b] z) = firstn i z ++ b :: firstn (n - S i) (skipn (S i) z).
Proof.
  intros H. unfold mem_write. cbn [length].
  rewrite firstn_app, firstn_firstn, length_firstn.
  replace (Nat.min n i) with i by lia.
  replace (n - Nat.min i (length z))%nat with (S (n - S i)) by lia.
  cbn [app firstn]. rewrite Nat.add_1_r. reflexivity.
Qed.

Lemma set_le_mem_write_comm (w off : nat) (v : Z) (i : nat) (b : byte) (d : list byte) :
  (off + w <= length d)%nat -> (i < length d)%nat ->
  (i < off \/ off + w <= i)%nat ->
  set_le w off v (mem_write i [b] d) = mem_write i [b] (set_le w off v d).
Proof.
  intros Hoff Hi Hd. rewrite !set_le_mem_write.
  assert (H1 : length (mem_write i [b] d) = length d)
    by (apply length_mem_write; cbn [length]; lia).
  assert (H2 : length (mem_write off (le_split w v) d) = length d)
    by (apply length_mem_write; rewrite length_le_split; lia).
  apply nth_ext with (d := Byte.x00) (d' := Byte.x00).
  - rewrite !length_mem_write; rewrite ?length_le_split, ?H1, ?H2; cbn [length]; lia.
  - intros j _.
    rewrite !nth_mem_write; rewrite ?length_le_split, ?H1, ?H2; cbn [length]; try lia.
    destruct (Nat.leb_spec off j), (Nat.ltb_spec j (off + w)),
             (Nat.leb_spec i j), (Nat.ltb_spec j (i + 1)); cbn [andb]; try reflexivity; lia.
Qed.

Lemma u32_zero_small (x : Z) : - 2 ^ 32 < x < 2 ^ 32 -> u32 x = 0 -> x = 0.
Proof.
  unfold u32. change (2 ^ 32) with 4294967296. intros Hx H.
  apply Z.mod_divide in H; [| lia]. destruct H as [q Hq]. lia.
Qed.

(** The check on a record with one byte outside the checksum field
    replaced: it still passes exactly when the change, scaled by the
    bytes that follow, vanishes modulo [2 ^ 32]. *)
Lemma CFG_checkSum_poke (L : RECORD_layout) (d : list byte) (i : nat) (b' : byte) :
  wf_RECORD L -> (sizeof_RECORD L <= length d)%nat ->
  (i < sizeof_RECORD L)%nat ->
  (i < offsetof_crc L \/ offsetof_crc L + 4 <= i)%nat ->
  fst (CFG_checkSum L d false) = true ->
  (fst (CFG_checkSum L (mem_write i [b'] d) false) = true <->
   u32 ((byte.unsigned b' - byte.unsigned (nth i d Byte.x00))
        * 2 ^ Z.of_nat (sizeof_RECORD L - 1 - i)) = 0).
Proof.
  intros (HID & Hcrc & _ & _) Hlen Hi Hout Hv.
  unfold CFG_checkSum, get_crc, get_u32, set_u32 in *. cbn [fst] in *.
  apply Z.eqb_eq in Hv. rewrite Z.eqb_eq.
  rewrite set_le_mem_write_comm by lia.
  assert (Hcrc' : get_le 4 (offsetof_crc L) (mem_write i [b'] d)
                  = get_le 4 (offsetof_crc L) d).
  { rewrite !get_le_mem_read. f_equal.
    apply mem_read_write_other; cbn [length]; lia. }
  rewrite Hcrc', Hv.
  set (z := set_le 4 (offsetof_crc L) 0 d) in *.
  assert (Hz : length z = length d) by (subst z; apply length_set_le; lia).
  assert (Hnz : nth i z Byte.x00 = nth i d Byte.x00)
    by (subst z; apply nth_set_le_other; lia).
  rewrite (firstn_split_at z i (sizeof_RECORD L)) by lia.
  rewrite (firstn_mem_write_at z i (sizeof_RECORD L)) by lia.
  set (pre := firstn i z). set (post := firstn (sizeof_RECORD L - S i) (skipn (S i) z)).
  assert (Hpost : length post = (sizeof_RECORD L - 1 - i)%nat).
  { subst post. rewrite length_firstn, length_skipn. lia. }
  pose proof (cfg_sum_replace pre post (nth i z Byte.x00) b' 117) as Hrep.
  rewrite Hpost, Hnz in Hrep. rewrite Hnz.
  pose proof (cfg_sum_range (pre ++ nth i d Byte.x00 :: post) 117 ltac:(lia)) as R1.
  pose proof (cfg_sum_range (pre ++ b' :: post) 117 ltac:(lia)) as R2.
  rewrite <- Hrep. split.
  - intros ->. rewrite Z.sub_diag. reflexivity.
  - intros H0. apply u32_zero_small in H0; lia.
Qed.

(** A change of one byte that is followed by at most 24 bytes of the
    record never vanishes. *)
Lemma late_byte_change_nonzero (b b' : byte) (k : nat) :
  b' <> b -> (k <= 24)%nat ->
  u32 ((byte.unsigned b' - byte.unsigned b) * 2 ^ Z.of_nat k) <> 0.
Proof.
  intros Hne Hk H0.
  pose proof (byte.unsigned_range b) as Rb. pose proof (byte.unsigned_range b') as Rb'.
  change (2 ^ 8) with 256 in *.
  assert (Hp : 0 < 2 ^ Z.of_nat k <= 2 ^ 24).
  { split; [apply Z.pow_pos_nonneg; lia | apply Z.pow_le_mono_r; lia]. }
  change (2 ^ 24) with 16777216 in Hp.
  apply u32_zero_small in H0.
  - apply Z.mul_eq_0 in H0. destruct H0 as [H0 | H0]; [| lia].
    apply Hne, byte.unsigned_inj. lia.
  - change (2 ^ 32) with 4294967296. nia.
Qed.

(** C3 (as stated) fails for a 32-byte record: the lowest byte of the
    identifier is shifted left 31 times, so only its lowest bit reaches
    the sum.  Changing the stored identifier from 5 to 7 goes unnoticed. *)
Lemma C3_counterexample : ~ checksum_rejection_as_stated RECORD32 TIP16.
Proof.
  intros H.
  assert (Hr : reachable RECORD32 TIP16 one_record_rebooted).
  { apply reach_EEPROM_init, reach_boot. vm_compute. reflexivity. }
  specialize (H one_record_rebooted (record_with_ID 0) 0%nat Byte.x07 Hr).
  assert (H1 : chunk_in_data one_record_rebooted <> r_chunk one_record_rebooted)
    by (vm_compute; discriminate).
  assert (H2 : fst (CFG_checkSum RECORD32
                      (device_chunk (r_chunk one_record_rebooted) one_record_rebooted)
                      false) = true) by (vm_compute; reflexivity).
  assert (H3 : Byte.x07 <> nth 0 (device_chunk (r_chunk one_record_rebooted)
                                    one_record_rebooted) Byte.x00)
    by (vm_compute; discriminate).
  specialize (H H1 eq_refl H2 ltac:(cbn; lia) ltac:(cbn; lia) H3).
  vm_compute in H. discriminate H.
Qed.

(** C3 (amended). For a stored, checksum-valid record read from the device
    (cache miss, working bus), replacing the byte at offset [i] outside the
    checksum field by [b'] makes the next [loadRecord] fail exactly when
    [(b' - b) * 2 ^ (sizeof(RECORD) - 1 - i)] is not a multiple of
    [2 ^ 32]; in particular every change of a byte among the last 25 bytes
    of the record is rejected. *)
Theorem C3_checksum_rejection
    (L : RECORD_layout) (T : TIP_layout) (s : state) (rec0 : list byte)
    (i : nat) (b' : byte) :
  wf_RECORD L -> wf_TIP T -> reachable L T s ->
  chunk_in_data s <> r_chunk s ->
  bus s (transfers (trace s)) = true ->
  fst (CFG_checkSum L (device_chunk (r_chunk s) s) false) = true ->
  (i < sizeof_RECORD L)%nat ->
  (i < offsetof_crc L \/ offsetof_crc L + 4 <= i)%nat ->
  let b := nth i (device_chunk (r_chunk s) s) Byte.x00 in
  let r := loadRecord L rec0 (poke (r_chunk s) i b' s) in
  (fst (fst r) = false <->
   u32 ((byte.unsigned b' - byte.unsigned b) * 2 ^ Z.of_nat (sizeof_RECORD L - 1 - i)) <> 0) /\
  (b' <> b -> (sizeof_RECORD L - i <= 25)%nat -> fst (fst r) = false).
Proof.
  intros HL HT Hreach Hne Hbus Hv Hi Hout b r.
  pose proof (reachable_wf L T s HL HT Hreach) as Hwf.
  destruct (reachable_ptrs L T s Hreach) as [Hr _].
  assert (Hrc : 0 <= r_chunk s < eeprom_chunks)
    by (unfold cfg_chunks, eeprom_chunks in *; lia).
  pose proof HL as (_ & _ & _ & Hsz).
  pose proof (length_device_chunk (r_chunk s) s Hwf Hrc) as Hl.
  assert (Hres : fst (fst r) =
                 fst (CFG_checkSum L (mem_write i [b'] (device_chunk (r_chunk s) s)) false)).
  { subst r. rewrite loadRecord_miss by assumption.
    cbn [r_chunk poke set_eeprom]. rewrite device_chunk_poke by (assumption || lia).
    reflexivity. }
  pose proof (CFG_checkSum_poke L (device_chunk (r_chunk s) s) i b' HL
                ltac:(lia) Hi Hout Hv) as Hiff.
  fold b in Hiff. rewrite Hres.
  assert (Hmain : fst (CFG_checkSum L (mem_write i [b'] (device_chunk (r_chunk s) s)) false)
                  = false <->
                  u32 ((byte.unsigned b' - byte.unsigned b)
                       * 2 ^ Z.of_nat (sizeof_RECORD L - 1 - i)) <> 0).
  { rewrite <- Hiff.
    destruct (fst (CFG_checkSum L (mem_write i [b'] (device_chunk (r_chunk s) s)) false));
      split; congruence. }
  split; [exact Hmain |].
  intros Hb Hlate. apply Hmain, late_byte_change_nonzero; [exact Hb | lia].
Qed.

Lemma C3_checksum_rejection_witness :
  let s := one_record_rebooted in
  let b := nth 8 (device_chunk (r_chunk s) s) Byte.x00 in
  let r := loadRecord RECORD32 (record_with_ID 0) (poke (r_chunk s) 8 Byte.x01 s) in
  (fst (fst r) = false <->
   u32 ((byte.unsigned Byte.x01 - byte.unsigned b)
        * 2 ^ Z.of_nat (sizeof_RECORD RECORD32 - 1 - 8)) <> 0) /\
  (Byte.x01 <> b -> (sizeof_RECORD RECORD32 - 8 <= 25)%nat -> fst (fst r) = false).
Proof.
  apply (C3_checksum_rejection RECORD32 TIP16 one_record_rebooted (record_with_ID 0)
           8%nat Byte.x01).
  - unfold wf_RECORD. cbn. lia.
  - unfold wf_TIP. cbn. lia.
  - apply reach_EEPROM_init, reach_boot. vm_compute. reflexivity.
  - vm_compute. discriminate.
  - reflexivity.
  - vm_compute. reflexivity.
  - cbn. lia.
  - cbn. lia.
Defined.

(** ** The initialisation scan *)

Lemma get_ID_range (L : RECORD_layout) (mem : list byte) : 0 <= get_ID L mem < 2 ^ 32.
Proof.
  unfold get_ID, get_u32, get_le.
  pose proof (le_combine_bound (firstn 4 (skipn (offsetof_ID L) mem))) as H.
  pose proof (firstn_le_length 4 (skipn (offsetof_ID L) mem)) as Hl.
  assert (Hp : 2 ^ (8 * Z.of_nat (length (firstn 4 (skipn (offsetof_ID L) mem)))) <= 2 ^ 32)
    by (apply Z.pow_le_mono_r; lia).
  lia.
Qed.

(** The loop computes the fold of its body over the valid prefix. *)
Lemma init_loop_valid_prefix (L : RECORD_layout) (m k : nat) (a : scan) (s : state) :
  init_loop L (map Z.of_nat (seq k m)) a s =
  (scan_ids k (fst (valid_prefix L (map Z.of_nat (seq k m)) s)) a,
   snd (valid_prefix L (map Z.of_nat (seq k m)) s)).
Proof.
  revert k a s. induction m as [| m IH]; intros k a s; cbn [seq map init_loop valid_prefix].
  - reflexivity.
  - unfold visit, bind, gets, ret.
    destruct (readChunk (Z.of_nat k) s) as [[] s1]; [| reflexivity].
    destruct (CFG_checkSum_data L false s1) as [[] s2]; [| reflexivity].
    rewrite IH.
    destruct (valid_prefix L (map Z.of_nat (seq (S k) m)) s2) as [ids s3].
    reflexivity.
Qed.

Lemma valid_prefix_length (L : RECORD_layout) (chunks : list Z) (s : state) :
  (length (fst (valid_prefix L chunks s)) <= length chunks)%nat.
Proof.
  revert s. induction chunks as [| c rest IH]; intros s; cbn [valid_prefix].
  - cbn. lia.
  - unfold visit, bind, gets, ret.
    destruct (readChunk c s) as [[] s1]; [| cbn; lia].
    destruct (CFG_checkSum_data L false s1) as [[] s2]; [| cbn; lia].
    specialize (IH s2). destruct (valid_prefix L rest s2) as [ids s3].
    cbn in *. lia.
Qed.

Lemma valid_prefix_range (L : RECORD_layout) (chunks : list Z) (s : state) :
  Forall (fun id => 0 <= id < 2 ^ 32) (fst (valid_prefix L chunks s)).
Proof.
  revert s. induction chunks as [| c rest IH]; intros s; cbn [valid_prefix].
  - constructor.
  - unfold visit, bind, gets, ret.
    destruct (readChunk c s) as [[] s1]; [| constructor].
    destruct (CFG_checkSum_data L false s1) as [[] s2]; [| constructor].
    specialize (IH s2). destruct (valid_prefix L rest s2) as [ids s3].
    cbn in *. constructor; [apply get_ID_range | exact IH].
Qed.

Lemma scan_inv_nil : scan_inv [] scan0.
Proof.
  unfold scan_inv, scan0. cbn.
  repeat split; try (intros; lia); left; split; reflexivity.
Qed.

Lemma nth_snoc_l (l : list Z) (x : Z) (j : nat) :
  (j < length l)%nat -> nth j (l ++ [x]) 0 = nth j l 0.
Proof. intros H. apply app_nth1, H. Qed.

Lemma nth_snoc_r (l : list Z) (x : Z) : nth (length l) (l ++ [x]) 0 = x.
Proof. rewrite app_nth2 by lia. rewrite Nat.sub_diag. reflexivity. Qed.

Lemma scan_record_inv (done : list Z) (id : Z) (a : scan) :
  Z.of_nat (length done) < 65535 -> 0 <= id < 2 ^ 32 ->
  Forall (fun x => 0 <= x < 2 ^ 32) done ->
  scan_inv done a ->
  scan_inv (done ++ [id]) (scan_record (Z.of_nat (length done)) id a).
Proof.
  intros Hlen Hid Hdone (Hrec & Hmax & Hmin & Hmaxch & Hminch).
  change (2 ^ 32) with 4294967296 in *.
  assert (Hnth : forall j, (j < length done + 1)%nat ->
                           j = length done \/ (j < length done)%nat)
    by (intros j; lia).
  unfold scan_inv, scan_record. cbn [records min_rec_ID min_rec_ch max_rec_ID max_rec_ch].
  rewrite length_app. cbn [length].
  assert (Hu : u16 (records a + 1) = Z.of_nat (length done + 1)).
  { unfold u16. change (2 ^ 16) with 65536. rewrite Hrec, Z.mod_small by lia. lia. }
  destruct (Z.gtb_spec (min_rec_ID a) id) as [Hlt | Hge];
    cbn [records min_rec_ID min_rec_ch max_rec_ID max_rec_ch];
    destruct (Z.ltb_spec (max_rec_ID a) id) as [Hlt' | Hge'];
    cbn [records min_rec_ID min_rec_ch max_rec_ID max_rec_ch];
    (split; [exact Hu |]);
    (split; [intros j Hj; destruct (Hnth j Hj) as [-> | Hj'];
             [rewrite nth_snoc_r; lia
             | rewrite nth_snoc_l by exact Hj'; specialize (Hmax j Hj'); lia] |]);
    (split; [intros j Hj; destruct (Hnth j Hj) as [-> | Hj'];
             [rewrite nth_snoc_r; lia
             | rewrite nth_snoc_l by exact Hj'; specialize (Hmin j Hj'); lia] |]);
    split;
    try (right; split; [lia |]; rewrite Nat2Z.id; apply nth_snoc_r);
    match goal with
    | H : _ \/ _ |- context [max_rec_ID a = 0] =>
        destruct Hmaxch as [Hz | [Hr Hn]];
        [left; exact Hz | right; split; [lia |]; rewrite nth_snoc_l by lia; exact Hn]
    | H : _ \/ _ |- context [min_rec_ID a = 4294967295] =>
        destruct Hminch as [Hz | [Hr Hn]];
        [left; exact Hz | right; split; [lia |]; rewrite nth_snoc_l by lia; exact Hn]
    end.
Qed.

Lemma scan_ids_inv (ids done : list Z) (a : scan) :
  Z.of_nat (length done + length ids) <= 65535 ->
  Forall (fun x => 0 <= x < 2 ^ 32) done ->
  Forall (fun x => 0 <= x < 2 ^ 32) ids ->
  scan_inv done a ->
  scan_inv (done ++ ids) (scan_ids (length done) ids a).
Proof.
  revert done a. induction ids as [| id rest IH]; intros done a Hlen Hdone Hids Hinv;
    cbn [scan_ids].
  - rewrite app_nil_r. exact Hinv.
  - inversion Hids as [| ? ? Hid Hrest]; subst. cbn [length] in Hlen.
    replace (done ++ id :: rest) with ((done ++ [id]) ++ rest)
      by (rewrite <- app_assoc; reflexivity).
    replace (S (length done)) with (length (done ++ [id]))
      by (rewrite length_app; cbn; lia).
    apply IH.
    + rewrite length_app. cbn. lia.
    + apply Forall_app. split; [exact Hdone | constructor; [exact Hid | constructor]].
    + exact Hrest.
    + apply scan_record_inv; try assumption. lia.
Qed.

Lemma Forall_nth_range (ids : list Z) (j : nat) :
  Forall (fun x => 0 <= x < 2 ^ 32) ids -> (j < length ids)%nat ->
  0 <= nth j ids 0 < 2 ^ 32.
Proof.
  intros H Hj. rewrite Forall_forall in H. apply H, nth_In, Hj.
Qed.

(** An initialisation that finds no valid record points at chunk 0. *)
Lemma EEPROM_init_empty (L : RECORD_layout) (s : state) :
  fst (valid_prefix L (chunk_range cfg_chunks) s) = [] ->
  r_chunk (snd (EEPROM_init L s)) = 0 /\
  w_chunk (snd (EEPROM_init L s)) = 0 /\
  can_write (snd (EEPROM_init L s)) = true.
Proof.
  intros Hempty. unfold EEPROM_init, bind, gets, ret, modify.
  change (chunk_range cfg_chunks) with (map Z.of_nat (seq 0 64)) in *.
  rewrite init_loop_valid_prefix, Hempty. cbn. repeat split.
Qed.

(** C4. The scan visits the chunks of the configuration area from index 0
    upward and stops at the first chunk that fails to read or to validate
    ([valid_prefix]); it then sets the writable flag and: with no valid
    record, both pointers to 0; otherwise the read pointer to a chunk that
    holds the largest identifier of the valid prefix, and the write pointer
    to the read pointer plus one, wrapped to 0, when fewer than
    [cfg_chunks] records are valid, and to a chunk that holds the smallest
    identifier when all [cfg_chunks] are. *)
Theorem C4_initialization_scan (L : RECORD_layout) (s : state) :
  let ids := fst (valid_prefix L (chunk_range cfg_chunks) s) in
  let s0 := snd (valid_prefix L (chunk_range cfg_chunks) s) in
  let s' := snd (EEPROM_init L s) in
  can_write s' = true /\
  (data s' = data s0 /\ chunk_in_data s' = chunk_in_data s0 /\
   eeprom s' = eeprom s0 /\ trace s' = trace s0 /\ bus s' = bus s0) /\
  (ids = [] -> r_chunk s' = 0 /\ w_chunk s' = 0) /\
  (ids <> [] ->
   0 <= r_chunk s' < Z.of_nat (length ids) /\
   (forall j, (j < length ids)%nat ->
              nth j ids 0 <= nth (Z.to_nat (r_chunk s')) ids 0) /\
   (Z.of_nat (length ids) < cfg_chunks ->
    w_chunk s' = if r_chunk s' + 1 >=? cfg_chunks then 0 else r_chunk s' + 1) /\
   (Z.of_nat (length ids) = cfg_chunks ->
    0 <= w_chunk s' < cfg_chunks /\
    forall j, (j < length ids)%nat ->
              nth (Z.to_nat (w_chunk s')) ids 0 <= nth j ids 0)).
Proof.
  intros ids s0 s'. subst s'.
  unfold EEPROM_init, bind, gets, ret, modify.
  change (chunk_range cfg_chunks) with (map Z.of_nat (seq 0 64)) in *.
  rewrite init_loop_valid_prefix. fold ids. fold s0.
  pose proof (valid_prefix_length L (map Z.of_nat (seq 0 64)) s) as Hlen.
  pose proof (valid_prefix_range L (map Z.of_nat (seq 0 64)) s) as Hrange.
  fold ids in Hlen, Hrange. rewrite length_map, length_seq in Hlen.
  pose proof (scan_ids_inv ids [] scan0 ltac:(cbn [length]; lia)
                (Forall_nil _) Hrange scan_inv_nil) as Hinv.
  cbn [app length] in Hinv.
  set (a := scan_ids 0 ids scan0) in *.
  destruct Hinv as (Hrec & Hmax & Hmin & Hmaxch & Hminch).
  unfold cfg_chunks.
  destruct (Z.eqb_spec (records a) 0) as [H0 | Hn0].
  - cbn. split; [reflexivity |]. split; [repeat split |].
    split; [intros _; split; reflexivity |].
    intros Hne. destruct ids; [congruence | cbn [length] in *; lia].
  - assert (Hne : (0 < length ids)%nat) by lia.
    assert (Hr : 0 <= max_rec_ch a < Z.of_nat (length ids)) by lia.
    assert (Hrmax : forall j, (j < length ids)%nat ->
                              nth j ids 0 <= nth (Z.to_nat (max_rec_ch a)) ids 0).
    { intros j Hj. specialize (Hmax j Hj).
      destruct Hmaxch as [[Hz Hc] | [_ Hn]].
      - rewrite Hc. pose proof (Forall_nth_range ids 0 Hrange Hne). cbn [Z.to_nat]. lia.
      - lia. }
    destruct (Z.ltb_spec (records a) 64) as [Hlt | Hge]; cbn.
    + unfold u16. change (2 ^ 16) with 65536.
      rewrite (Z.mod_small (max_rec_ch a + 1)) by lia.
      destruct (Z.geb_spec (max_rec_ch a + 1) 64) as [Hge | Hlt']; [lia |]. cbn.
      split; [reflexivity |]. split; [repeat split |].
      split; [intros ->; cbn [length] in *; lia |].
      intros _. split; [exact Hr |]. split; [exact Hrmax |].
      split; [| lia].
      intros _. destruct (Z.geb_spec (max_rec_ch a + 1) 64); [lia | reflexivity].
    + split; [reflexivity |]. split; [repeat split |].
      split; [intros ->; cbn [length] in *; lia |].
      intros _. split; [exact Hr |]. split; [exact Hrmax |].
      split; [lia |]. intros _. split; [lia |].
      intros j Hj. specialize (Hmin j Hj).
      destruct Hminch as [[Hz Hc] | [_ Hn]].
      * rewrite Hc. pose proof (Forall_nth_range ids 0 Hrange Hne).
        change (2 ^ 32) with 4294967296 in *. cbn [Z.to_nat]. lia.
      * lia.
Qed.

(** ** Filling the configuration area *)








(** ** The cache invariant *)

(** Whatever the layout, a successful [loadRecord] leaves the buffer with
    a zeroed checksum field. *)
Lemma loadRecord_zeroes_crc (L : RECORD_layout) (rec0 : list byte) (s : state) :
  wf_RECORD L -> wf_state s -> 0 <= r_chunk s ->
  fst (fst (loadRecord L rec0 s)) = true ->
  get_crc L (data (snd (loadRecord L rec0 s))) = 0.
Proof.
  intros (_ & Hcrc & _ & Hsz) Hwf Hr. unfold loadRecord, bind, gets, ret.
  pose proof (readChunk_wf (r_chunk s) s Hr Hwf) as H1.
  destruct (readChunk (r_chunk s) s) as [[] s1]; cbn [fst snd] in *; [| discriminate].
  unfold CFG_checkSum_data, CFG_checkSum.
  destruct (_ =? _); cbn [fst snd]; [intros _ | discriminate].
  cbn [data set_data]. unfold get_crc, get_u32, set_u32.
  destruct H1 as [Hd _].
  rewrite get_set_le_same by (rewrite Hd; lia). reflexivity.
Qed.

(** C6. The invariant does not hold in every reachable state.
    [CFG_checkSum] zeroes the checksum field of the record it is given and
    restores it only when asked to write; [EEPROM_init] and [loadRecord]
    run it on the buffer itself.  After the initialisation on an erased
    device the cache is marked for chunk 0 while the buffer differs from
    chunk 0 of the device in the four checksum bytes.  Likewise a
    successful [loadRecord] leaves the buffer with a zeroed checksum, still
    marked for the chunk, so that the next [loadRecord] of the same valid
    record is served from the buffer and fails. *)
Theorem C6_cache_differs_from_device :
  let s := snd (EEPROM_init RECORD32 (boot erased_device good_bus)) in
  let r1 := loadRecord RECORD32 (record_with_ID 0) one_record_state in
  let r2 := loadRecord RECORD32 (record_with_ID 0) (snd r1) in
  (reachable RECORD32 TIP16 s /\
   chunk_in_data s = 0 /\
   device_chunk 0 s = repeat Byte.xff 32 /\
   data s = repeat Byte.xff 4 ++ repeat Byte.x00 4 ++ repeat Byte.xff 24 /\
   ~ cache_coherent s) /\
  (reachable RECORD32 TIP16 (snd r1) /\
   cache_coherent one_record_state /\
   fst (fst r1) = true /\
   chunk_in_data (snd r1) = 0 /\
   ~ cache_coherent (snd r1) /\
   fst (CFG_checkSum RECORD32 (device_chunk 0 (snd r1)) false) = true /\
   fst (fst r2) = false).
Proof.
  cbv zeta. split.
  - split; [apply reach_EEPROM_init, reach_boot; reflexivity |].
    split; [vm_compute; reflexivity |].
    split; [vm_compute; reflexivity |].
    split; [vm_compute; reflexivity |].
    intros H. unfold cache_coherent in H.
    assert (Hc : 0 <= chunk_in_data (snd (EEPROM_init RECORD32 (boot erased_device good_bus)))
                 < eeprom_chunks) by (vm_compute; split; [discriminate | reflexivity]).
    specialize (H Hc). vm_compute in H. discriminate H.
  - split.
    { apply reach_loadRecord; [| reflexivity].
      apply reach_saveRecord; [| reflexivity].
      apply reach_EEPROM_init, reach_boot. reflexivity. }
    split; [intros _; vm_compute; reflexivity |].
    split; [vm_compute; reflexivity |].
    split; [vm_compute; reflexivity |].
    split.
    { intros H. unfold cache_coherent in H.
      assert (Hc : 0 <= chunk_in_data
                         (snd (loadRecord RECORD32 (record_with_ID 0) one_record_state))
                   < eeprom_chunks) by (vm_compute; split; [discriminate | reflexivity]).
      specialize (H Hc). vm_compute in H. discriminate H. }
    split; vm_compute; reflexivity.
Qed.

(** ** The scan on a device that is read through the bus *)

(** A visit that misses the cache reads the chunk from the device. *)
Lemma visit_miss (L : RECORD_layout) (c : Z) (s : state) :
  chunk_in_data s <> c -> 0 <= c < eeprom_chunks ->
  fst (visit L c s) =
  if bus s (transfers (trace s))
  then if fst (CFG_checkSum L (device_chunk c s) false)
       then Some (get_ID L (snd (CFG_checkSum L (device_chunk c s) false)))
       else None
  else None.
Proof.
  intros Hne Hc. unfold visit, bind, gets, ret.
  rewrite readChunk_miss by (assumption || lia). cbv zeta.
  destruct (chunk_address c Hc) as [Ha _]. rewrite Ha.
  destruct (bus s (transfers (trace s))); [| reflexivity].
  unfold CFG_checkSum_data. cbn [data set_data set_chunk_in_data log_event].
  fold (device_chunk c s).
  destruct (CFG_checkSum L (device_chunk c s) false) as [[] d]; reflexivity.
Qed.

(** After 65 saves on an erased device chunk 0 holds identifier 65 and
    chunks 1 to 63 hold 2 to 64; a reset then finds 64 valid records, reads
    them in order, and points at chunk 0 to read and chunk 1 to write. *)
Example init_after_wrap :
  let s64 := snd (save_all RECORD32 blank_edits (record_with_ID 0)
                    (snd (EEPROM_init RECORD32 (boot erased_device good_bus)))) in
  let s65 := snd (saveRecord RECORD32 (record_with_ID 64) s64) in
  let s := snd (EEPROM_init RECORD32 (boot (eeprom s65) good_bus)) in
  fst (valid_prefix RECORD32 (chunk_range cfg_chunks) (boot (eeprom s65) good_bus))
  = 65 :: map Z.of_nat (seq 2 63) /\
  (can_write s, r_chunk s, w_chunk s) = (true, 0, 1) /\
  map (fun e => match e with I2C_Mem_Read _ a _ => a | _ => -1 end) (rev (trace s))
  = map (fun c => c * eeprom_chunk_size) (chunk_range cfg_chunks).
Proof. vm_compute. repeat split. Qed.

(** With two records stored the scan stops at the third chunk. *)
Example init_two_records :
  let s1 := snd (saveRecord RECORD32 (record_with_ID 5) one_record_state) in
  let s := snd (EEPROM_init RECORD32 (boot (eeprom s1) good_bus)) in
  fst (valid_prefix RECORD32 (chunk_range cfg_chunks) (boot (eeprom s1) good_bus)) = [5; 6] /\
  (can_write s, r_chunk s, w_chunk s, chunk_in_data s) = (true, 1, 2, 2) /\
  rev (trace s) = [I2C_Mem_Read 160 0 true; I2C_Mem_Read 160 32 true;
                   I2C_Mem_Read 160 64 true].
Proof. vm_compute. repeat split. Qed.

(** * Further properties of the module *)

(** ** Geometry of the tip table *)

(** X1. [requiredTipSpace] returns a power of two between 1 and 32; when
    the tip record fits a chunk it is the smallest power of two that holds
    the record, and it is capped at the chunk size otherwise. *)
Theorem requiredTipSpace_smallest_power (T : TIP_layout) :
  Z.of_nat (sizeof_TIP T) < 2 ^ 16 ->
  let S := requiredTipSpace T in
  (exists e, 0 <= e <= 5 /\ S = 2 ^ e) /\
  (Z.of_nat (sizeof_TIP T) <= eeprom_chunk_size ->
   Z.of_nat (sizeof_TIP T) <= S /\ (S = 1 \/ S < 2 * Z.of_nat (sizeof_TIP T))) /\
  (eeprom_chunk_size < Z.of_nat (sizeof_TIP T) -> S = eeprom_chunk_size).
Proof.
  intros Hsz S. subst S.
  unfold requiredTipSpace, requiredTipSpace_loop, u16, eeprom_chunk_size.
  change (2 ^ 16) with 65536 in *.
  rewrite (Z.mod_small (Z.of_nat (sizeof_TIP T))) by lia.
  revert Hsz.
  generalize (Z.of_nat (sizeof_TIP T)) (Nat2Z.is_nonneg (sizeof_TIP T)).
  intros sz H0 Hsz.
  set (dbl := 2 * sz). assert (Hdbl : dbl = 2 * sz) by reflexivity. clearbody dbl.
  cbn -[Z.geb Z.modulo Z.pow].
  repeat match goal with
         | |- context [?a >=? sz] =>
             destruct (Z.geb_spec a sz);
             [rewrite Z.mod_small by lia; split;
              [first [exists 0; split; [lia | reflexivity]
                     | exists 1; split; [lia | reflexivity]
                     | exists 2; split; [lia | reflexivity]
                     | exists 3; split; [lia | reflexivity]
                     | exists 4; split; [lia | reflexivity]
                     | exists 5; split; [lia | reflexivity]]
              | lia] |]
         end.
  rewrite Z.mod_small by lia.
  split; [exists 5; split; [lia | reflexivity] | lia].
Qed.

Lemma requiredTipSpace_smallest_power_witness :
  let S := requiredTipSpace TIP16 in
  (exists e, 0 <= e <= 5 /\ S = 2 ^ e) /\
  (Z.of_nat (sizeof_TIP TIP16) <= eeprom_chunk_size ->
   Z.of_nat (sizeof_TIP TIP16) <= S /\ (S = 1 \/ S < 2 * Z.of_nat (sizeof_TIP TIP16))) /\
  (eeprom_chunk_size < Z.of_nat (sizeof_TIP TIP16) -> S = eeprom_chunk_size).
Proof.
  apply (requiredTipSpace_smallest_power TIP16). reflexivity.
Defined.

(** Where a slot lies: its chunk, its offset and its first byte. *)
Lemma tip_slot_geometry (T : TIP_layout) (idx : Z) :
  0 <= idx < tipDataTotal T ->
  eeprom_chunks - tip_chunks <= tip_chunk_of T idx < eeprom_chunks /\
  0 <= tip_offset_of T idx /\
  tip_offset_of T idx + requiredTipSpace T <= eeprom_chunk_size /\
  tip_chunk_of T idx * eeprom_chunk_size + tip_offset_of T idx
  = tip_area_base + idx * requiredTipSpace T.
Proof.
  rewrite tipDataTotal_eq.
  unfold tip_chunk_of, tip_offset_of, tips_per_chunk, tip_area_base,
    eeprom_chunk_size, eeprom_chunks, tip_chunks, u8, u16.
  change (2 ^ 8) with 256. change (2 ^ 16) with 65536.
  pose proof (requiredTipSpace_cases T) as H. cbn in H.
  destruct H as [H | H]; [| destruct H as [H | H]; [| destruct H as [H | H];
    [| destruct H as [H | H]; [| destruct H as [H | H]; [| destruct H as [H | H];
    [| contradiction]]]]]];
    rewrite <- H;
    match goal with
    | |- context [(Z.quot 32 ?q) mod 65536] =>
        let v := eval cbv in ((Z.quot 32 q) mod 65536) in
        change ((Z.quot 32 q) mod 65536) with v
    end;
    intros Hi;
    match goal with
    | |- context [Z.rem idx ?n] =>
        rewrite (Z.rem_mod_nonneg idx n) by lia;
        rewrite (Z.quot_div_nonneg idx n) by lia;
        pose proof (Z.div_mod idx n ltac:(lia));
        pose proof (Z.mod_pos_bound idx n ltac:(lia))
    end;
    rewrite !Z.mod_small by lia; lia.
Qed.

(** X2. Slot addressing.  The slots tile the tip area: the slot size
    times the slots per chunk is the chunk size, and for a slot index below
    [tipDataTotal] the chunk lies in the tip area, the slot lies inside
    that chunk, and its first byte on the device is
    [tip_area_base + index * slot size]; two different slots never
    overlap. *)
Theorem tip_slot_address (T : TIP_layout) (idx idx' : Z) :
  0 <= idx < tipDataTotal T -> 0 <= idx' < tipDataTotal T ->
  tips_per_chunk T * requiredTipSpace T = eeprom_chunk_size /\
  tipDataTotal T * requiredTipSpace T = tip_chunks * eeprom_chunk_size /\
  eeprom_chunks - tip_chunks <= tip_chunk_of T idx < eeprom_chunks /\
  0 <= tip_offset_of T idx /\
  tip_offset_of T idx + requiredTipSpace T <= eeprom_chunk_size /\
  tip_chunk_of T idx * eeprom_chunk_size + tip_offset_of T idx
  = tip_area_base + idx * requiredTipSpace T /\
  (idx < idx' ->
   tip_chunk_of T idx * eeprom_chunk_size + tip_offset_of T idx + requiredTipSpace T
   <= tip_chunk_of T idx' * eeprom_chunk_size + tip_offset_of T idx').
Proof.
  intros Hi Hi'.
  destruct (tip_slot_geometry T idx Hi) as (Hc & Ho0 & Ho & Ha).
  destruct (tip_slot_geometry T idx' Hi') as (_ & _ & _ & Ha').
  assert (Htile : tips_per_chunk T * requiredTipSpace T = eeprom_chunk_size).
  { unfold tips_per_chunk, eeprom_chunk_size.
    pose proof (requiredTipSpace_cases T) as H. cbn in H.
    repeat (destruct H as [H | H]; [rewrite <- H; reflexivity |]). contradiction. }
  split; [exact Htile |].
  split; [rewrite tipDataTotal_eq, <- Z.mul_assoc, Htile; reflexivity |].
  split; [exact Hc |]. split; [exact Ho0 |]. split; [exact Ho |].
  split; [exact Ha |].
  intros Hlt. rewrite Ha, Ha'.
  pose proof (requiredTipSpace_cases T) as H. cbn in H.
  assert (0 < requiredTipSpace T) by (intuition lia).
  nia.
Qed.

Lemma tip_slot_address_witness :
  tips_per_chunk TIP16 * requiredTipSpace TIP16 = eeprom_chunk_size /\
  tipDataTotal TIP16 * requiredTipSpace TIP16 = tip_chunks * eeprom_chunk_size /\
  eeprom_chunks - tip_chunks <= tip_chunk_of TIP16 126 < eeprom_chunks /\
  0 <= tip_offset_of TIP16 126 /\
  tip_offset_of TIP16 126 + requiredTipSpace TIP16 <= eeprom_chunk_size /\
  tip_chunk_of TIP16 126 * eeprom_chunk_size + tip_offset_of TIP16 126
  = tip_area_base + 126 * requiredTipSpace TIP16 /\
  (126 < 127 ->
   tip_chunk_of TIP16 126 * eeprom_chunk_size + tip_offset_of TIP16 126
   + requiredTipSpace TIP16
   <= tip_chunk_of TIP16 127 * eeprom_chunk_size + tip_offset_of TIP16 127).
Proof.
  apply (tip_slot_address TIP16 126 127).
  - vm_compute. split; [discriminate | reflexivity].
  - vm_compute. split; [discriminate | reflexivity].
Defined.

(** ** The two checksums *)

Lemma TIP_checkSum_tip_sum (T : TIP_layout) (mem : list byte) (base : nat) (w : bool) :
  TIP_checkSum T mem base w =
  (get_u8 (base + offsetof_tip_crc T) mem =? Z.land (tip_sum T mem base) 0xFF,
   if w then set_u8 (base + offsetof_tip_crc T) (Z.land (tip_sum T mem base) 0xFF) mem
   else mem).
Proof. reflexivity. Qed.

Lemma land_FF (z : Z) : Z.land z 0xFF = z mod 2 ^ 8.
Proof. change 0xFF with (Z.ones 8). apply Z.land_ones. lia. Qed.

Lemma get_u8_set_le_same (off : nat) (v : Z) (mem : list byte) :
  (off + 1 <= length mem)%nat -> get_u8 off (set_le 1 off v mem) = v mod 2 ^ 8.
Proof.
  intros H. unfold get_u8. rewrite set_le_mem_write, nth_mem_write
    by (rewrite length_le_split; exact H).
  rewrite length_le_split.
  destruct (Nat.leb_spec off off); [| lia].
  destruct (Nat.ltb_spec off (off + 1)); [| lia].
  cbn [andb]. rewrite Nat.sub_diag. cbn [le_split nth].
  apply byte.unsigned_of_Z.
Qed.

Lemma get_u8_set_le_other (w off : nat) (v : Z) (mem : list byte) (i : nat) :
  (off + w <= length mem)%nat -> (i < off \/ off + w <= i)%nat ->
  get_u8 i (set_le w off v mem) = get_u8 i mem.
Proof. intros H Hi. unfold get_u8. f_equal. apply nth_set_le_other; assumption. Qed.

(** The sum of a tip does not see its checksum byte. *)
Lemma tip_sum_set_crc (T : TIP_layout) (mem : list byte) (base : nat) (v : Z) :
  wf_TIP T -> tip_crc_apart T ->
  (base + sizeof_TIP T <= length mem)%nat ->
  tip_sum T (set_u8 (base + offsetof_tip_crc T) v mem) base = tip_sum T mem base.
Proof.
  intros (_ & H200 & H260 & H330 & H400 & Hmask & Hamb & Hname & Hcrc)
         (A200 & A260 & A330 & A400 & Amask & Aamb & Aname) Hlen.
  cbv zeta in *. unfold tip_sum, set_u8, get_u16, get_i8.
  rewrite !get_set_le_other by lia.
  rewrite !get_u8_set_le_other by lia.
  replace (firstn (tip_name_sz T)
             (skipn (base + offsetof_name T)
                (set_le 1 (base + offsetof_tip_crc T) v mem)))
    with (firstn (tip_name_sz T) (skipn (base + offsetof_name T) mem)); [reflexivity |].
  symmetry. rewrite set_le_mem_write.
  apply (mem_read_write_other (base + offsetof_tip_crc T) (le_split 1 v) mem
           (base + offsetof_name T) (tip_name_sz T));
    rewrite ?length_le_split; lia.
Qed.

(** X3. [TIP_checkSum] in check-only mode leaves the record untouched;
    in write mode it changes the checksum byte only, and the record it
    leaves passes the check.  A record that already passes is left as it
    is. *)
Theorem TIP_checkSum_stamp (T : TIP_layout) (mem : list byte) (base : nat) :
  wf_TIP T -> tip_crc_apart T ->
  (base + sizeof_TIP T <= length mem)%nat ->
  let mem' := snd (TIP_checkSum T mem base true) in
  snd (TIP_checkSum T mem base false) = mem /\
  fst (TIP_checkSum T mem' base false) = true /\
  length mem' = length mem /\
  (forall i, i <> (base + offsetof_tip_crc T)%nat -> nth i mem' Byte.x00 = nth i mem Byte.x00) /\
  (fst (TIP_checkSum T mem base false) = true -> mem' = mem).
Proof.
  intros HT Hapart Hlen mem'. subst mem'.
  pose proof HT as (_ & _ & _ & _ & _ & _ & _ & _ & Hcrc).
  rewrite !TIP_checkSum_tip_sum. cbn [fst snd].
  split; [reflexivity |].
  split.
  { rewrite tip_sum_set_crc by assumption.
    unfold set_u8. rewrite get_u8_set_le_same by lia.
    rewrite land_FF, Z.mod_mod by (cbn; lia). apply Z.eqb_refl. }
  split; [unfold set_u8; apply length_set_le; lia |].
  split.
  { intros i Hi. unfold set_u8. apply nth_set_le_other; lia. }
  intros Hv. apply Z.eqb_eq in Hv. rewrite <- Hv.
  unfold set_u8, get_u8. rewrite set_le_mem_write.
  apply nth_ext with (d := Byte.x00) (d' := Byte.x00).
  - apply length_mem_write. rewrite length_le_split. lia.
  - intros i _. rewrite nth_mem_write by (rewrite length_le_split; lia).
    rewrite length_le_split.
    destruct (Nat.leb_spec (base + offsetof_tip_crc T) i); cbn [andb]; [| reflexivity].
    destruct (Nat.ltb_spec i (base + offsetof_tip_crc T + 1)); [| reflexivity].
    replace i with (base + offsetof_tip_crc T)%nat by lia.
    rewrite Nat.sub_diag. cbn [le_split nth]. apply byte.of_Z_unsigned.
Qed.

Lemma TIP_checkSum_stamp_witness :
  let mem := repeat Byte.x21 32 in
  let mem' := snd (TIP_checkSum TIP16 mem 16 true) in
  snd (TIP_checkSum TIP16 mem 16 false) = mem /\
  fst (TIP_checkSum TIP16 mem' 16 false) = true /\
  length mem' = length mem /\
  (forall i, i <> (16 + offsetof_tip_crc TIP16)%nat ->
             nth i mem' Byte.x00 = nth i mem Byte.x00) /\
  (fst (TIP_checkSum TIP16 mem 16 false) = true -> mem' = mem).
Proof.
  apply (TIP_checkSum_stamp TIP16 (repeat Byte.x21 32) 16).
  - unfold wf_TIP. cbn. lia.
  - unfold tip_crc_apart. cbn. lia.
  - cbn. lia.
Defined.

Lemma zero_slice (n w off : nat) :
  Forall (fun b => b = Byte.x00) (firstn w (skipn off (repeat Byte.x00 n))).
Proof.
  apply Forall_forall. intros b Hb.
  apply (In_nth _ _ Byte.x00) in Hb. destruct Hb as (i & Hi & <-).
  rewrite nth_firstn, nth_skipn.
  destruct (i <? w)%nat; [apply nth_repeat | reflexivity].
Qed.

Lemma le_combine_zeros (l : list byte) :
  Forall (fun b => b = Byte.x00) l -> le_combine l = 0.
Proof.
  induction 1 as [| b l Hb _ IH]; [reflexivity |].
  change (le_combine (b :: l)) with (Z.lor (byte.unsigned b) (Z.shiftl (le_combine l) 8)).
  rewrite Hb, IH. reflexivity.
Qed.

Lemma tip_name_sum_zeros (l : list byte) :
  Forall (fun b => b = Byte.x00) l -> tip_name_sum l 0 = 0.
Proof.
  induction 1 as [| b l Hb _ IH]; cbn [tip_name_sum]; [reflexivity |].
  rewrite Hb. exact IH.
Qed.

(** X4. A slot of zero bytes never passes [TIP_checkSum]: the seed 117
    is added after the last shift, so the computed checksum is 117 while
    the stored one is 0. *)
Theorem TIP_checkSum_rejects_zeros (T : TIP_layout) (n base : nat) :
  TIP_checkSum T (repeat Byte.x00 n) base false = (false, repeat Byte.x00 n).
Proof.
  rewrite TIP_checkSum_tip_sum.
  assert (Hu8 : forall off, get_u8 off (repeat Byte.x00 n) = 0)
    by (intros off; unfold get_u8; rewrite nth_repeat; reflexivity).
  assert (Hle : forall w off, get_le w off (repeat Byte.x00 n) = 0)
    by (intros w off; unfold get_le; apply le_combine_zeros, zero_slice).
  assert (Hs : tip_sum T (repeat Byte.x00 n) base = 117).
  { unfold tip_sum, get_u16, get_i8. rewrite !Hle, !Hu8. cbn -[tip_name_sum].
    rewrite tip_name_sum_zeros by apply zero_slice. reflexivity. }
  rewrite Hs, Hu8. reflexivity.
Qed.

Lemma cfg_sum_zeros (n : nat) (s : Z) :
  0 <= s < 2 ^ 32 -> cfg_sum (repeat Byte.x00 n) s = u32 (s * 2 ^ Z.of_nat n).
Proof.
  intros Hs.
  assert (H0 : cfg_sum (repeat Byte.x00 n) 0 = 0)
    by (induction n as [| n IH]; cbn; [reflexivity | exact IH]).
  pose proof (cfg_sum_diff (repeat Byte.x00 n) s 0) as H.
  rewrite H0, repeat_length, !Z.sub_0_r in H. rewrite <- H.
  unfold u32. symmetry. apply Z.mod_small, cfg_sum_range, Hs.
Qed.

Lemma seed_survives (n : nat) : (n < 32)%nat -> u32 (117 * 2 ^ Z.of_nat n) <> 0.
Proof.
  intros Hn H. unfold u32 in H.
  apply Z.mod_divide in H; [| lia].
  replace (2 ^ 32) with (2 ^ Z.of_nat n * 2 ^ (32 - Z.of_nat n)) in H
    by (rewrite <- Z.pow_add_r by lia; f_equal; lia).
  rewrite (Z.mul_comm 117) in H.
  apply Z.mul_divide_cancel_l in H;
    [| apply Z.pow_nonzero; lia].
  assert (H2 : (2 | 2 ^ (32 - Z.of_nat n))) by (apply Z.divide_pow_same_r; lia).
  destruct (Z.divide_trans _ _ _ H2 H) as [q Hq]. lia.
Qed.

(** X5. The seed 117 of [CFG_checkSum] is shifted left once per byte of
    the record: a block of zero bytes is rejected as long as the record is
    shorter than 32 bytes, and it passes the check (as a record with
    identifier 0) when the record fills the whole chunk. *)
Theorem CFG_checkSum_zeros (L : RECORD_layout) (m : nat) :
  wf_RECORD L -> (sizeof_RECORD L <= m)%nat ->
  (fst (CFG_checkSum L (repeat Byte.x00 m) false) = true <-> sizeof_RECORD L = 32%nat).
Proof.
  intros (HID & Hcrc & _ & Hsz) Hm.
  unfold CFG_checkSum, get_crc, get_u32, set_u32. cbn [fst].
  assert (Hz : set_le 4 (offsetof_crc L) 0 (repeat Byte.x00 m) = repeat Byte.x00 m).
  { apply nth_ext with (d := Byte.x00) (d' := Byte.x00).
    - apply length_set_le. rewrite repeat_length. lia.
    - intros i _. rewrite set_le_mem_write, nth_mem_write
        by (rewrite length_le_split, repeat_length; lia).
      rewrite length_le_split, nth_repeat.
      destruct ((offsetof_crc L <=? i)%nat && (i <? offsetof_crc L + 4)%nat) eqn:E;
        [| reflexivity].
      apply andb_prop in E. destruct E as [E1 E2].
      apply Nat.leb_le in E1. apply Nat.ltb_lt in E2.
      remember (i - offsetof_crc L)%nat as j.
      assert (j < 4)%nat by lia.
      destruct j as [| [| [| [| j]]]]; try lia; reflexivity. }
  rewrite Hz.
  assert (Hg : get_le 4 (offsetof_crc L) (repeat Byte.x00 m) = 0)
    by (unfold get_le; apply le_combine_zeros, zero_slice).
  rewrite Hg.
  assert (Hf : firstn (sizeof_RECORD L) (repeat Byte.x00 m) = repeat Byte.x00 (sizeof_RECORD L)).
  { apply nth_ext with (d := Byte.x00) (d' := Byte.x00).
    - rewrite length_firstn, !repeat_length. lia.
    - intros i _. rewrite nth_firstn, !nth_repeat. destruct (i <? _)%nat; reflexivity. }
  rewrite Hf, cfg_sum_zeros by lia.
  unfold eeprom_chunk_size in Hsz.
  rewrite Z.eqb_eq. split.
  - intros H. destruct (Nat.eq_dec (sizeof_RECORD L) 32) as [He | Hne]; [exact He |].
    exfalso. apply (seed_survives (sizeof_RECORD L)); [lia | congruence].
  - intros ->. reflexivity.
Qed.

Lemma CFG_checkSum_zeros_witness :
  fst (CFG_checkSum RECORD32 (repeat Byte.x00 32) false) = true
  <-> sizeof_RECORD RECORD32 = 32%nat.
Proof.
  apply (CFG_checkSum_zeros RECORD32 32).
  - unfold wf_RECORD. cbn. lia.
  - cbn. lia.
Defined.

(** X6. [CFG_checkSum] in write mode changes the checksum field only and
    leaves a record that passes the check; the check itself, in either
    mode, zeroes the checksum field first and restores nothing in
    check-only mode. *)
Theorem CFG_checkSum_stamp (L : RECORD_layout) (rec : list byte) :
  wf_RECORD L -> (sizeof_RECORD L <= length rec)%nat ->
  let rec' := snd (CFG_checkSum L rec true) in
  fst (CFG_checkSum L rec' false) = true /\
  snd (CFG_checkSum L rec' false) = set_u32 (offsetof_crc L) 0 rec /\
  snd (CFG_checkSum L rec false) = set_u32 (offsetof_crc L) 0 rec /\
  length rec' = length rec /\
  (forall i, (i < offsetof_crc L \/ offsetof_crc L + 4 <= i)%nat ->
             nth i rec' Byte.x00 = nth i rec Byte.x00).
Proof.
  intros (HID & Hcrc & Hdis & _) Hlen rec'. subst rec'.
  unfold CFG_checkSum, get_crc, get_u32, set_u32. cbn [fst snd].
  set (z := set_le 4 (offsetof_crc L) 0 rec).
  assert (Hz : length z = length rec) by (subst z; apply length_set_le; lia).
  rewrite (set_le_set_le 4 (offsetof_crc L) 0 _ z) by lia.
  assert (Hzz : set_le 4 (offsetof_crc L) 0 z = z)
    by (subst z; apply set_le_set_le; lia).
  rewrite Hzz, get_set_le_same by lia.
  change (2 ^ (Z.of_nat 4 * 8)) with (2 ^ 32).
  rewrite Z.mod_small by (apply cfg_sum_range; lia).
  split; [apply Z.eqb_refl |]. split; [reflexivity |]. split; [reflexivity |].
  split; [rewrite length_set_le; lia |].
  intros i Hi. rewrite nth_set_le_other by lia.
  subst z. apply nth_set_le_other; lia.
Qed.

Lemma CFG_checkSum_stamp_witness :
  let rec := record_with_ID 9 in
  let rec' := snd (CFG_checkSum RECORD32 rec true) in
  fst (CFG_checkSum RECORD32 rec' false) = true /\
  snd (CFG_checkSum RECORD32 rec' false) = set_u32 (offsetof_crc RECORD32) 0 rec /\
  snd (CFG_checkSum RECORD32 rec false) = set_u32 (offsetof_crc RECORD32) 0 rec /\
  length rec' = length rec /\
  (forall i, (i < offsetof_crc RECORD32 \/ offsetof_crc RECORD32 + 4 <= i)%nat ->
             nth i rec' Byte.x00 = nth i rec Byte.x00).
Proof.
  apply (CFG_checkSum_stamp RECORD32 (record_with_ID 9)).
  - unfold wf_RECORD. cbn. lia.
  - vm_compute. lia.
Defined.

(** ** Reading never writes *)

Lemma device_kept_refl (s : state) : device_kept s s.
Proof. repeat split. Qed.

Lemma device_kept_trans (s1 s2 s3 : state) :
  device_kept s1 s2 -> device_kept s2 s3 -> device_kept s1 s3.
Proof. unfold device_kept. intuition congruence. Qed.

Lemma readChunk_device_kept (c : Z) (s : state) : device_kept s (snd (readChunk c s)).
Proof.
  destruct (Z.eq_dec (chunk_in_data s) c) as [He | Hne].
  - rewrite readChunk_hit by exact He. apply device_kept_refl.
  - destruct (Z_lt_le_dec c eeprom_chunks) as [Hc | Hc].
    + rewrite readChunk_miss by assumption. cbv zeta.
      destruct (bus s (transfers (trace s))); repeat split.
    + rewrite readChunk_out_of_range by assumption. apply device_kept_refl.
Qed.

Lemma CFG_checkSum_data_device_kept (L : RECORD_layout) (w : bool) (s : state) :
  device_kept s (snd (CFG_checkSum_data L w s)).
Proof.
  unfold CFG_checkSum_data. destruct (CFG_checkSum L (data s) w). repeat split.
Qed.

Lemma init_loop_device_kept (L : RECORD_layout) (chunks : list Z) (a : scan) (s : state) :
  device_kept s (snd (init_loop L chunks a s)).
Proof.
  revert a s. induction chunks as [| chunk rest IH]; intros a s; cbn [init_loop].
  - apply device_kept_refl.
  - unfold bind, gets, ret.
    pose proof (readChunk_device_kept chunk s) as H1.
    destruct (readChunk chunk s) as [[] s1]; cbn [snd] in H1; [| exact H1].
    pose proof (CFG_checkSum_data_device_kept L false s1) as H2.
    destruct (CFG_checkSum_data L false s1) as [[] s2]; cbn [snd] in H2.
    + eapply device_kept_trans; [exact H1 |].
      eapply device_kept_trans; [exact H2 | apply IH].
    + eapply device_kept_trans; eassumption.
Qed.

(** X7. The initialisation scan, [loadRecord] and [loadTipData] never
    change the content of the device and never address a write to it,
    whatever the state and the bus do. *)
Theorem loads_keep_device
    (L : RECORD_layout) (T : TIP_layout) (s : state) (rec tip : list byte) (idx : Z) :
  device_kept s (snd (EEPROM_init L s)) /\
  device_kept s (snd (loadRecord L rec s)) /\
  device_kept s (snd (loadTipData T tip idx s)).
Proof.
  split; [| split].
  - unfold EEPROM_init, bind, gets, ret, modify.
    pose proof (init_loop_device_kept L (chunk_range cfg_chunks) scan0 s) as H.
    destruct (init_loop L (chunk_range cfg_chunks) scan0 s) as [a s1]. cbn [snd] in H.
    destruct (records a =? 0); [exact H |].
    destruct (records a <? cfg_chunks); cbn; [| exact H].
    destruct (_ >=? cfg_chunks); exact H.
  - unfold loadRecord, bind, gets, ret.
    pose proof (readChunk_device_kept (r_chunk s) s) as H1.
    destruct (readChunk (r_chunk s) s) as [[] s1]; cbn [snd] in H1; [| exact H1].
    pose proof (CFG_checkSum_data_device_kept L false s1) as H2.
    destruct (CFG_checkSum_data L false s1) as [[] s2]; cbn [snd] in *;
      eapply device_kept_trans; eassumption.
  - unfold loadTipData, bind, gets, ret.
    destruct (idx >? _); [apply device_kept_refl |].
    pose proof (readChunk_device_kept (tip_chunk_of T idx) s) as H1.
    destruct (readChunk (tip_chunk_of T idx) s) as [[] s1]; cbn [snd] in *; [| exact H1].
    match goal with
    | |- context [fst (TIP_checkSum ?a ?b ?c ?d)] => destruct (fst (TIP_checkSum a b c d))
    end; exact H1.
Qed.

(** ** The cache layer on its own keeps the buffer in step with the device *)

(** X8. [readChunk] preserves the coherence of the cache; when it
    succeeds the cache is marked for the chunk asked for, and on a miss
    that succeeds the buffer holds the content of that chunk on the
    device; when it fails, mark and buffer are as before.  [writeChunk] of
    a chunk of the device always ends with a coherent cache and leaves the
    buffer as it was: when the write succeeds the cache is marked for the
    chunk written and that chunk of the device equals the buffer; when it
    fails the cache is marked with [eeprom_chunks], which is no chunk of
    the device, and the device is unchanged. *)
Theorem cache_layer_coherent (c : Z) (s : state) :
  wf_state s -> 0 <= c ->
  (cache_coherent s -> cache_coherent (snd (readChunk c s))) /\
  (fst (readChunk c s) = true -> chunk_in_data (snd (readChunk c s)) = c) /\
  (chunk_in_data s <> c -> fst (readChunk c s) = true ->
   data (snd (readChunk c s)) = device_chunk c s) /\
  (fst (readChunk c s) = false ->
   chunk_in_data (snd (readChunk c s)) = chunk_in_data s /\
   data (snd (readChunk c s)) = data s) /\
  (c < eeprom_chunks ->
   cache_coherent (snd (writeChunk c s)) /\
   data (snd (writeChunk c s)) = data s /\
   (fst (writeChunk c s) = true ->
    chunk_in_data (snd (writeChunk c s)) = c /\
    device_chunk c (snd (writeChunk c s)) = data s) /\
   (fst (writeChunk c s) = false ->
    chunk_in_data (snd (writeChunk c s)) = eeprom_chunks /\
    eeprom (snd (writeChunk c s)) = eeprom s)).
Proof.
  intros [Hd He] H0. split; [| split; [| split; [| split]]].
  - intros Hcoh. destruct (Z.eq_dec (chunk_in_data s) c) as [Heq | Hne].
    + rewrite readChunk_hit by exact Heq. exact Hcoh.
    + destruct (Z_lt_le_dec c eeprom_chunks) as [Hc | Hc].
      * rewrite readChunk_miss by assumption. cbv zeta.
        destruct (chunk_address c ltac:(lia)) as [Ha _]. rewrite Ha.
        destruct (bus s (transfers (trace s))); cbn [snd].
        -- intros _. reflexivity.
        -- exact Hcoh.
      * rewrite readChunk_out_of_range by assumption. exact Hcoh.
  - destruct (Z.eq_dec (chunk_in_data s) c) as [Heq | Hne].
    + rewrite readChunk_hit by exact Heq. intros _. exact Heq.
    + destruct (Z_lt_le_dec c eeprom_chunks) as [Hc | Hc].
      * rewrite readChunk_miss by assumption. cbv zeta.
        destruct (bus s (transfers (trace s))); [reflexivity | discriminate].
      * rewrite readChunk_out_of_range by assumption. discriminate.
  - intros Hne Hok. destruct (Z_lt_le_dec c eeprom_chunks) as [Hc | Hc].
    + rewrite readChunk_miss in * by assumption. cbv zeta in *.
      destruct (chunk_address c ltac:(lia)) as [Ha _]. rewrite Ha.
      destruct (bus s (transfers (trace s))); [reflexivity | discriminate].
    + rewrite readChunk_out_of_range in Hok by assumption. discriminate.
  - destruct (Z.eq_dec (chunk_in_data s) c) as [Heq | Hne].
    + rewrite readChunk_hit by exact Heq. discriminate.
    + destruct (Z_lt_le_dec c eeprom_chunks) as [Hc | Hc].
      * rewrite readChunk_miss by assumption. cbv zeta.
        destruct (bus s (transfers (trace s))); [discriminate |].
        intros _. split; reflexivity.
      * rewrite readChunk_out_of_range by assumption. intros _. split; reflexivity.
  - intros Hc. rewrite writeChunk_in_range by exact Hc. cbv zeta.
    destruct (chunk_address c ltac:(lia)) as [Ha Hb]. rewrite Ha.
    assert (Hrw : mem_read (Z.to_nat (c * eeprom_chunk_size)) (Z.to_nat eeprom_chunk_size)
                    (mem_write (Z.to_nat (c * eeprom_chunk_size))
                       (firstn (Z.to_nat eeprom_chunk_size) (data s)) (eeprom s)) = data s).
    { rewrite firstn_all2 by lia. rewrite <- Hd.
      apply mem_read_write_same. rewrite Hd, He. exact Hb. }
    destruct (bus s (transfers (trace s))); cbn [fst snd].
    + split; [| split; [| split]].
      * intros _. unfold device_chunk. cbn. symmetry. exact Hrw.
      * reflexivity.
      * intros _. split; [reflexivity |]. unfold device_chunk. cbn. exact Hrw.
      * discriminate.
    + split; [| split; [| split]].
      * unfold cache_coherent. cbn. lia.
      * reflexivity.
      * discriminate.
      * intros _. split; reflexivity.
Qed.

Lemma cache_layer_coherent_witness :
  let c := 7 in
  let s := boot erased_device good_bus in
  (cache_coherent s -> cache_coherent (snd (readChunk c s))) /\
  (fst (readChunk c s) = true -> chunk_in_data (snd (readChunk c s)) = c) /\
  (chunk_in_data s <> c -> fst (readChunk c s) = true ->
   data (snd (readChunk c s)) = device_chunk c s) /\
  (fst (readChunk c s) = false ->
   chunk_in_data (snd (readChunk c s)) = chunk_in_data s /\
   data (snd (readChunk c s)) = data s) /\
  (c < eeprom_chunks ->
   cache_coherent (snd (writeChunk c s)) /\
   data (snd (writeChunk c s)) = data s /\
   (fst (writeChunk c s) = true ->
    chunk_in_data (snd (writeChunk c s)) = c /\
    device_chunk c (snd (writeChunk c s)) = data s) /\
   (fst (writeChunk c s) = false ->
    chunk_in_data (snd (writeChunk c s)) = eeprom_chunks /\
    eeprom (snd (writeChunk c s)) = eeprom s)).
Proof.
  apply (cache_layer_coherent 7 (boot erased_device good_bus)).
  - split; reflexivity.
  - lia.
Defined.

(** ** What a load hands back *)

(** X9. [loadRecord] leaves the caller's record untouched when it
    fails.  When it succeeds, the record it hands back is the block it
    validated (the buffer on a cache hit, the chunk at the read pointer on
    the device otherwise) with the checksum field zeroed, not with the
    stored checksum. *)
Theorem loadRecord_result (L : RECORD_layout) (rec : list byte) (s : state) :
  wf_RECORD L -> wf_state s -> 0 <= r_chunk s ->
  length rec = sizeof_RECORD L ->
  let d := if chunk_in_data s =? r_chunk s then data s
           else device_chunk (r_chunk s) s in
  (fst (fst (loadRecord L rec s)) = false -> snd (fst (loadRecord L rec s)) = rec) /\
  (fst (fst (loadRecord L rec s)) = true ->
   fst (CFG_checkSum L d false) = true /\
   snd (fst (loadRecord L rec s)) = firstn (sizeof_RECORD L) (set_u32 (offsetof_crc L) 0 d) /\
   data (snd (loadRecord L rec s)) = set_u32 (offsetof_crc L) 0 d).
Proof.
  intros HL [Hd He] Hr Hlen d.
  assert (Hcopy : forall b, memcpy rec b (sizeof_RECORD L)
                            = firstn (sizeof_RECORD L) b).
  { intros b. unfold memcpy, memcpy_at. cbn [firstn app Nat.add].
    rewrite skipn_all2 by lia. apply app_nil_r. }
  unfold loadRecord, bind, gets, ret. subst d.
  destruct (Z.eqb_spec (chunk_in_data s) (r_chunk s)) as [Heq | Hne].
  - rewrite readChunk_hit by exact Heq.
    unfold CFG_checkSum_data, CFG_checkSum. cbn [fst snd].
    destruct (_ =? _); cbn [fst snd data set_data].
    + split; [discriminate |]. intros _. rewrite Hcopy. repeat split.
    + split; [reflexivity | discriminate].
  - destruct (Z_lt_le_dec (r_chunk s) eeprom_chunks) as [Hc | Hc].
    + rewrite readChunk_miss by assumption. cbv zeta.
      destruct (chunk_address (r_chunk s) ltac:(lia)) as [Ha _]. rewrite Ha.
      destruct (bus s (transfers (trace s))); cbn [fst snd].
      * unfold CFG_checkSum_data, CFG_checkSum.
        cbn [fst snd data set_data set_chunk_in_data log_event].
        fold (device_chunk (r_chunk s) s).
        destruct (_ =? _); cbn [fst snd data set_data].
        -- split; [discriminate |]. intros _. rewrite Hcopy. repeat split.
        -- split; [reflexivity | discriminate].
      * split; [reflexivity | discriminate].
    + rewrite readChunk_out_of_range by assumption. cbn [fst snd].
      split; [reflexivity | discriminate].
Qed.

Lemma loadRecord_result_witness :
  let s := one_record_rebooted in
  let rec := record_with_ID 0 in
  let d := if chunk_in_data s =? r_chunk s then data s
           else device_chunk (r_chunk s) s in
  (fst (fst (loadRecord RECORD32 rec s)) = false ->
   snd (fst (loadRecord RECORD32 rec s)) = rec) /\
  (fst (fst (loadRecord RECORD32 rec s)) = true ->
   fst (CFG_checkSum RECORD32 d false) = true /\
   snd (fst (loadRecord RECORD32 rec s))
   = firstn (sizeof_RECORD RECORD32) (set_u32 (offsetof_crc RECORD32) 0 d) /\
   data (snd (loadRecord RECORD32 rec s)) = set_u32 (offsetof_crc RECORD32) 0 d).
Proof.
  apply (loadRecord_result RECORD32 (record_with_ID 0) one_record_rebooted).
  - unfold wf_RECORD. cbn. lia.
  - split; vm_compute; reflexivity.
  - vm_compute. discriminate.
  - reflexivity.
Defined.

(** ** Loading twice *)

(** A successful load: where it leaves the cache. *)
Lemma loadRecord_true (L : RECORD_layout) (rec : list byte) (s : state) :
  wf_state s -> 0 <= r_chunk s ->
  fst (fst (loadRecord L rec s)) = true ->
  let d := if chunk_in_data s =? r_chunk s then data s
           else device_chunk (r_chunk s) s in
  let s1 := snd (loadRecord L rec s) in
  get_crc L d = cfg_sum (firstn (sizeof_RECORD L) (set_u32 (offsetof_crc L) 0 d)) 117 /\
  data s1 = set_u32 (offsetof_crc L) 0 d /\
  chunk_in_data s1 = r_chunk s /\ r_chunk s1 = r_chunk s /\
  length d = Z.to_nat eeprom_chunk_size.
Proof.
  intros Hwf Hr. pose proof Hwf as [Hd He].
  unfold loadRecord, bind, gets, ret.
  destruct (Z.eqb_spec (chunk_in_data s) (r_chunk s)) as [Heq | Hne].
  - rewrite readChunk_hit by exact Heq.
    unfold CFG_checkSum_data, CFG_checkSum. cbn [fst snd].
    destruct (Z.eqb_spec (get_crc L (data s))
                (cfg_sum (firstn (sizeof_RECORD L)
                            (set_u32 (offsetof_crc L) 0 (data s))) 117)) as [Hv | Hv];
      cbn [fst snd data set_data chunk_in_data r_chunk]; [intros _ | discriminate].
    repeat split; assumption.
  - destruct (Z_lt_le_dec (r_chunk s) eeprom_chunks) as [Hc | Hc].
    + rewrite readChunk_miss by assumption. cbv zeta.
      destruct (chunk_address (r_chunk s) ltac:(lia)) as [Ha _]. rewrite Ha.
      destruct (bus s (transfers (trace s))); cbn [fst snd]; [| discriminate].
      unfold CFG_checkSum_data, CFG_checkSum.
      cbn [fst snd data set_data set_chunk_in_data log_event].
      fold (device_chunk (r_chunk s) s).
      destruct (Z.eqb_spec (get_crc L (device_chunk (r_chunk s) s))
                  (cfg_sum (firstn (sizeof_RECORD L)
                              (set_u32 (offsetof_crc L) 0 (device_chunk (r_chunk s) s))) 117))
        as [Hv | Hv];
        cbn [fst snd data set_data chunk_in_data r_chunk]; [intros _ | discriminate].
      repeat split; try assumption.
      apply length_device_chunk; [exact Hwf | lia].
    + rewrite readChunk_out_of_range by assumption. cbn [fst snd]. discriminate.
Qed.

(** X10. A second [loadRecord] right after a successful one is served
    from the buffer, whose checksum field the first one zeroed: it issues
    no bus transaction and succeeds exactly when the stored checksum of the
    record is zero.  A valid record with a non-zero checksum is thus
    reported missing by the second load. *)
Theorem loadRecord_twice (L : RECORD_layout) (rec : list byte) (s : state) :
  wf_RECORD L -> wf_state s -> 0 <= r_chunk s ->
  fst (fst (loadRecord L rec s)) = true ->
  let d := if chunk_in_data s =? r_chunk s then data s
           else device_chunk (r_chunk s) s in
  let r1 := loadRecord L rec s in
  let r2 := loadRecord L (snd (fst r1)) (snd r1) in
  fst (fst r2) = (get_crc L d =? 0) /\
  trace (snd r2) = trace (snd r1).
Proof.
  intros HL Hwf Hr Hok d r1 r2.
  destruct (loadRecord_true L rec s Hwf Hr Hok) as (Hv & Hdata & Hcid & Hrc & Hlen).
  fold d in Hv, Hdata, Hlen. fold r1 in Hdata, Hcid, Hrc.
  pose proof HL as (_ & Hcrc & _ & Hsz).
  subst r2. unfold loadRecord, bind, gets, ret.
  rewrite readChunk_hit by congruence.
  unfold CFG_checkSum_data, CFG_checkSum, get_crc, get_u32, set_u32 in *.
  cbn [fst snd]. rewrite Hdata.
  rewrite get_set_le_same by lia.
  rewrite set_le_set_le by lia. rewrite <- Hv.
  change (0 mod 2 ^ (Z.of_nat 4 * 8)) with 0.
  rewrite (Z.eqb_sym 0).
  destruct (get_le 4 (offsetof_crc L) d =? 0); split; reflexivity.
Qed.

Lemma loadRecord_twice_witness :
  let s := one_record_rebooted in
  let rec := record_with_ID 0 in
  let d := if chunk_in_data s =? r_chunk s then data s
           else device_chunk (r_chunk s) s in
  let r1 := loadRecord RECORD32 rec s in
  let r2 := loadRecord RECORD32 (snd (fst r1)) (snd r1) in
  fst (fst r2) = (get_crc RECORD32 d =? 0) /\
  trace (snd r2) = trace (snd r1).
Proof.
  apply (loadRecord_twice RECORD32 (record_with_ID 0) one_record_rebooted).
  - unfold wf_RECORD. cbn. lia.
  - split; vm_compute; reflexivity.
  - vm_compute. discriminate.
  - vm_compute. reflexivity.
Defined.

(** ** Saving and loading a tip *)

(** A successful read through a coherent cache yields the chunk of the device. *)
Lemma readChunk_ok_data (c : Z) (s : state) :
  wf_state s -> cache_coherent s -> 0 <= c < eeprom_chunks ->
  fst (readChunk c s) = true ->
  let s1 := snd (readChunk c s) in
  data s1 = device_chunk c s /\ eeprom s1 = eeprom s /\ chunk_in_data s1 = c /\
  bus s1 = bus s /\ wf_state s1.
Proof.
  intros Hwf Hcoh Hc Hok s1. subst s1.
  destruct (Z.eq_dec (chunk_in_data s) c) as [Heq | Hne].
  - rewrite readChunk_hit by exact Heq. cbn [snd].
    repeat split; try apply Hwf; try assumption.
    rewrite <- Heq. apply Hcoh. lia.
  - rewrite readChunk_miss in * by (assumption || lia). cbv zeta in *.
    destruct (chunk_address c Hc) as [Ha Hb]. rewrite Ha in *.
    destruct (bus s (transfers (trace s))); [| discriminate].
    cbn [snd]. repeat split; try apply Hwf.
    cbn. apply length_mem_read. destruct Hwf as [_ He]. rewrite He. exact Hb.
Qed.

Lemma writeChunk_true (c : Z) (s : state) :
  fst (writeChunk c s) = true ->
  let s' := snd (writeChunk c s) in
  c < eeprom_chunks /\
  data s' = data s /\ chunk_in_data s' = c /\
  eeprom s' = mem_write (Z.to_nat (u16 (c * eeprom_chunk_size)))
                        (firstn (Z.to_nat eeprom_chunk_size) (data s)) (eeprom s) /\
  trace s' = Delay 20 :: I2C_Mem_Write 160 (u16 (c * eeprom_chunk_size)) true :: trace s.
Proof.
  destruct (Z_lt_le_dec c eeprom_chunks) as [Hc | Hc].
  - rewrite writeChunk_in_range by exact Hc. cbv zeta.
    destruct (bus s (transfers (trace s))); cbn [fst snd]; [intros _ | discriminate].
    repeat split. exact Hc.
  - rewrite writeChunk_out_of_range by exact Hc. cbn [fst]. discriminate.
Qed.

(** The buffer [saveTipData] writes back: the chunk with the slot replaced
    and its checksum byte set. *)
Lemma saveTipData_OK (T : TIP_layout) (tip : list byte) (idx : Z) (s : state) :
  wf_state s -> cache_coherent s -> 0 <= idx < tipDataTotal T ->
  fst (saveTipData T tip idx s) = EPR_OK ->
  let c := tip_chunk_of T idx in
  let index := Z.to_nat (tip_offset_of T idx) in
  let d2 := snd (TIP_checkSum T (memcpy_at index (device_chunk c s) tip (sizeof_TIP T))
                   index true) in
  let s' := snd (saveTipData T tip idx s) in
  data s' = d2 /\ chunk_in_data s' = c /\
  eeprom s' = mem_write (Z.to_nat (c * eeprom_chunk_size))
                        (firstn (Z.to_nat eeprom_chunk_size) d2) (eeprom s) /\
  trace s' = Delay 20 :: I2C_Mem_Write 160 (c * eeprom_chunk_size) true
                      :: trace (snd (readChunk c s)).
Proof.
  intros Hwf Hcoh Hidx. cbv zeta.
  destruct (tip_slot_geometry T idx Hidx) as (Hc & _).
  assert (Hc' : 0 <= tip_chunk_of T idx < eeprom_chunks)
    by (unfold eeprom_chunks, tip_chunks in *; lia).
  destruct (chunk_address _ Hc') as [Ha _].
  unfold saveTipData, bind, gets, ret, modify.
  rewrite <- tipDataTotal_eq.
  destruct (Z.gtb_spec idx (tipDataTotal T)); [lia |].
  pose proof (readChunk_ok_data (tip_chunk_of T idx) s Hwf Hcoh Hc') as Hrd.
  destruct (readChunk (tip_chunk_of T idx) s) as [[] s1]; cbn [fst snd] in *;
    [| discriminate].
  destruct (Hrd eq_refl) as (Hd1 & He1 & _ & _ & _). clear Hrd.
  cbn [data set_data]. rewrite Hd1.
  match goal with
  | |- context [writeChunk ?c ?st] =>
      pose proof (writeChunk_true c st) as Hwr; destruct (writeChunk c st) as [[] s2]
  end; cbn [fst snd] in *; [intros _ | discriminate].
  destruct (Hwr eq_refl) as (_ & Hd2 & Hcid & Hee & Htr). clear Hwr.
  cbn [data set_data eeprom trace] in Hd2, Hee, Htr.
  rewrite Ha, He1 in Hee. rewrite Ha in Htr.
  repeat split; assumption.
Qed.

(** The buffer written back, byte by byte. *)
Lemma saved_chunk_bytes
    (T : TIP_layout) (d0 tip : list byte) (index : nat) :
  wf_TIP T ->
  length d0 = Z.to_nat eeprom_chunk_size ->
  (index + sizeof_TIP T <= Z.to_nat eeprom_chunk_size)%nat ->
  length tip = sizeof_TIP T ->
  let d1 := memcpy_at index d0 tip (sizeof_TIP T) in
  let d2 := snd (TIP_checkSum T d1 index true) in
  length d1 = Z.to_nat eeprom_chunk_size /\
  length d2 = Z.to_nat eeprom_chunk_size /\
  (forall j, (j < index \/ index + sizeof_TIP T <= j)%nat ->
             nth j d2 Byte.x00 = nth j d0 Byte.x00) /\
  (forall i, (i < sizeof_TIP T)%nat -> i <> offsetof_tip_crc T ->
             nth (index + i) d2 Byte.x00 = nth i tip Byte.x00).
Proof.
  intros HT Hd0 Hfit Htip d1 d2.
  pose proof HT as (_ & _ & _ & _ & _ & _ & _ & _ & Hcrc).
  assert (Hd1 : length d1 = Z.to_nat eeprom_chunk_size).
  { subst d1. rewrite memcpy_at_mem_write by lia.
    rewrite length_mem_write; [exact Hd0 |]. rewrite length_firstn. lia. }
  assert (Hn1 : forall j, nth j d1 Byte.x00 =
                          if ((index <=? j) && (j <? index + sizeof_TIP T))%nat
                          then nth (j - index) tip Byte.x00 else nth j d0 Byte.x00).
  { intros j. subst d1. rewrite memcpy_at_mem_write by lia.
    rewrite nth_mem_write by (rewrite length_firstn; lia).
    rewrite length_firstn, Htip, Nat.min_id.
    destruct ((index <=? j)%nat && (j <? index + sizeof_TIP T)%nat) eqn:E; [| reflexivity].
    apply andb_prop in E. destruct E as [E1 E2].
    apply Nat.leb_le in E1. apply Nat.ltb_lt in E2.
    rewrite nth_firstn.
    destruct (Nat.ltb_spec (j - index) (sizeof_TIP T)); [reflexivity | lia]. }
  subst d2. rewrite TIP_checkSum_tip_sum. cbn [snd]. unfold set_u8.
  split; [exact Hd1 |].
  split; [rewrite length_set_le; lia |].
  split.
  - intros j Hj. rewrite nth_set_le_other by lia. rewrite Hn1.
    destruct (Nat.leb_spec index j), (Nat.ltb_spec j (index + sizeof_TIP T));
      cbn [andb]; try reflexivity; lia.
  - intros i Hi Hne. rewrite nth_set_le_other by lia. rewrite Hn1.
    destruct (Nat.leb_spec index (index + i)),
             (Nat.ltb_spec (index + i) (index + sizeof_TIP T)); cbn [andb]; try lia.
    f_equal. lia.
Qed.

Lemma TIP_checkSum_stamped_ok (T : TIP_layout) (mem : list byte) (base : nat) :
  wf_TIP T -> tip_crc_apart T ->
  (base + sizeof_TIP T <= length mem)%nat ->
  fst (TIP_checkSum T (snd (TIP_checkSum T mem base true)) base false) = true.
Proof.
  intros HT Hapart Hlen.
  pose proof HT as (_ & _ & _ & _ & _ & _ & _ & _ & Hcrc).
  rewrite !TIP_checkSum_tip_sum. cbn [fst snd].
  rewrite tip_sum_set_crc by assumption.
  unfold set_u8. rewrite get_u8_set_le_same by lia.
  rewrite land_FF, Z.mod_mod by (cbn; lia). apply Z.eqb_refl.
Qed.

(** Offsets of a slot as natural numbers. *)
Lemma tip_slot_nat (T : TIP_layout) (idx : Z) :
  wf_TIP T -> 0 <= idx < tipDataTotal T ->
  let c := tip_chunk_of T idx in
  let index := Z.to_nat (tip_offset_of T idx) in
  0 <= c < eeprom_chunks /\
  (index + sizeof_TIP T <= Z.to_nat eeprom_chunk_size)%nat /\
  Z.to_nat (tip_area_base + idx * requiredTipSpace T)
  = (Z.to_nat (c * eeprom_chunk_size) + index)%nat.
Proof.
  intros ([_ Hsz] & _) Hidx c index.
  destruct (tip_slot_geometry T idx Hidx) as (Hc & Ho0 & Ho & Ha).
  pose proof (requiredTipSpace_fits T Hsz) as Hfit.
  subst c index. rewrite <- Ha.
  unfold eeprom_chunks, tip_chunks, eeprom_chunk_size in *.
  repeat split; lia.
Qed.

(** X11. Round trip of a tip.  With a coherent cache, a [saveTipData]
    that reports [EPR_OK] followed by [loadTipData] of the same slot
    reports [EPR_OK] without any bus transaction and returns the record
    saved, byte for byte except for the checksum byte, which the save
    computed. *)
Theorem tip_round_trip
    (T : TIP_layout) (tip tip0 : list byte) (idx : Z) (s : state) :
  wf_TIP T -> tip_crc_apart T ->
  wf_state s -> cache_coherent s ->
  0 <= idx < tipDataTotal T ->
  length tip = sizeof_TIP T -> length tip0 = sizeof_TIP T ->
  fst (saveTipData T tip idx s) = EPR_OK ->
  let s' := snd (saveTipData T tip idx s) in
  let r := loadTipData T tip0 idx s' in
  fst (fst r) = EPR_OK /\
  snd r = s' /\
  length (snd (fst r)) = sizeof_TIP T /\
  (forall i, (i < sizeof_TIP T)%nat -> i <> offsetof_tip_crc T ->
             nth i (snd (fst r)) Byte.x00 = nth i tip Byte.x00).
Proof.
  intros HT Hapart Hwf Hcoh Hidx Htip Htip0 Hok s' r.
  destruct (saveTipData_OK T tip idx s Hwf Hcoh Hidx Hok) as (Hdata & Hcid & _).
  fold s' in Hdata, Hcid.
  destruct (tip_slot_nat T idx HT Hidx) as (Hc & Hfit & _).
  pose proof (length_device_chunk _ s Hwf Hc) as Hd0.
  destruct (saved_chunk_bytes T (device_chunk (tip_chunk_of T idx) s) tip
              (Z.to_nat (tip_offset_of T idx)) HT Hd0 Hfit Htip)
    as (Hd1 & Hd2 & _ & Hin).
  set (index := Z.to_nat (tip_offset_of T idx)) in *.
  set (d1 := memcpy_at index (device_chunk (tip_chunk_of T idx) s) tip (sizeof_TIP T)) in *.
  assert (Hv : fst (TIP_checkSum T (data s') index false) = true).
  { rewrite Hdata. apply TIP_checkSum_stamped_ok; try assumption. rewrite Hd1. exact Hfit. }
  subst r. unfold loadTipData, bind, gets, ret.
  rewrite <- tipDataTotal_eq.
  destruct (Z.gtb_spec idx (tipDataTotal T)); [lia |].
  rewrite readChunk_hit by exact Hcid. fold index. rewrite Hv. cbn [fst snd].
  split; [reflexivity |]. split; [reflexivity |].
  assert (Hcopy : memcpy tip0 (skipn index (data s')) (sizeof_TIP T)
                  = firstn (sizeof_TIP T) (skipn index (data s'))).
  { unfold memcpy, memcpy_at. cbn [firstn app Nat.add].
    rewrite (skipn_all2 tip0) by lia. apply app_nil_r. }
  rewrite Hcopy. split.
  - rewrite length_firstn, length_skipn, Hdata, Hd2. lia.
  - intros i Hi Hne. rewrite nth_firstn, nth_skipn.
    destruct (Nat.ltb_spec i (sizeof_TIP T)); [| lia].
    rewrite Hdata. apply Hin; assumption.
Qed.

Lemma tip_round_trip_witness :
  let s := boot erased_device good_bus in
  let tip := repeat Byte.x2a 16 in
  let s' := snd (saveTipData TIP16 tip 5 s) in
  let r := loadTipData TIP16 (repeat Byte.x00 16) 5 s' in
  fst (fst r) = EPR_OK /\
  snd r = s' /\
  length (snd (fst r)) = sizeof_TIP TIP16 /\
  (forall i, (i < sizeof_TIP TIP16)%nat -> i <> offsetof_tip_crc TIP16 ->
             nth i (snd (fst r)) Byte.x00 = nth i tip Byte.x00).
Proof.
  apply (tip_round_trip TIP16 (repeat Byte.x2a 16) (repeat Byte.x00 16) 5
           (boot erased_device good_bus)).
  - unfold wf_TIP. cbn. lia.
  - unfold tip_crc_apart. cbn. lia.
  - split; reflexivity.
  - unfold cache_coherent, eeprom_chunks. cbn. lia.
  - vm_compute. split; [discriminate | reflexivity].
  - reflexivity.
  - reflexivity.
  - vm_compute. reflexivity.
Defined.

Lemma TIP_IO_STATUS_eq_dec_OK (st : TIP_IO_STATUS) : {st = EPR_OK} + {st <> EPR_OK}.
Proof. destruct st; (left; reflexivity) || (right; discriminate). Qed.

(** A [saveTipData] that does not report [EPR_OK] has not changed the device. *)
Lemma saveTipData_not_OK (T : TIP_layout) (tip : list byte) (idx : Z) (s : state) :
  fst (saveTipData T tip idx s) <> EPR_OK ->
  eeprom (snd (saveTipData T tip idx s)) = eeprom s.
Proof.
  unfold saveTipData, bind, gets, ret, modify.
  destruct (idx >? _); [reflexivity |].
  destruct (readChunk_device_kept (tip_chunk_of T idx) s) as [He1 _].
  destruct (readChunk (tip_chunk_of T idx) s) as [[] s1]; cbn [fst snd] in *;
    [| intros _; exact He1].
  match goal with
  | |- context [writeChunk ?c ?st] =>
      pose proof (writeChunk_false c st) as Hwf;
      pose proof (writeChunk_out_of_range c st) as Hwo;
      destruct (writeChunk c st) as [[] s2]
  end; cbn [fst snd] in *; [congruence | intros _].
  destruct (Z_lt_le_dec (tip_chunk_of T idx) eeprom_chunks) as [Hc | Hc].
  - destruct (Hwf Hc eq_refl) as (_ & _ & He2). rewrite He2. exact He1.
  - specialize (Hwo Hc). apply (f_equal snd) in Hwo. cbn [snd] in Hwo.
    rewrite Hwo. exact He1.
Qed.

(** X12. [saveTipData] changes nothing on the device outside the bytes
    of the slot it is given: with a coherent cache and a slot index below
    [tipDataTotal], every byte of the device outside
    [tip_area_base + index * slot size, + sizeof(TIP)) keeps its value,
    so the other slot of the chunk and the configuration area survive;
    when the call does not report [EPR_OK] the device is unchanged. *)
Theorem saveTipData_slot_only
    (T : TIP_layout) (tip : list byte) (idx : Z) (s : state) :
  wf_TIP T -> wf_state s -> cache_coherent s ->
  0 <= idx < tipDataTotal T ->
  length tip = sizeof_TIP T ->
  let s' := snd (saveTipData T tip idx s) in
  let start := Z.to_nat (tip_area_base + idx * requiredTipSpace T) in
  length (eeprom s') = length (eeprom s) /\
  (forall a, (a < start \/ start + sizeof_TIP T <= a)%nat ->
             nth a (eeprom s') Byte.x00 = nth a (eeprom s) Byte.x00) /\
  (fst (saveTipData T tip idx s) <> EPR_OK -> eeprom s' = eeprom s).
Proof.
  intros HT Hwf Hcoh Hidx Htip s' start.
  destruct (tip_slot_nat T idx HT Hidx) as (Hc & Hfit & Hstart).
  fold start in Hstart.
  pose proof (saveTipData_not_OK T tip idx s) as Hno. fold s' in Hno.
  destruct (TIP_IO_STATUS_eq_dec_OK (fst (saveTipData T tip idx s))) as [Hok | Hne].
  2: { rewrite (Hno Hne). repeat split. }
  destruct (saveTipData_OK T tip idx s Hwf Hcoh Hidx Hok) as (_ & _ & Hee & _).
  fold s' in Hee.
  pose proof (length_device_chunk _ s Hwf Hc) as Hd0.
  destruct (saved_chunk_bytes T (device_chunk (tip_chunk_of T idx) s) tip
              (Z.to_nat (tip_offset_of T idx)) HT Hd0 Hfit Htip)
    as (_ & Hd2 & Hout & _).
  set (index := Z.to_nat (tip_offset_of T idx)) in *.
  set (d2 := snd (TIP_checkSum T _ index true)) in *.
  destruct (chunk_address _ Hc) as [_ Hb].
  destruct Hwf as [_ He].
  rewrite firstn_all2 in Hee by lia.
  set (base := Z.to_nat (tip_chunk_of T idx * eeprom_chunk_size)) in *.
  split; [rewrite Hee; apply length_mem_write; lia |].
  split; [| intros Hne; contradiction].
  intros a Ha. rewrite Hee, nth_mem_write by lia. rewrite Hd2.
  destruct (Nat.leb_spec base a); cbn [andb]; [| reflexivity].
  destruct (Nat.ltb_spec a (base + Z.to_nat eeprom_chunk_size)); [| reflexivity].
  rewrite Hout by lia.
  unfold device_chunk. fold base. rewrite nth_mem_read by lia.
  f_equal. lia.
Qed.

Lemma saveTipData_slot_only_witness :
  let s := boot erased_device good_bus in
  let tip := repeat Byte.x2a 16 in
  let s' := snd (saveTipData TIP16 tip 5 s) in
  let start := Z.to_nat (tip_area_base + 5 * requiredTipSpace TIP16) in
  length (eeprom s') = length (eeprom s) /\
  (forall a, (a < start \/ start + sizeof_TIP TIP16 <= a)%nat ->
             nth a (eeprom s') Byte.x00 = nth a (eeprom s) Byte.x00) /\
  (fst (saveTipData TIP16 tip 5 s) <> EPR_OK -> eeprom s' = eeprom s).
Proof.
  apply (saveTipData_slot_only TIP16 (repeat Byte.x2a 16) 5 (boot erased_device good_bus)).
  - unfold wf_TIP. cbn. lia.
  - split; reflexivity.
  - unfold cache_coherent, eeprom_chunks. cbn. lia.
  - vm_compute. split; [discriminate | reflexivity].
  - reflexivity.
Defined.

(** ** Erasing the configuration area *)

Lemma leading_ok_le (b : nat -> bool) (t0 n : nat) : (leading_ok b t0 n <= n)%nat.
Proof.
  revert t0. induction n as [| n IH]; intros t0; cbn; [lia |].
  destruct (b t0); [specialize (IH (S t0)); lia | lia].
Qed.

(** The write loop: the chunks before the first failing write receive the
    buffer, the others keep their content. *)
Lemma clear_loop_spec (m k : nat) (s : state) :
  wf_state s -> (k + m <= Z.to_nat eeprom_chunks)%nat ->
  let j := leading_ok (bus s) (transfers (trace s)) m in
  let s' := snd (clear_loop (map Z.of_nat (seq k m)) s) in
  wf_state s' /\
  data s' = data s /\ chunk_in_data s' = chunk_in_data s /\ bus s' = bus s /\
  can_write s' = can_write s /\
  transfers (trace s') = (transfers (trace s) + Nat.min (S j) m)%nat /\
  writes (trace s') = (writes (trace s) + Nat.min (S j) m)%nat /\
  (forall c, 0 <= c < eeprom_chunks ->
     device_chunk c s' =
     if (Z.of_nat k <=? c) && (c <? Z.of_nat (k + j)) then data s else device_chunk c s).
Proof.
  revert k s. induction m as [| m IH]; intros k s Hwf Hkm; cbn [seq map clear_loop leading_ok].
  - cbv zeta. cbn [ret snd]. rewrite !Nat.add_0_r.
    repeat split; try apply Hwf.
    intros c Hc. destruct (Z.leb_spec (Z.of_nat k) c), (Z.ltb_spec c (Z.of_nat k));
      cbn [andb]; try reflexivity; lia.
  - unfold bind, ret, HAL_I2C_Mem_Write, HAL_Delay, modify.
    pose proof Hwf as [Hd He].
    destruct (bus s (transfers (trace s))) eqn:Hbus.
    + set (s1 := log_event (Delay 10) _).
      assert (Hkc : 0 <= Z.of_nat k < eeprom_chunks)
        by (unfold eeprom_chunks in *; lia).
      destruct (chunk_address (Z.of_nat k) Hkc) as [_ Hb].
      assert (Hu : u32 (Z.of_nat k * eeprom_chunk_size) = Z.of_nat k * eeprom_chunk_size).
      { unfold u32, eeprom_chunk_size, eeprom_chunks in *.
        change (2 ^ 32) with 4294967296. apply Z.mod_small. lia. }
      assert (He1 : eeprom s1 = mem_write (Z.to_nat (Z.of_nat k * eeprom_chunk_size))
                                          (data s) (eeprom s)).
      { subst s1. cbn [eeprom set_eeprom log_event]. rewrite Hu.
        rewrite firstn_all2 by lia. reflexivity. }
      assert (Hwf1 : wf_state s1).
      { split; [exact Hd |]. rewrite He1, length_mem_write; [exact He | lia]. }
      assert (Htr1 : transfers (trace s1) = S (transfers (trace s))) by reflexivity.
      assert (Hwr1 : writes (trace s1) = S (writes (trace s))) by reflexivity.
      specialize (IH (S k) s1 Hwf1 ltac:(lia)). cbv zeta in IH.
      change (bus s1) with (bus s) in IH. rewrite Htr1 in IH.
      destruct IH as (Hwf' & Hdata & Hcid & Hbus' & Hcw & Htr & Hwr & Hdev).
      set (j := leading_ok (bus s) (S (transfers (trace s))) m) in *.
      cbv zeta. split; [exact Hwf' |]. split; [exact Hdata |]. split; [exact Hcid |].
      split; [exact Hbus' |]. split; [exact Hcw |].
      pose proof (leading_ok_le (bus s) (S (transfers (trace s))) m) as Hj. fold j in Hj.
      split; [rewrite Htr; lia |]. split; [rewrite Hwr, Hwr1; lia |].
      intros c Hc. rewrite (Hdev c Hc).
      change (data s1) with (data s).
      destruct (Z.eq_dec c (Z.of_nat k)) as [-> | Hne].
      * destruct (Z.leb_spec (Z.of_nat (S k)) (Z.of_nat k)); [lia |]. cbn [andb].
        destruct (Z.leb_spec (Z.of_nat k) (Z.of_nat k)); [| lia].
        destruct (Z.ltb_spec (Z.of_nat k) (Z.of_nat (k + S j))); [| lia]. cbn [andb].
        unfold device_chunk. rewrite He1. rewrite <- Hd.
        apply mem_read_write_same. lia.
      * assert (Hother : device_chunk c s1 = device_chunk c s).
        { unfold device_chunk. rewrite He1.
          destruct (chunk_address c Hc) as [_ Hcb].
          apply mem_read_write_other; try lia.
          unfold eeprom_chunk_size in *. lia. }
        rewrite Hother.
        destruct (Z.leb_spec (Z.of_nat (S k)) c), (Z.leb_spec (Z.of_nat k) c),
                 (Z.ltb_spec c (Z.of_nat (S k + j))), (Z.ltb_spec c (Z.of_nat (k + S j)));
          cbn [andb]; try reflexivity; lia.
    + cbv zeta. cbn [snd]. split; [exact Hwf |].
      split; [reflexivity |]. split; [reflexivity |]. split; [reflexivity |].
      split; [reflexivity |].
      split; [unfold transfers; cbn [trace log_event filter is_transfer length Nat.min]; lia |].
      split; [unfold writes; cbn [trace log_event filter is_write length Nat.min]; lia |].
      intros c Hc. rewrite Nat.add_0_r.
      destruct (Z.leb_spec (Z.of_nat k) c), (Z.ltb_spec c (Z.of_nat k));
        cbn [andb]; try reflexivity; lia.
Qed.

Lemma EEPROM_init_device_kept (L : RECORD_layout) (s : state) :
  device_kept s (snd (EEPROM_init L s)).
Proof.
  unfold EEPROM_init, bind, gets, ret, modify.
  pose proof (init_loop_device_kept L (chunk_range cfg_chunks) scan0 s) as H.
  destruct (init_loop L (chunk_range cfg_chunks) scan0 s) as [a s1]. cbn [snd] in H.
  destruct (records a =? 0); [exact H |].
  destruct (records a <? cfg_chunks); cbn; [| exact H].
  destruct (_ >=? cfg_chunks); exact H.
Qed.

(** A visit that finds an erased chunk, in the buffer or on the device, fails. *)
Lemma visit_blank (L : RECORD_layout) (c : Z) (s : state) :
  fst (CFG_checkSum L blank_chunk false) = false ->
  0 <= c < eeprom_chunks ->
  (chunk_in_data s = c -> data s = blank_chunk) ->
  (chunk_in_data s <> c -> device_chunk c s = blank_chunk) ->
  fst (visit L c s) = None.
Proof.
  intros Hblank Hc Hhit Hmiss. unfold visit, bind, gets, ret.
  destruct (Z.eq_dec (chunk_in_data s) c) as [Heq | Hne].
  - rewrite readChunk_hit by exact Heq.
    unfold CFG_checkSum_data. rewrite (Hhit Heq).
    destruct (CFG_checkSum L blank_chunk false) as [[] d]; [discriminate | reflexivity].
  - rewrite readChunk_miss by (assumption || lia). cbv zeta.
    destruct (chunk_address c Hc) as [Ha _]. rewrite Ha.
    destruct (bus s (transfers (trace s))); [| reflexivity].
    unfold CFG_checkSum_data. cbn [data set_data set_chunk_in_data log_event].
    fold (device_chunk c s). rewrite (Hmiss Hne).
    destruct (CFG_checkSum L blank_chunk false) as [[] d]; [discriminate | reflexivity].
Qed.

(** X13. [clearConfigArea] fills with 0xFF the chunks of the
    configuration area that precede the first failing bus write (all 64
    when no write fails), leaves every other chunk of the device, the tip
    area included, as it was, stops writing at the first failure, and
    always ends writable.  When an erased chunk does not pass the
    checksum and chunk 0 was erased (or the cache was marked for chunk 0),
    both pointers are back at chunk 0. *)
Theorem clearConfigArea_erases (L : RECORD_layout) (s : state) :
  wf_state s ->
  let j := leading_ok (bus s) (transfers (trace s)) (Z.to_nat cfg_chunks) in
  let s' := snd (clearConfigArea L s) in
  (forall c, 0 <= c < Z.of_nat j -> device_chunk c s' = blank_chunk) /\
  (forall c, Z.of_nat j <= c < eeprom_chunks -> device_chunk c s' = device_chunk c s) /\
  writes (trace s') = (writes (trace s) + Nat.min (S j) (Z.to_nat cfg_chunks))%nat /\
  can_write s' = true /\
  (fst (CFG_checkSum L blank_chunk false) = false ->
   (1 <= j)%nat \/ chunk_in_data s = 0 ->
   r_chunk s' = 0 /\ w_chunk s' = 0).
Proof.
  intros Hwf j s'.
  set (s0 := set_data blank_chunk s).
  assert (Hwf0 : wf_state s0) by (destruct Hwf as [_ He]; split; [reflexivity | exact He]).
  pose proof (clear_loop_spec (Z.to_nat cfg_chunks) 0 s0 Hwf0 ltac:(cbn; lia)) as Hloop.
  cbv zeta in Hloop.
  change (map Z.of_nat (seq 0 (Z.to_nat cfg_chunks))) with (chunk_range cfg_chunks) in Hloop.
  change (bus s0) with (bus s) in Hloop. change (trace s0) with (trace s) in Hloop.
  fold j in Hloop.
  set (s1 := snd (clear_loop (chunk_range cfg_chunks) s0)) in *.
  assert (Hs' : s' = snd (EEPROM_init L s1)).
  { subst s' s1 s0. unfold clearConfigArea, bind, modify.
    unfold blank_chunk. destruct (clear_loop _ _) as [[] s2]. reflexivity. }
  destruct Hloop as (Hwf1 & Hdata1 & Hcid1 & Hbus1 & _ & _ & Hwr1 & Hdev1).
  destruct (EEPROM_init_device_kept L s1) as (Hee & Hwr & _).
  rewrite <- Hs' in Hee, Hwr.
  assert (Hdev : forall c, device_chunk c s' = device_chunk c s1)
    by (intros c; unfold device_chunk; rewrite Hee; reflexivity).
  pose proof (leading_ok_le (bus s) (transfers (trace s)) (Z.to_nat cfg_chunks)) as Hj.
  fold j in Hj. change (Z.to_nat cfg_chunks) with 64%nat in *.
  split.
  { intros c Hc. rewrite Hdev, Hdev1 by (unfold eeprom_chunks; lia).
    destruct (Z.leb_spec (Z.of_nat 0) c), (Z.ltb_spec c (Z.of_nat (0 + j)));
      cbn [andb]; try lia. reflexivity. }
  split.
  { intros c Hc. rewrite Hdev, Hdev1 by lia.
    destruct (Z.leb_spec (Z.of_nat 0) c), (Z.ltb_spec c (Z.of_nat (0 + j)));
      cbn [andb]; try lia; reflexivity. }
  split; [rewrite Hwr, Hwr1; reflexivity |].
  split; [rewrite Hs'; apply EEPROM_init_ptrs |].
  intros Hblank Hfirst.
  assert (Hempty : fst (valid_prefix L (chunk_range cfg_chunks) s1) = []).
  { change (chunk_range cfg_chunks) with (0 :: map Z.of_nat (seq 1 63)).
    cbn [valid_prefix]. unfold bind.
    pose proof (visit_blank L 0 s1 Hblank ltac:(unfold eeprom_chunks; lia)) as Hv.
    destruct (visit L 0 s1) as [[id |] s2]; [| reflexivity].
    cbn [fst] in Hv. discriminate Hv.
    - intros _. exact Hdata1.
    - intros Hne. rewrite Hdev1 by (unfold eeprom_chunks; lia).
      rewrite Hcid1 in Hne. change (chunk_in_data s0) with (chunk_in_data s) in Hne.
      destruct Hfirst as [Hf | Hf]; [| contradiction].
      destruct (Z.leb_spec (Z.of_nat 0) 0), (Z.ltb_spec 0 (Z.of_nat (0 + j)));
        cbn [andb]; try lia. reflexivity. }
  destruct (EEPROM_init_empty L s1 Hempty) as (Hr & Hw & _).
  rewrite Hs'. split; assumption.
Qed.

Lemma clearConfigArea_erases_witness :
  let s := one_record_state in
  let j := leading_ok (bus s) (transfers (trace s)) (Z.to_nat cfg_chunks) in
  let s' := snd (clearConfigArea RECORD32 s) in
  (forall c, 0 <= c < Z.of_nat j -> device_chunk c s' = blank_chunk) /\
  (forall c, Z.of_nat j <= c < eeprom_chunks -> device_chunk c s' = device_chunk c s) /\
  writes (trace s') = (writes (trace s) + Nat.min (S j) (Z.to_nat cfg_chunks))%nat /\
  can_write s' = true /\
  (fst (CFG_checkSum RECORD32 blank_chunk false) = false ->
   (1 <= j)%nat \/ chunk_in_data s = 0 ->
   r_chunk s' = 0 /\ w_chunk s' = 0).
Proof.
  apply (clearConfigArea_erases RECORD32 one_record_state).
  split; vm_compute; reflexivity.
Defined.

(** ** The scan after a reset *)










Lemma device_chunk_eeprom (c : Z) (s s' : state) :
  eeprom s = eeprom s' -> device_chunk c s = device_chunk c s'.
Proof. intros H. unfold device_chunk. rewrite H. reflexivity. Qed.





(** ** A bus failure during the scan *)

Lemma EEPROM_init_read_failure (L : RECORD_layout) (s : state) :
  chunk_in_data s <> 0 -> bus s (transfers (trace s)) = false ->
  EEPROM_init L s =
  (tt, set_can_write true
         (set_w_chunk 0 (set_r_chunk 0 (log_event (I2C_Mem_Read 160 0 false) s)))).
Proof.
  intros Hne Hbus. unfold EEPROM_init.
  change (chunk_range cfg_chunks) with (0 :: map Z.of_nat (seq 1 63)).
  cbn [init_loop]. unfold bind at 1 2.
  rewrite readChunk_miss by (assumption || (unfold eeprom_chunks; lia)).
  cbv zeta. rewrite Hbus. reflexivity.
Qed.

(** X16. [EEPROM_init] cannot tell a failed read from an empty area.  When
    the first read of the scan fails, it counts no record, sets both
    pointers to chunk 0 and enables writing, whatever the device holds.
    The next [saveRecord], once the bus works again, succeeds and replaces
    chunk 0 of the device by the new record; the other chunks stay. *)
Theorem init_read_failure_overwrites
    (L : RECORD_layout) (s : state) (rec : list byte) :
  wf_RECORD L -> wf_state s -> length rec = sizeof_RECORD L ->
  chunk_in_data s <> 0 ->
  bus s (transfers (trace s)) = false ->
  bus s (S (transfers (trace s))) = true ->
  let s1 := snd (EEPROM_init L s) in
  let r := saveRecord L rec s1 in
  r_chunk s1 = 0 /\ w_chunk s1 = 0 /\ can_write s1 = true /\ eeprom s1 = eeprom s /\
  fst (fst r) = true /\
  firstn (sizeof_RECORD L) (device_chunk 0 (snd r)) = stamped L rec /\
  forall c, 0 < c < eeprom_chunks -> device_chunk c (snd r) = device_chunk c s.
Proof.
  intros HL Hwf Hlen Hne Hb0 Hb1 s1 r.
  assert (Hs1 : s1 = set_can_write true
                       (set_w_chunk 0 (set_r_chunk 0
                          (log_event (I2C_Mem_Read 160 0 false) s))))
    by (unfold s1; rewrite EEPROM_init_read_failure by assumption; reflexivity).
  assert (Hwf1 : wf_state s1) by (rewrite Hs1; exact Hwf).
  assert (Hptr1 : ptrs_ok s1) by (rewrite Hs1; unfold ptrs_ok, cfg_chunks; cbn; lia).
  assert (Hok : fst (fst r) = true).
  { unfold r. rewrite saveRecord_writable by (rewrite Hs1; reflexivity). cbv zeta.
    rewrite writeChunk_in_range by (rewrite Hs1; unfold eeprom_chunks; cbn; lia).
    cbv zeta. cbn [bus trace set_data].
    replace (bus s1 (transfers (trace s1))) with true
      by (rewrite Hs1; symmetry; exact Hb1).
    reflexivity. }
  destruct (device_after_save L rec s1 HL Hlen Hwf1 Hptr1 Hok) as (Hdata & Hdev & Hframe).
  fold r in Hdata, Hdev, Hframe.
  assert (Hw1 : w_chunk s1 = 0) by (rewrite Hs1; reflexivity).
  rewrite Hw1 in Hdev, Hframe.
  split; [rewrite Hs1; reflexivity |]. split; [exact Hw1 |].
  split; [rewrite Hs1; reflexivity |]. split; [rewrite Hs1; reflexivity |].
  split; [exact Hok |].
  split.
  - rewrite Hdev, Hdata. apply firstn_app_exact. rewrite length_stamped; assumption.
  - intros c Hc. rewrite Hframe by lia. apply device_chunk_eeprom.
    rewrite Hs1. reflexivity.
Qed.

Lemma init_read_failure_overwrites_witness :
  let s := boot (eeprom one_record_state) fails_first in
  let s1 := snd (EEPROM_init RECORD32 s) in
  let r := saveRecord RECORD32 (record_with_ID 0) s1 in
  fst (CFG_checkSum RECORD32 (device_chunk 0 s) false) = true /\
  r_chunk s1 = 0 /\ w_chunk s1 = 0 /\ can_write s1 = true /\ eeprom s1 = eeprom s /\
  fst (fst r) = true /\
  firstn (sizeof_RECORD RECORD32) (device_chunk 0 (snd r)) =
    stamped RECORD32 (record_with_ID 0) /\
  forall c, 0 < c < eeprom_chunks -> device_chunk c (snd r) = device_chunk c s.
Proof.
  split; [vm_compute; reflexivity |].
  apply (init_read_failure_overwrites RECORD32
           (boot (eeprom one_record_state) fails_first) (record_with_ID 0)).
  - unfold wf_RECORD. cbn. lia.
  - split; vm_compute; reflexivity.
  - reflexivity.
  - cbn. discriminate.
  - reflexivity.
  - reflexivity.
Defined.

(** ** The tip functions and the cache *)

Lemma writeChunk_after_read_coherent (c : Z) (s : state) :
  wf_state s -> 0 <= c -> chunk_in_data s = c ->
  cache_coherent (snd (writeChunk c s)).
Proof.
  intros [Hd He] H0 Hcid.
  destruct (Z_lt_le_dec c eeprom_chunks) as [Hc | Hc].
  - rewrite writeChunk_in_range by exact Hc. cbv zeta.
    destruct (chunk_address c ltac:(lia)) as [Ha Hb]. rewrite Ha.
    destruct (bus s (transfers (trace s))); cbn [snd].
    + intros _. unfold device_chunk.
      cbn [chunk_in_data data eeprom set_chunk_in_data set_eeprom log_event].
      rewrite firstn_all2 by lia.
      rewrite <- Hd. symmetry. apply mem_read_write_same. lia.
    + intros Hr. cbn in Hr. unfold eeprom_chunks in Hr. lia.
  - rewrite writeChunk_out_of_range by exact Hc. cbn [snd].
    intros Hr. lia.
Qed.

Lemma tip_staged_length (T : TIP_layout) (tip d : list byte) (idx : Z) :
  wf_TIP T -> length tip = sizeof_TIP T -> 0 <= idx ->
  length d = Z.to_nat eeprom_chunk_size ->
  let index := Z.to_nat (tip_offset_of T idx) in
  length (snd (TIP_checkSum T (memcpy_at index d tip (sizeof_TIP T)) index true))
  = Z.to_nat eeprom_chunk_size.
Proof.
  intros HT Hlen Hi Hd index.
  destruct HT as ([_ Hsz] & _ & _ & _ & _ & _ & _ & _ & Hcrc).
  pose proof (requiredTipSpace_fits T Hsz) as Hfit.
  pose proof (tip_slot_fits T idx Hi) as [Ho0 Ho].
  unfold eeprom_chunk_size in Ho, Hsz.
  assert (Hd1 : length (memcpy_at index d tip (sizeof_TIP T))
                = Z.to_nat eeprom_chunk_size).
  { rewrite memcpy_at_mem_write by lia.
    rewrite length_mem_write; [exact Hd |].
    rewrite length_firstn, Hd. subst index. unfold eeprom_chunk_size. lia. }
  unfold TIP_checkSum, set_u8. cbn [snd].
  rewrite length_set_le; [exact Hd1 |]. rewrite Hd1. subst index.
  unfold eeprom_chunk_size. lia.
Qed.

(** X17. The two tip functions keep the cache in step with the device:
    from a well-formed state whose cache is coherent, [loadTipData] and
    [saveTipData] end, for every index and every outcome, in a well-formed
    state whose cache is coherent. *)
Theorem tip_functions_keep_cache_coherent
    (T : TIP_layout) (tip : list byte) (idx : Z) (s : state) :
  wf_TIP T -> length tip = sizeof_TIP T -> 0 <= idx ->
  wf_state s -> cache_coherent s ->
  (wf_state (snd (loadTipData T tip idx s)) /\
   cache_coherent (snd (loadTipData T tip idx s))) /\
  (wf_state (snd (saveTipData T tip idx s)) /\
   cache_coherent (snd (saveTipData T tip idx s))).
Proof.
  intros HT Hlen Hidx Hwf Hcoh.
  assert (Hread : cache_coherent (snd (readChunk (tip_chunk_of T idx) s))).
  { destruct (Z.eq_dec (chunk_in_data s) (tip_chunk_of T idx)) as [Heq | Hne].
    - rewrite readChunk_hit by exact Heq. exact Hcoh.
    - destruct (Z_lt_le_dec (tip_chunk_of T idx) eeprom_chunks) as [Hc | Hc].
      + rewrite readChunk_miss by assumption. cbv zeta.
        destruct (chunk_address (tip_chunk_of T idx)
                    ltac:(split; [apply u16_nonneg | exact Hc])) as [Ha _].
        rewrite Ha.
        destruct (bus s (transfers (trace s))); cbn [snd]; [| exact Hcoh].
        intros _. reflexivity.
      + rewrite readChunk_out_of_range by assumption. exact Hcoh. }
  split; split.
  - apply loadTipData_wf, Hwf.
  - unfold loadTipData, bind, gets, ret.
    destruct (idx >? _); [exact Hcoh |].
    destruct (readChunk (tip_chunk_of T idx) s) as [[] s1]; cbn [fst snd] in *;
      [| exact Hread].
    destruct (fst (TIP_checkSum T (data s1) _ false)); exact Hread.
  - apply saveTipData_wf; assumption.
  - unfold saveTipData, bind, gets, ret, modify.
    destruct (idx >? _); [exact Hcoh |].
    pose proof (readChunk_true (tip_chunk_of T idx) s) as Hcid.
    pose proof (readChunk_wf (tip_chunk_of T idx) s (u16_nonneg _) Hwf) as [Hd1 He1].
    destruct (readChunk (tip_chunk_of T idx) s) as [[] s1]; cbn [fst snd] in *;
      [| exact Hread].
    specialize (Hcid eq_refl).
    cbn [data set_data].
    match goal with
    | |- context [writeChunk ?c ?st] =>
        pose proof (writeChunk_after_read_coherent c st) as Hw;
        destruct (writeChunk c st) as [[] s2]
    end; cbn [fst snd] in *; apply Hw;
      try (split; [apply tip_staged_length; assumption | exact He1]);
      try apply u16_nonneg; exact Hcid.
Qed.

Lemma tip_functions_keep_cache_coherent_witness :
  let s := boot erased_device good_bus in
  let tip := repeat Byte.x01 (sizeof_TIP TIP16) in
  (wf_state (snd (loadTipData TIP16 tip 5 s)) /\
   cache_coherent (snd (loadTipData TIP16 tip 5 s))) /\
  (wf_state (snd (saveTipData TIP16 tip 5 s)) /\
   cache_coherent (snd (saveTipData TIP16 tip 5 s))).
Proof.
  apply (tip_functions_keep_cache_coherent TIP16
           (repeat Byte.x01 (sizeof_TIP TIP16)) 5 (boot erased_device good_bus)).
  - unfold wf_TIP. cbn. lia.
  - reflexivity.
  - lia.
  - split; reflexivity.
  - intros H. cbn in H. unfold eeprom_chunks in H. lia.
Defined.
